(** * Structural inspection of C# and Java source trees

    A shallow embedding of [dotnet_app_inspector.py] and
    [maven_app_inspector.py]: the comment and literal sanitizers, the
    parameter splitter, the position based ownership of members, the
    descriptor property reader, the source aggregator and the two graph
    builders, with the properties the specification states about them. *)

From Stdlib Require Import Ascii String List Arith ZArith Lia Bool.
From stdpp Require Import gmap strings list fin_maps sorting.

Local Open Scope char_scope.
Local Open Scope string_scope.
Local Open Scope list_scope.
Local Open Scope nat_scope.

(** ** Python values *)

(** A Python [str] that is scanned character by character is a list of
    characters; a character is a code point below 256.  Names, paths and
    dictionary keys are [string]s. *)
Abbreviation text := (list ascii).

(** The characters of a string literal. *)
Definition chars (s : string) : text := list_ascii_of_string s.

Definition nl : ascii := "010".
Definition sp : ascii := " ".
Definition dq : ascii := "034".
Definition sq : ascii := "'".
Definition backslash : ascii := "\".

(** The outcome of running a piece of Python: it returns a value, it raises
    an exception (carried with its traceback text), or the loop that was
    run did not finish within the steps it was given. *)
Inductive py (A : Type) : Type :=
  | Return (a : A)
  | Raise (exc : string)
  | Diverge.
Arguments Return {A} a.
Arguments Raise {A} exc.
Arguments Diverge {A}.

Global Instance py_ret : MRet py := fun A a => Return a.
Global Instance py_bind : MBind py := fun A B f m =>
  match m with
  | Return a => f a
  | Raise e => Raise e
  | Diverge => Diverge
  end.
Global Instance py_fmap : FMap py := fun A B f m =>
  match m with
  | Return a => Return (f a)
  | Raise e => Raise e
  | Diverge => Diverge
  end.

(** [code[i]]: an index outside the string raises [IndexError]. *)
Definition getitem (code : text) (i : nat) : py ascii :=
  match code !! i with
  | Some ch => Return ch
  | None => Raise "IndexError"
  end.

(** [ch2 == c] where [ch2] is one character or the empty string. *)
Definition is_char (c : ascii) (ch2 : option ascii) : bool :=
  match ch2 with
  | Some c' => (c' =? c)%char
  | None => false
  end.

(** ** The lexical sanitizer *)

(** The five flags [in_sl_comment], [in_ml_comment], [in_verbatim_str],
    [in_str] and [in_char] are set only when all of them are false and are
    tested in this order, so at most one holds: the flags are one state. *)
Inductive lex_state : Type :=
  | Normal
  | InSlComment
  | InMlComment
  | InVerbatimStr
  | InStr
  | InChar.

(** ["\n" if ch == "\n" else " "] *)
Definition blank (ch : ascii) : ascii := if (ch =? nl)%char then nl else sp.

(** One iteration of the loop body of [strip_csharp_comments_and_strings]:
    the next state, what is appended to [result], and by how much [i]
    grows.  [more] is the test [(i + 1) < n]. *)
Definition csharp_step (st : lex_state) (ch : ascii) (ch2 : option ascii)
    (more : bool) : lex_state * text * nat :=
  match st with
  | InSlComment =>
      (if (ch =? nl)%char then Normal else InSlComment, [blank ch], 1)
  | InMlComment =>
      if (ch =? "*")%char && is_char "/" ch2 then (Normal, [sp; sp], 2)
      else (InMlComment, [blank ch], 1)
  | InVerbatimStr =>
      if (ch =? dq)%char && is_char dq ch2 then (InVerbatimStr, [sp; sp], 2)
      else if (ch =? dq)%char then (Normal, [sp], 1)
      else (InVerbatimStr, [blank ch], 1)
  | InStr =>
      if (ch =? backslash)%char && more then (InStr, [sp; sp], 2)
      else if (ch =? dq)%char then (Normal, [sp], 1)
      else (InStr, [sp], 1)
  | InChar =>
      if (ch =? backslash)%char && more then (InChar, [sp; sp], 2)
      else if (ch =? sq)%char then (Normal, [sp], 1)
      else (InChar, [sp], 1)
  | Normal =>
      if (ch =? "/")%char && is_char "/" ch2 then (InSlComment, [sp; sp], 2)
      else if (ch =? "/")%char && is_char "*" ch2 then (InMlComment, [sp; sp], 2)
      else if (ch =? "@")%char && is_char dq ch2 then (InVerbatimStr, [sp; sp], 2)
      else if (ch =? dq)%char then (InStr, [sp], 1)
      else if (ch =? sq)%char then (InChar, [sp], 1)
      else (Normal, [ch], 1)
  end.

(** One iteration of the loop body of [strip_java_comments_and_strings];
    Java has no verbatim strings, so [InVerbatimStr] is never entered (the
    flag does not exist there; the case is as for plain code). *)
Definition java_step (st : lex_state) (ch : ascii) (ch2 : option ascii)
    (more : bool) : lex_state * text * nat :=
  match st with
  | InSlComment =>
      if (ch =? nl)%char then (Normal, [ch], 1) else (InSlComment, [sp], 1)
  | InMlComment =>
      if (ch =? "*")%char && is_char "/" ch2 then (Normal, [sp; sp], 2)
      else (InMlComment, [blank ch], 1)
  | InStr =>
      if (ch =? backslash)%char && more then (InStr, [sp; sp], 2)
      else if (ch =? dq)%char then (Normal, [sp], 1)
      else (InStr, [sp], 1)
  | InChar =>
      if (ch =? backslash)%char && more then (InChar, [sp; sp], 2)
      else if (ch =? sq)%char then (Normal, [sp], 1)
      else (InChar, [sp], 1)
  | Normal | InVerbatimStr =>
      if (ch =? "/")%char && is_char "/" ch2 then (InSlComment, [sp; sp], 2)
      else if (ch =? "/")%char && is_char "*" ch2 then (InMlComment, [sp; sp], 2)
      else if (ch =? dq)%char then (InStr, [sp], 1)
      else if (ch =? sq)%char then (InChar, [sp], 1)
      else (Normal, [ch], 1)
  end.

(** [while i < n: ...] with [i], the state and [result] threaded through;
    [fuel] bounds the number of iterations. *)
Fixpoint while_loop (step : lex_state → ascii → option ascii → bool →
                            lex_state * text * nat)
    (fuel : nat) (code : text) (n i : nat) (st : lex_state) (result : text)
    : py text :=
  if negb (i <? n) then Return result else
  match fuel with
  | O => Diverge
  | S fuel' =>
      ch ← getitem code i;
      ch2 ← (if i + 1 <? n then Some <$> getitem code (i + 1)
             else Return None);
      let '(st', out, k) := step st ch ch2 (i + 1 <? n) in
      while_loop step fuel' code n (i + k) st' (result ++ out)
  end.

Definition strip_csharp_comments_and_strings (code : text) : py text :=
  while_loop csharp_step (length code) code (length code) 0 Normal [].

Definition strip_java_comments_and_strings (code : text) : py text :=
  while_loop java_step (length code) code (length code) 0 Normal [].

(** The same scan by recursion on the text that is left: what the loop
    appends to [result] from index [i] on, as a function of [code[i:]]. *)
Fixpoint scan (step : lex_state → ascii → option ascii → bool →
                      lex_state * text * nat)
    (st : lex_state) (code : text) : text :=
  match code with
  | [] => []
  | ch :: rest =>
      let '(st', out, k) :=
        step st ch (head rest) (match rest with [] => false | _ => true end) in
      match k, rest with
      | 2, _ :: rest' => out ++ scan step st' rest'
      | _, _ => out ++ scan step st' rest
      end
  end.

(** The loop is at index [i] in state [st] when an iteration starts (or when
    the loop ends). *)
Inductive reaches (step : lex_state → ascii → option ascii → bool →
                          lex_state * text * nat) (code : text)
    : nat → lex_state → Prop :=
  | reaches_start : reaches step code 0 Normal
  | reaches_step i st ch st' out k :
      reaches step code i st →
      code !! i = Some ch →
      step st ch (code !! (i + 1)) (i + 1 <? length code) = (st', out, k) →
      reaches step code (i + k) st'.

(** The text contains [a] directly followed by [b] (["*/"] for a block
    comment). *)
Fixpoint occurs2 (a b : ascii) (s : text) : bool :=
  match s with
  | [] => false
  | c :: r => ((c =? a)%char && is_char b (head r)) || occurs2 a b r
  end.

(** The text contains a quote [q] that no backslash escapes: the end of a
    string or character literal that is open where the text starts.  A
    backslash that is the last character escapes nothing. *)
Fixpoint unescaped_quote (q : ascii) (s : text) : bool :=
  match s with
  | [] => false
  | c :: r =>
      if (c =? backslash)%char then
        match r with
        | [] => false
        | _ :: r' => unescaped_quote q r'
        end
      else if (c =? q)%char then true
      else unescaped_quote q r
  end.

(** The text contains a double quote that is not one of a doubled pair: the
    end of a verbatim string that is open where the text starts. *)
Fixpoint single_quote_mark (s : text) : bool :=
  match s with
  | [] => false
  | c :: r =>
      if (c =? dq)%char then
        match r with
        | c' :: r' => if (c' =? dq)%char then single_quote_mark r' else true
        | [] => true
        end
      else single_quote_mark r
  end.

(** What both loop bodies have in common: an iteration consumes one or two
    characters and appends as many; a single character is copied or
    blanked, a pair is blanked and is there to be consumed. *)
Definition step_ok (step : lex_state → ascii → option ascii → bool →
                           lex_state * text * nat) : Prop :=
  ∀ st ch ch2 more st' out k,
    step st ch ch2 more = (st', out, k) →
    (k = 1 ∧ (out = [ch] ∨ out = [sp] ∨ out = [blank ch])) ∨
    (k = 2 ∧ out = [sp; sp] ∧ (is_Some ch2 ∨ more = true)).

(** The states the loop can be in on a text without quote characters. *)
Definition outside_literal (st : lex_state) : Prop :=
  st = Normal ∨ st = InSlComment ∨ st = InMlComment.

(** Outside string and character literals an iteration keeps a newline:
    a single character is copied or blanked with the newline kept, and the
    two characters of a blanked pair are not newlines. *)
Definition keeps_newlines (step : lex_state → ascii → option ascii → bool →
                                  lex_state * text * nat) : Prop :=
  ∀ st ch ch2 more st' out k,
    step st ch ch2 more = (st', out, k) →
    outside_literal st → ch ≠ dq → ch ≠ sq → ch2 ≠ Some dq →
    outside_literal st' ∧
    ((k = 1 ∧ (out = [ch] ∨ out = [blank ch])) ∨
     (k = 2 ∧ ch ≠ nl ∧ ch2 ≠ Some nl)).

(** ** The parameter splitter *)

(** [str.isspace] on the code points below 256: tab to carriage return, the
    four separators 28 to 31, the space, NEL and the no-break space. *)
Definition py_isspace (c : ascii) : bool :=
  let n := nat_of_ascii c in
  ((9 <=? n) && (n <=? 13)) || ((28 <=? n) && (n <=? 32))
  || (n =? 133) || (n =? 160).

Fixpoint lstrip (s : text) : text :=
  match s with
  | [] => []
  | c :: r => if py_isspace c then lstrip r else s
  end.

Definition rstrip (s : text) : text := reverse (lstrip (reverse s)).

(** [s.strip()] *)
Definition strip (s : text) : text := rstrip (lstrip s).

(** The local variables of [split_params] while it reads [param_block]. *)
Record split_state : Type := {
  params : list text;
  depth : Z;
  current : text;
}.

(** The body of [for ch in param_block]. *)
Definition split_char (st : split_state) (ch : ascii) : split_state :=
  if (ch =? "<")%char then
    {| params := params st; depth := depth st + 1;
       current := current st ++ [ch] |}
  else if (ch =? ">")%char then
    {| params := params st; depth := Z.max 0 (depth st - 1);
       current := current st ++ [ch] |}
  else if (ch =? ",")%char && (depth st =? 0)%Z then
    let part := strip (current st) in
    {| params := if decide (part = []) then params st else params st ++ [part];
       depth := depth st;
       current := [] |}
  else
    {| params := params st; depth := depth st;
       current := current st ++ [ch] |}.

Definition split_params (param_block : text) : list text :=
  match param_block with
  | [] => []
  | _ =>
      let st := fold_left split_char param_block
                  {| params := []; depth := 0; current := [] |} in
      let tail := strip (current st) in
      if decide (tail = []) then params st else params st ++ [tail]
  end.

(** *** The splitter as the specification words it *)

(** The nesting depth after a character: one more after [<], one less but
    not below zero after [>]. *)
Definition next_depth (d : Z) (ch : ascii) : Z :=
  if (ch =? "<")%char then (d + 1)%Z
  else if (ch =? ">")%char then Z.max 0 (d - 1)
  else d.

(** A comma read at depth zero is a separator. *)
Definition top_level_comma (d : Z) (ch : ascii) : bool :=
  (ch =? ",")%char && (d =? 0)%Z.

(** The text cut at its separators, read from depth [d]. *)
Fixpoint segments (d : Z) (s : text) : list text :=
  match s with
  | [] => [[]]
  | ch :: r =>
      if top_level_comma d ch then [] :: segments d r
      else match segments (next_depth d ch) r with
           | seg :: segs => (ch :: seg) :: segs
           | [] => [[ch]]
           end
  end.

(** The segments between the separators, each without the white space
    around it, the empty ones dropped. *)
Definition spec_split_params (s : text) : list text :=
  filter (λ p, p ≠ []) (strip <$> segments 0 s).

(** [",".join(segs)] *)
Definition join_comma (segs : list text) : text :=
  match segs with
  | [] => []
  | s :: rest => s ++ flat_map (λ x, ","%char :: x) rest
  end.

(** The number of separators of a text read from depth [d]. *)
Fixpoint count_separators (d : Z) (s : text) : nat :=
  match s with
  | [] => 0
  | ch :: r =>
      if top_level_comma d ch then S (count_separators d r)
      else count_separators (next_depth d ch) r
  end.

(** What is left to do after the loop: flush [current]. *)
Definition flush (st : split_state) : list text :=
  if decide (strip (current st) = []) then params st
  else params st ++ [strip (current st)].

(** The segments of the rest of the text, the first of them continuing
    [current]. *)
Definition continue_with (cur : text) (segs : list text) : list text :=
  match segs with
  | seg :: rest => (cur ++ seg) :: rest
  | [] => [cur]
  end.

(** ** The declaration extractor *)

(** [s.split()]: the maximal runs of characters that are not white space. *)
Fixpoint words_from (cur : text) (s : text) : list text :=
  match s with
  | [] => match cur with [] => [] | _ => [cur] end
  | c :: r =>
      if py_isspace c then
        match cur with
        | [] => words_from [] r
        | _ => cur :: words_from [] r
        end
      else words_from (cur ++ [c]) r
  end.

(** [[t for t in MOD_SPLIT_RE.split(mods.strip()) if t] if mods else []] *)
Definition split_modifiers (mods : text) : list text :=
  words_from [] (strip mods).

(** A match of [TYPE_RE]: [m.start()] and the groups that are read. *)
Record TypeMatch : Type := {
  tm_start : nat;
  tm_kind : string;
  tm_name : string;
  tm_mods : option text;
}.

(** A match of [METHOD_RE] or [CTOR_RE]: [m.start()] and the groups. *)
Record MemberMatch : Type := {
  mm_start : nat;
  mm_name : string;
  mm_mods : option text;
  mm_params : option text;
}.

(** The regular expressions of one front end, as what [search] and
    [finditer] return on a text ([NAMESPACE_RE] is [PACKAGE_RE] in the Java
    front end).  The [re] module is not part of the program. *)
Record regex_engine : Type := {
  NAMESPACE_RE_search : text → option string;
  TYPE_RE_finditer : text → list TypeMatch;
  METHOD_RE_finditer : text → list MemberMatch;
  CTOR_RE_finditer : text → list MemberMatch;
}.

(** The record of a method or of a constructor.  [parameters] holds the
    raw parameter strings [split_params] cuts out, one per parameter; the
    dictionary each is parsed into, the leading attribute lines and the
    prototype string are further text of the same match and are not kept
    here. *)
Record MemberInfo : Type := {
  member_name : string;
  member_modifiers : list text;
  member_parameters : list text;
}.

(** [type_info] *)
Record TypeInfo : Type := {
  type_kind : string;
  type_name : string;
  type_modifiers : list text;
  methods : list MemberInfo;
  constructors : list MemberInfo;
}.

Definition type_info (m : TypeMatch) : TypeInfo :=
  {| type_kind := tm_kind m;
     type_name := tm_name m;
     type_modifiers := split_modifiers (default [] (tm_mods m));
     methods := [];
     constructors := [] |}.

Definition member_info (m : MemberMatch) : MemberInfo :=
  {| member_name := mm_name m;
     member_modifiers := split_modifiers (default [] (mm_mods m));
     member_parameters := split_params (default [] (mm_params m)) |}.

(** [types[idx]["methods"].append(rec)] and
    [types[idx]["constructors"].append(rec)] on the dictionary itself. *)
Definition append_method (rec : MemberInfo) (t : TypeInfo) : TypeInfo :=
  {| type_kind := type_kind t; type_name := type_name t;
     type_modifiers := type_modifiers t;
     methods := methods t ++ [rec];
     constructors := constructors t |}.

Definition append_constructor (rec : MemberInfo) (t : TypeInfo) : TypeInfo :=
  {| type_kind := type_kind t; type_name := type_name t;
     type_modifiers := type_modifiers t;
     methods := methods t;
     constructors := constructors t ++ [rec] |}.

(** The order of the tuples [(start, name)] that [list.sort] uses. *)
Definition boundary_le (a b : nat * string) : bool :=
  (a.1 <? b.1) || ((a.1 =? b.1) && String.leb a.2 b.2).

Fixpoint insert_boundary (x : nat * string) (l : list (nat * string))
    : list (nat * string) :=
  match l with
  | [] => [x]
  | y :: r => if boundary_le x y then x :: l else y :: insert_boundary x r
  end.

(** [boundaries.sort()] *)
Definition sort_boundaries (l : list (nat * string)) : list (nat * string) :=
  foldr insert_boundary [] l.

(** [boundaries]: the sorted starts with their names, then the sentinel
    [(len(stripped) + 1, None)]. *)
Definition make_boundaries (stripped : text) (ms : list TypeMatch)
    : list (nat * option string) :=
  ((λ b, (b.1, Some b.2)) <$>
     sort_boundaries ((λ m, (tm_start m, tm_name m)) <$> ms))
  ++ [(length stripped + 1, None)].

(** [boundaries[i][0] <= pos < boundaries[i + 1][0]] *)
Definition in_interval (boundaries : list (nat * option string))
    (pos i : nat) : bool :=
  match boundaries !! i, boundaries !! (i + 1) with
  | Some lo, Some hi => (lo.1 <=? pos) && (pos <? hi.1)
  | _, _ => false
  end.

(** The first [i] in [range(len(boundaries) - 1)] whose interval holds
    [pos], or [None]. *)
Definition owning_type_index (boundaries : list (nat * option string))
    (pos : nat) : option nat :=
  List.find (in_interval boundaries pos) (seq 0 (length boundaries - 1)).

(** The body of [for mm in METHOD_RE.finditer(stripped)]. *)
Definition add_method (boundaries : list (nat * option string))
    (types : list TypeInfo) (mm : MemberMatch) : list TypeInfo :=
  match owning_type_index boundaries (mm_start mm) with
  | None => types
  | Some idx =>
      if length types <=? idx then types
      else alter (append_method (member_info mm)) idx types
  end.

(** The body of [for mc in CTOR_RE.finditer(stripped)]. *)
Definition add_constructor (boundaries : list (nat * option string))
    (types : list TypeInfo) (mc : MemberMatch) : list TypeInfo :=
  match owning_type_index boundaries (mm_start mc) with
  | None => types
  | Some idx =>
      if length types <=? idx then types
      else match types !! idx with
           | None => types
           | Some t =>
               if decide (mm_name mc ≠ type_name t) then types
               else alter (append_constructor (member_info mc)) idx types
           end
  end.

(** Where the interval of the [j]-th type header ends: at the start of the
    next header, or past the end of the text for the last one. *)
Definition interval_end (stripped : text) (tms : list TypeMatch) (j : nat)
    : nat :=
  match tms !! (j + 1) with
  | Some m => tm_start m
  | None => length stripped + 1
  end.

(** The summary of one file ([namespace] is the key ["package"] in the Java
    front end); [error] is set only by the aggregator. *)
Record FileSummary : Type := {
  path : string;
  namespace : option string;
  types : list TypeInfo;
  error : option string;
}.

(** [parse_csharp_file] and [parse_java_file] from the sanitized text on:
    the two functions differ in the sanitizer and in the expressions, and
    in fields of the records that are not kept here. *)
Definition parse_stripped (re : regex_engine) (file_path : string)
    (stripped : text) : FileSummary :=
  let types := type_info <$> TYPE_RE_finditer re stripped in
  let types :=
    match types with
    | [] => types
    | _ =>
        let boundaries := make_boundaries stripped (TYPE_RE_finditer re stripped) in
        let types := fold_left (add_method boundaries)
                       (METHOD_RE_finditer re stripped) types in
        fold_left (add_constructor boundaries)
          (CTOR_RE_finditer re stripped) types
    end in
  {| path := file_path;
     namespace := NAMESPACE_RE_search re stripped;
     types := types;
     error := None |}.

(** [read_text_safe] is the file system: the text of a file, or the
    exception the read raises. *)
Definition parse_csharp_file (read_text_safe : string → py text)
    (re : regex_engine) (cs_path : string) : py FileSummary :=
  raw ← read_text_safe cs_path;
  stripped ← strip_csharp_comments_and_strings raw;
  mret (parse_stripped re cs_path stripped).

Definition parse_java_file (read_text_safe : string → py text)
    (re : regex_engine) (java_path : string) : py FileSummary :=
  raw ← read_text_safe java_path;
  stripped ← strip_java_comments_and_strings raw;
  mret (parse_stripped re java_path stripped).

(** *** A file with two sibling classes *)

(** [class A] holds the method [f]; [class B] holds a constructor and the
    method [g].  The text has no comment and no literal, so it is its own
    sanitized mirror. *)
Definition example_source : text :=
  chars "class A { void f() {} } class B { B() {} void g() {} }".

(** What the expressions of the C# front end match on [example_source]: the
    two headers at 0 and 24, the methods [void f()] at 10 and [void g()] at
    41, and the constructor-shaped texts [f()] at 15, [B()] at 34 and [g()]
    at 46. *)
Definition example_engine : regex_engine :=
  {| NAMESPACE_RE_search := λ _, None;
     TYPE_RE_finditer := λ s,
       if decide (s = example_source) then
         [ {| tm_start := 0; tm_kind := "class"; tm_name := "A"; tm_mods := None |};
           {| tm_start := 24; tm_kind := "class"; tm_name := "B"; tm_mods := None |} ]
       else [];
     METHOD_RE_finditer := λ s,
       if decide (s = example_source) then
         [ {| mm_start := 10; mm_name := "f"; mm_mods := None; mm_params := Some [] |};
           {| mm_start := 41; mm_name := "g"; mm_mods := None; mm_params := Some [] |} ]
       else [];
     CTOR_RE_finditer := λ s,
       if decide (s = example_source) then
         [ {| mm_start := 15; mm_name := "f"; mm_mods := None; mm_params := Some [] |};
           {| mm_start := 34; mm_name := "B"; mm_mods := None; mm_params := Some [] |};
           {| mm_start := 46; mm_name := "g"; mm_mods := None; mm_params := Some [] |} ]
       else [] |}.

(** ** The source aggregator *)

(** [x or d] for an optional string: [None] and the empty string are
    false. *)
Definition py_or (x : option string) (d : string) : string :=
  match x with
  | Some s => if decide (s = "") then d else s
  | None => d
  end.

(** [try: m except Exception: handler] *)
Definition try_except {A} (m : py A) (handler : string → A) : py A :=
  match m with
  | Return a => Return a
  | Raise exc => Return (handler exc)
  | Diverge => Diverge
  end.

(** [for b in l: a = body(a, b)] *)
Fixpoint for_each {A B} (body : A → B → py A) (l : list B) (a : A) : py A :=
  match l with
  | [] => Return a
  | b :: r => a' ← body a b; for_each body r a'
  end.

(** A [pathlib.Path] as far as it is read: [str(p)] and [p.parts]. *)
Record Path : Type := {
  path_str : string;
  parts : list string;
}.

(** The file system the scan runs on: [read_text_safe], [Path.rglob],
    [Path.exists], [str(a / b)] and [str(Path(a).resolve())]. *)
Record file_system : Type := {
  fs_read_text : string → py text;
  fs_rglob : string → string → list Path;
  fs_exists : string → bool;
  fs_join : string → string → string;
  fs_resolve : string → string;
}.

(** [{"files": [...], "types": [...]}] *)
Record NsObj : Type := {
  ns_files : list string;
  ns_types : list TypeInfo;
}.

(** What [summarize_sources] returns. *)
Record SourceSummary : Type := {
  namespaces : gmap string NsObj;
  file_count : nat;
}.

(** The summary built in the [except] branch: the path and the traceback,
    no namespace and no types. *)
Definition error_summary (p : Path) (exc : string) : FileSummary :=
  {| path := path_str p; namespace := None; types := []; error := Some exc |}.

(** The end of the loop body, the same in both front ends up to the name of
    the default namespace: [files.append(summary)], then the path and the
    types are appended to the entry of the namespace, made on first use. *)
Definition record_summary (default_ns : string)
    (acc : gmap string NsObj * list FileSummary) (summary : FileSummary)
    : gmap string NsObj * list FileSummary :=
  let '(namespaces, files) := acc in
  let files := files ++ [summary] in
  let ns := py_or (namespace summary) default_ns in
  let ns_obj := default {| ns_files := []; ns_types := [] |} (namespaces !! ns) in
  (<[ns := {| ns_files := ns_files ns_obj ++ [path summary];
              ns_types := ns_types ns_obj ++ types summary |}]> namespaces,
   files).

(** The summary the loop body works with for a file: what the parser
    returns, or the error summary when it raises. *)
Definition summary_of (parse : string → py FileSummary) (p : Path)
    : FileSummary :=
  match parse (path_str p) with
  | Return s => s
  | Raise exc => error_summary p exc
  | Diverge => error_summary p ""
  end.

(** The loop body of both front ends, for a file that is not skipped. *)
Definition scan_one (default_ns : string) (parse : string → py FileSummary)
    (acc : gmap string NsObj * list FileSummary) (p : Path)
    : py (gmap string NsObj * list FileSummary) :=
  summary ← try_except (parse (path_str p)) (error_summary p);
  mret (record_summary default_ns acc summary).

(** The summaries that count for a namespace. *)
Definition in_namespace (default_ns ns : string) (sums : list FileSummary)
    : list FileSummary :=
  filter (λ s, py_or (namespace s) default_ns = ns) sums.




(** ** Project descriptors *)

(** An element of the tree [ET.fromstring] returns: its tag, its
    attributes, its text and its children in document order. *)
#[local] Unset Elimination Schemes.
Inductive Element : Type :=
  | Elem (tag : string) (attrib : list (string * string))
         (text : option string) (children : list Element).
#[local] Set Elimination Schemes.

Definition tag (e : Element) : string :=
  match e with Elem t _ _ _ => t end.
Definition attrib (e : Element) : list (string * string) :=
  match e with Elem _ a _ _ => a end.
Definition el_text (e : Element) : option string :=
  match e with Elem _ _ x _ => x end.
Definition children (e : Element) : list Element :=
  match e with Elem _ _ _ cs => cs end.

(** [e.findall(name)] and [e.find(name)] for a plain tag name: the
    children of that tag, and the first of them. *)
Definition findall (name : string) (e : Element) : list Element :=
  filter (λ c, tag c = name) (children e).

Definition find (name : string) (e : Element) : option Element :=
  head (findall name e).

(** [e.get(key)] *)
Definition get (key : string) (e : Element) : option string :=
  snd <$> List.find (λ kv, String.eqb kv.1 key) (attrib e).

Definition strip_string (s : string) : string :=
  string_of_list_ascii (strip (list_ascii_of_string s)).

(** [el.text.strip() if el is not None and el.text else None] *)
Definition _xml_text (el : option Element) : option string :=
  match el with
  | Some e =>
      match el_text e with
      | Some t => if decide (t = "") then None else Some (strip_string t)
      | None => None
      end
  | None => None
  end.

(** [x or None] *)
Definition or_none (x : option string) : option string :=
  match x with
  | Some s => if decide (s = "") then None else Some s
  | None => None
  end.

(** A value that counts as true: a string that is not empty. *)
Definition truthy (x : option string) : bool :=
  match x with
  | Some s => negb (String.eqb s "")
  | None => false
  end.

(** [tag.split("}", 1)[1]] when the tag holds a brace, the tag otherwise. *)
Fixpoint after_brace (s : string) : option string :=
  match s with
  | EmptyString => None
  | String c r => if (c =? "}")%char then Some r else after_brace r
  end.

Definition local_tag (t : string) : string := default t (after_brace t).

(** [for el in root.iter(): ... el.tag = el.tag.split("}", 1)[1]] *)
Fixpoint strip_namespaces (e : Element) : Element :=
  match e with
  | Elem t a x cs => Elem (local_tag t) a x (List.map strip_namespaces cs)
  end.

(** [s.split(sep)] for a separator of one character. *)
Fixpoint split_on (sep : ascii) (s : text) : list text :=
  match s with
  | [] => [[]]
  | c :: r =>
      if (c =? sep)%char then [] :: split_on sep r
      else match split_on sep r with
           | seg :: segs => (c :: seg) :: segs
           | [] => [[c]]
           end
  end.

Fixpoint insert_string (x : string) (l : list string) : list string :=
  match l with
  | [] => [x]
  | y :: r => if String.leb x y then x :: l else y :: insert_string x r
  end.

(** [sorted(set(l))] *)
Definition sorted_set (l : list string) : list string :=
  foldr insert_string [] (remove_dups l).

(** The first value a list of elements gives to the field [f]: the text of
    the first element of tag [f] whose stripped text is not empty. *)
Definition first_value (f : string) (cs : list Element) : option string :=
  head (omap (λ c, if decide (tag c = f) then or_none (_xml_text (Some c))
                   else None) cs).

(** ** The C# front end *)

Module Dotnet.

(** ["obj" in cs.parts or "bin" in cs.parts] *)
Definition skipped (cs : Path) : bool :=
  bool_decide ("obj" ∈ parts cs) || bool_decide ("bin" ∈ parts cs).

(** The body of [for cs in project_dir.rglob("*.cs")]. *)
Definition scan_file (fs : file_system) (re : regex_engine)
    (acc : gmap string NsObj * list FileSummary) (cs : Path)
    : py (gmap string NsObj * list FileSummary) :=
  if skipped cs then Return acc
  else
    summary ← try_except (parse_csharp_file (fs_read_text fs) re (path_str cs))
                (error_summary cs);
    mret (record_summary "(global)" acc summary).

(** The loop of [summarize_sources], with [namespaces] and [files] as they
    are when it ends. *)
Definition scan_sources (fs : file_system) (re : regex_engine)
    (project_dir : string) : py (gmap string NsObj * list FileSummary) :=
  for_each (scan_file fs re) (fs_rglob fs project_dir "*.cs") (∅, []).

Definition summarize_sources (fs : file_system) (re : regex_engine)
    (project_dir : string) : py SourceSummary :=
  acc ← scan_sources fs re project_dir;
  mret {| namespaces := acc.1; file_count := length acc.2 |}.

(** The files the loop scans: those it does not skip. *)
Definition scanned_files (fs : file_system) (project_dir : string)
    : list Path :=
  List.filter (λ cs, negb (skipped cs)) (fs_rglob fs project_dir "*.cs").

(** [{"include": ..., "name": ..., "project_guid": ...}] *)
Record ProjectReference : Type := {
  include : string;
  ref_name : option string;
  project_guid : option string;
}.

(** [{"name": ..., "version": ..., "include": ...}] *)
Record PackageReference : Type := {
  package_name : string;
  package_version : option string;
  package_include : string;
}.

(** What [parse_csproj] returns. *)
Record Project : Type := {
  csproj_path : string;
  dir : string;
  assembly_name : option string;
  root_namespace : option string;
  target_frameworks : list string;
  output_type : option string;
  project_references : list ProjectReference;
  package_references : list PackageReference;
}.

(** The body of [for child in pg]: a child without text is passed over, and
    a tag that is in [props] already keeps its value. *)
Definition collect_child (props : gmap string string) (child : Element)
    : gmap string string :=
  match or_none (_xml_text (Some child)) with
  | None => props
  | Some val =>
      match props !! tag child with
      | Some _ => props
      | None => <[tag child := val]> props
      end
  end.

(** [for pg in root.findall("PropertyGroup"): for child in pg: ...] *)
Definition collect_props (root : Element) : gmap string string :=
  fold_left (λ props pg, fold_left collect_child (children pg) props)
    (findall "PropertyGroup" root) ∅.

(** [TargetFramework], then the parts of [TargetFrameworks]. *)
Definition collect_frameworks (props : gmap string string) : list string :=
  let tfs := match props !! "TargetFramework" with
             | Some tf => [tf]
             | None => []
             end in
  let tfs := match props !! "TargetFrameworks" with
             | Some all =>
                 tfs ++ filter (λ tf, tf ≠ "")
                          ((λ tf, string_of_list_ascii (strip tf)) <$>
                             split_on ";" (list_ascii_of_string all))
             | None => tfs
             end in
  sorted_set tfs.

Definition project_reference (pr : Element) : list ProjectReference :=
  match or_none (get "Include" pr) with
  | None => []
  | Some inc =>
      [ {| include := inc;
           ref_name := or_none (_xml_text (find "Name" pr));
           project_guid := or_none (_xml_text (find "Project" pr)) |} ]
  end.

Definition package_reference (pr : Element) : list PackageReference :=
  let version :=
    match or_none (get "Version" pr) with
    | Some v => Some v
    | None => or_none (_xml_text (find "Version" pr))
    end in
  match or_none (get "Include" pr) with
  | None => []
  | Some inc =>
      [ {| package_name := inc; package_version := version;
           package_include := inc |} ]
  end.

(** [parse_csproj] from the parsed document on; [parent] is
    [str(csproj_path.parent)]. *)
Definition parse_csproj (path parent : string) (document : Element)
    : Project :=
  let root := strip_namespaces document in
  let props := collect_props root in
  {| csproj_path := path;
     dir := parent;
     assembly_name := props !! "AssemblyName";
     root_namespace := props !! "RootNamespace";
     target_frameworks := collect_frameworks props;
     output_type := props !! "OutputType";
     project_references :=
       flat_map (λ ig, flat_map project_reference (findall "ProjectReference" ig))
         (findall "ItemGroup" root);
     package_references :=
       flat_map (λ ig, flat_map package_reference (findall "PackageReference" ig))
         (findall "ItemGroup" root) |}.

(** An edge of [project_references] and one of [package_dependencies]. *)
Record ReferenceEdge : Type := {
  ref_from : string;
  ref_to : string;
  edge_name : option string;
  edge_project_guid : option string;
}.

Record PackageEdge : Type := {
  dep_from : string;
  dep_package : string;
  dep_version : option string;
}.

Record Graph : Type := {
  graph_project_references : list ReferenceEdge;
  graph_package_dependencies : list PackageEdge;
}.

(** [by_path]: the projects by the resolved path of their descriptor; a
    later project of the same path takes the place of an earlier one. *)
Definition index_by_path (fs : file_system) (projects : list Project)
    : gmap string Project :=
  fold_left (λ by_path p, <[fs_resolve fs (csproj_path p) := p]> by_path)
    projects ∅.

(** The body of [for pr in p.get("project_references", [])]. *)
Definition add_reference (fs : file_system) (by_path : gmap string Project)
    (p : Project) (project_refs : list ReferenceEdge) (pr : ProjectReference)
    : list ReferenceEdge :=
  if decide (include pr = "") then project_refs
  else
    let base_dir := fs_resolve fs (dir p) in
    let target_path := fs_resolve fs (fs_join fs base_dir (include pr)) in
    let to_proj :=
      match by_path !! target_path with
      | Some q => Some (csproj_path q)
      | None => None
      end in
    project_refs ++
      [ {| ref_from := csproj_path p;
           ref_to := py_or to_proj target_path;
           edge_name := ref_name pr;
           edge_project_guid := project_guid pr |} ].

(** The body of [for dep in p.get("package_references", [])]. *)
Definition add_package (p : Project) (package_deps : list PackageEdge)
    (dep : PackageReference) : list PackageEdge :=
  package_deps ++
    [ {| dep_from := csproj_path p;
         dep_package := package_name dep;
         dep_version := package_version dep |} ].

Definition build_graph (fs : file_system) (projects : list Project) : Graph :=
  let by_path := index_by_path fs projects in
  let '(project_refs, package_deps) :=
    fold_left
      (λ '(project_refs, package_deps) p,
         (fold_left (add_reference fs by_path p) (project_references p)
            project_refs,
          fold_left (add_package p) (package_references p) package_deps))
      projects ([], []) in
  {| graph_project_references := project_refs;
     graph_package_dependencies := package_deps |}.

(** The edge the graph holds for the reference [pr] of [p]: it points at
    the last project whose resolved descriptor path is the resolved include
    path, and at that path itself when there is none. *)
Definition reference_edge (fs : file_system) (projects : list Project)
    (p : Project) (pr : ProjectReference) : ReferenceEdge :=
  let target_path :=
    fs_resolve fs (fs_join fs (fs_resolve fs (dir p)) (include pr)) in
  {| ref_from := csproj_path p;
     ref_to :=
       match last (filter (λ q, fs_resolve fs (csproj_path q) = target_path)
                     projects) with
       | Some q => py_or (Some (csproj_path q)) target_path
       | None => target_path
       end;
     edge_name := ref_name pr;
     edge_project_guid := project_guid pr |}.

(** [build_graph] with [Path.resolve] as the call it is: [resolve] returns
    the resolved path or raises ([RuntimeError] on a loop of symbolic
    links), and [build_graph] has no handler around its three calls, so
    what [resolve] raises ends the function.  [join] is [str(a / b)]. *)
Definition index_by_path_raising (resolve : string → py string)
    (projects : list Project) : py (gmap string Project) :=
  for_each (λ by_path p,
              resolved ← resolve (csproj_path p);
              mret (<[resolved := p]> by_path))
    projects ∅.

Definition add_reference_raising (resolve : string → py string)
    (join : string → string → string) (by_path : gmap string Project)
    (p : Project) (base_dir : string) (project_refs : list ReferenceEdge)
    (pr : ProjectReference) : py (list ReferenceEdge) :=
  if decide (include pr = "") then Return project_refs
  else
    target_path ← resolve (join base_dir (include pr));
    let to_proj :=
      match by_path !! target_path with
      | Some q => Some (csproj_path q)
      | None => None
      end in
    mret (project_refs ++
            [ {| ref_from := csproj_path p;
                 ref_to := py_or to_proj target_path;
                 edge_name := ref_name pr;
                 edge_project_guid := project_guid pr |} ]).

Definition build_graph_raising (resolve : string → py string)
    (join : string → string → string) (projects : list Project) : py Graph :=
  by_path ← index_by_path_raising resolve projects;
  acc ← for_each
           (λ acc p,
              base_dir ← resolve (dir p);
              project_refs ←
                for_each (add_reference_raising resolve join by_path p base_dir)
                  (project_references p) acc.1;
              mret (project_refs,
                    fold_left (add_package p) (package_references p) acc.2))
           projects ([], []);
  mret {| graph_project_references := acc.1;
          graph_package_dependencies := acc.2 |}.

End Dotnet.

(** ** The Java front end *)

Module Maven.

Definition DEFAULT_SOURCE_DIRS : list string :=
  ["src/main/java"; "src/test/java"].

(** The body of [for fp in src_dir.rglob("*.java")]. *)
Definition scan_file (fs : file_system) (re : regex_engine)
    (acc : gmap string NsObj * list FileSummary) (fp : Path)
    : py (gmap string NsObj * list FileSummary) :=
  summary ← try_except (parse_java_file (fs_read_text fs) re (path_str fp))
              (error_summary fp);
  mret (record_summary "(default)" acc summary).

(** The body of [for rel_src in DEFAULT_SOURCE_DIRS]. *)
Definition scan_source_dir (fs : file_system) (re : regex_engine)
    (project_dir : string)
    (acc : gmap string NsObj * list FileSummary) (rel_src : string)
    : py (gmap string NsObj * list FileSummary) :=
  let src_dir := fs_join fs project_dir rel_src in
  if negb (fs_exists fs src_dir) then Return acc
  else for_each (scan_file fs re) (fs_rglob fs src_dir "*.java") acc.

Definition scan_sources (fs : file_system) (re : regex_engine)
    (project_dir : string) : py (gmap string NsObj * list FileSummary) :=
  for_each (scan_source_dir fs re project_dir) DEFAULT_SOURCE_DIRS (∅, []).

Definition summarize_sources (fs : file_system) (re : regex_engine)
    (project_dir : string) : py SourceSummary :=
  acc ← scan_sources fs re project_dir;
  mret {| namespaces := acc.1; file_count := length acc.2 |}.

(** The files the loops scan: the Java files of the source directories
    that exist. *)
Definition scanned_files (fs : file_system) (project_dir : string)
    : list Path :=
  flat_map (λ rel_src,
              let src_dir := fs_join fs project_dir rel_src in
              if fs_exists fs src_dir then fs_rglob fs src_dir "*.java"
              else [])
    DEFAULT_SOURCE_DIRS.

(** [f"{g}:{a}" if g and a else None] *)
Definition ga_key (g a : option string) : option string :=
  if truthy g && truthy a then Some (default "" g +:+ ":" +:+ default "" a)
  else None.

(** [f"{g}:{a}:{v}" if g and a and v else None] *)
Definition gav_key (g a v : option string) : option string :=
  if truthy g && truthy a && truthy v
  then Some (default "" g +:+ ":" +:+ default "" a +:+ ":" +:+ default "" v)
  else None.

(** A dependency as [parse_pom] records it. *)
Record Dependency : Type := {
  dep_groupId : option string;
  dep_artifactId : option string;
  dep_version : option string;
  scope : string;
  dep_type : string;
  optional : bool;
  ga : option string;
  gav : option string;
}.

(** The dictionary [parse_pom] builds from the six texts of a
    [<dependency>] element. *)
Definition dependency (dg da dv ds dt do_ : option string) : Dependency :=
  {| dep_groupId := dg; dep_artifactId := da; dep_version := dv;
     scope := py_or ds "compile";
     dep_type := py_or dt "jar";
     optional := bool_decide (do_ = Some "true");
     ga := ga_key dg da;
     gav := gav_key dg da dv |}.

Record ParentInfo : Type := {
  parent_groupId : option string;
  parent_artifactId : option string;
  parent_version : option string;
  relativePath : option string;
}.

(** What [parse_pom] returns. *)
Record Project : Type := {
  pom_path : string;
  dir : string;
  groupId : option string;
  artifactId : option string;
  version : option string;
  name : option string;
  packaging : string;
  parent : option ParentInfo;
  modules : list string;
  dependencies : list Dependency;
}.

(** [gav_key(p.get("groupId"), p.get("artifactId"), p.get("version"))] and
    [ga_key(p.get("groupId"), p.get("artifactId"))] *)
Definition project_gav (p : Project) : option string :=
  gav_key (groupId p) (artifactId p) (version p).

Definition project_ga (p : Project) : option string :=
  ga_key (groupId p) (artifactId p).

Record ParentEdge : Type := {
  edge_parent : string;
  edge_child : string;
}.

Record ModuleEdge : Type := {
  aggregator : option string;
  module_path : string;
}.

Record DependencyEdge : Type := {
  from : string;
  to : option string;
  edge_scope : string;
}.

Record Graph : Type := {
  parent_child : list ParentEdge;
  module_inclusion : list ModuleEdge;
  graph_dependencies : list DependencyEdge;
}.

(** The first loop of [build_graph]: [by_gav] and [by_ga].  A key that
    [gav_key] or [ga_key] returns is never empty, so [if vk:] and [if gk:]
    only test for [None]. *)
Definition index_project (acc : gmap string Project * gmap string Project)
    (p : Project) : gmap string Project * gmap string Project :=
  let '(by_gav, by_ga) := acc in
  (match project_gav p with
   | Some vk => <[vk := p]> by_gav
   | None => by_gav
   end,
   match project_ga p with
   | Some gk => <[gk := p]> by_ga
   | None => by_ga
   end).

Definition index_projects (projects : list Project)
    : gmap string Project * gmap string Project :=
  fold_left index_project projects (∅, ∅).

(** [m[k]] under the test [k and k in m]. *)
Definition lookup_key (m : gmap string Project) (k : option string)
    : option Project :=
  match or_none k with
  | Some s => m !! s
  | None => None
  end.

(** The body of [for p in projects] in the parent loop. *)
Definition add_parent_child (parent_child : list ParentEdge) (p : Project)
    : list ParentEdge :=
  match parent p with
  | None => parent_child
  | Some par =>
      match gav_key (parent_groupId par) (parent_artifactId par)
              (parent_version par), project_gav p with
      | Some parent_gav, Some child_gav =>
          parent_child ++
            [ {| edge_parent := parent_gav; edge_child := child_gav |} ]
      | _, _ => parent_child
      end
  end.

(** The body of [for p in projects] in the module loop. *)
Definition add_modules (fs : file_system) (module_inclusion : list ModuleEdge)
    (p : Project) : list ModuleEdge :=
  fold_left
    (λ module_inclusion m,
       module_inclusion ++
         [ {| aggregator := project_gav p;
              module_path := fs_resolve fs (fs_join fs (dir p) m) |} ])
    (modules p) module_inclusion.

(** The target of the edge of a dependency: its own coordinate with
    version when a project has exactly that, the coordinate with version of
    the project of the same group and artifact when there is one, its
    coordinate without version or ["external"] otherwise. *)
Definition dependency_target (by_gav by_ga : gmap string Project)
    (d : Dependency) : option string :=
  match lookup_key by_gav (gav d) with
  | Some _ => gav d
  | None =>
      match lookup_key by_ga (ga d) with
      | Some tgt => project_gav tgt
      | None => Some (py_or (ga d) "external")
      end
  end.

(** The body of [for p in projects] in the dependency loop. *)
Definition add_dependencies (by_gav by_ga : gmap string Project)
    (dependencies_ : list DependencyEdge) (p : Project)
    : list DependencyEdge :=
  match project_gav p with
  | None => dependencies_
  | Some from_gav =>
      fold_left
        (λ dependencies_ d,
           dependencies_ ++
             [ {| from := from_gav;
                  to := dependency_target by_gav by_ga d;
                  edge_scope := scope d |} ])
        (dependencies p) dependencies_
  end.

Definition build_graph (fs : file_system) (projects : list Project) : Graph :=
  let '(by_gav, by_ga) := index_projects projects in
  {| parent_child := fold_left add_parent_child projects [];
     module_inclusion := fold_left (add_modules fs) projects [];
     graph_dependencies :=
       fold_left (add_dependencies by_gav by_ga) projects [] |}.

(** The project with its dependency list emptied. *)
Definition without_dependencies (p : Project) : Project :=
  {| pom_path := pom_path p; dir := dir p; groupId := groupId p;
     artifactId := artifactId p; version := version p; name := name p;
     packaging := packaging p; parent := parent p; modules := modules p;
     dependencies := [] |}.

End Maven.

(** The edges a project adds to [dependencies]. *)
Definition dependency_edges (by_gav by_ga : gmap string Maven.Project)
    (p : Maven.Project) : list Maven.DependencyEdge :=
  match Maven.project_gav p with
  | None => []
  | Some from_gav =>
      (λ d, {| Maven.from := from_gav;
               Maven.to := Maven.dependency_target by_gav by_ga d;
               Maven.edge_scope := Maven.scope d |})
      <$> Maven.dependencies p
  end.

(** Two indexes that hold, key by key, projects of the same identity. *)
Definition same_keys (m m' : gmap string Maven.Project) : Prop :=
  ∀ k, Maven.project_gav <$> (m !! k) = Maven.project_gav <$> (m' !! k).

(** *** A project with a file that cannot be read *)

Definition example_paths : list Path :=
  [ {| path_str := "proj/A.cs"; parts := ["proj"; "A.cs"] |};
    {| path_str := "proj/Broken.cs"; parts := ["proj"; "Broken.cs"] |};
    {| path_str := "proj/obj/Gen.cs"; parts := ["proj"; "obj"; "Gen.cs"] |};
    {| path_str := "proj/B.cs"; parts := ["proj"; "B.cs"] |} ].

Definition example_fs : file_system :=
  {| fs_read_text := λ p,
       if decide (p = "proj/Broken.cs") then Raise "PermissionError"
       else Return example_source;
     fs_rglob := λ _ _, example_paths;
     fs_exists := λ d, bool_decide (d = "proj/src/main/java");
     fs_join := λ a b, a +:+ "/" +:+ b;
     fs_resolve := λ p, p |}.

(** *** A descriptor with two property groups *)

Definition example_csproj : Element :=
  Elem "{http://schemas.microsoft.com/developer/msbuild/2003}Project" [] None
    [ Elem "{http://schemas.microsoft.com/developer/msbuild/2003}PropertyGroup" [] None
        [ Elem "{http://schemas.microsoft.com/developer/msbuild/2003}AssemblyName"
            [] (Some " First ") [] ];
      Elem "{http://schemas.microsoft.com/developer/msbuild/2003}PropertyGroup" [] None
        [ Elem "{http://schemas.microsoft.com/developer/msbuild/2003}AssemblyName"
            [] (Some "Second") [];
          Elem "{http://schemas.microsoft.com/developer/msbuild/2003}OutputType"
            [] (Some "Exe") [] ] ].

(** *** A descriptor whose first property group holds a blank field *)

(** The first group has an [AssemblyName] element that holds one space;
    the second gives the name. *)
Definition example_csproj_blank_first : Element :=
  Elem "Project" [] None
    [ Elem "PropertyGroup" [] None
        [ Elem "AssemblyName" [] (Some " ") [] ];
      Elem "PropertyGroup" [] None
        [ Elem "AssemblyName" [] (Some "Second") [] ] ].

(** *** A file system without symbolic links *)

(** The components of a path with the empty and dot components dropped and
    every dot-dot taking the component before it away. *)
Fixpoint normalize (stack : list text) (comps : list text) : list text :=
  match comps with
  | [] => stack
  | c :: r =>
      if decide (c = []) then normalize stack r
      else if decide (c = chars ".") then normalize stack r
      else if decide (c = chars "..") then normalize (removelast stack) r
      else normalize (stack ++ [c]) r
  end.

(** [Path.resolve] on absolute paths when no component is a link. *)
Definition posix_resolve (p : string) : string :=
  match normalize [] (split_on "/" (list_ascii_of_string p)) with
  | [] => "/"
  | comps => string_of_list_ascii (flat_map (λ c, "/"%char :: c) comps)
  end.

(** [a / b]: [b] when it is absolute, [b] under [a] otherwise. *)
Definition posix_join (a b : string) : string :=
  match b with
  | String "/" _ => b
  | _ => a +:+ "/" +:+ b
  end.

Definition posix_fs : file_system :=
  {| fs_read_text := λ _, Raise "FileNotFoundError";
     fs_rglob := λ _ _, [];
     fs_exists := λ _, false;
     fs_join := posix_join;
     fs_resolve := posix_resolve |}.

(** *** Two C# projects, the second referring to the first *)

Definition project_A : Dotnet.Project :=
  {| Dotnet.csproj_path := "/w/A/A.csproj";
     Dotnet.dir := "/w/A";
     Dotnet.assembly_name := Some "A";
     Dotnet.root_namespace := None;
     Dotnet.target_frameworks := ["net8.0"];
     Dotnet.output_type := None;
     Dotnet.project_references := [];
     Dotnet.package_references := [] |}.

(** [B] refers to the descriptor of [A], to a project that was not parsed,
    and to the directory of [A]. *)
Definition project_B (includes : list string) : Dotnet.Project :=
  {| Dotnet.csproj_path := "/w/B/B.csproj";
     Dotnet.dir := "/w/B";
     Dotnet.assembly_name := Some "B";
     Dotnet.root_namespace := None;
     Dotnet.target_frameworks := ["net8.0"];
     Dotnet.output_type := None;
     Dotnet.project_references :=
       (λ inc, {| Dotnet.include := inc; Dotnet.ref_name := None;
                  Dotnet.project_guid := None |}) <$> includes;
     Dotnet.package_references :=
       [ {| Dotnet.package_name := "Lib";
            Dotnet.package_version := Some "1.0";
            Dotnet.package_include := "Lib" |} ] |}.

(** *** Maven projects of one workspace *)

Definition maven_project (g a v : option string)
    (deps : list Maven.Dependency) : Maven.Project :=
  {| Maven.pom_path := "/w/" +:+ default "" a +:+ "/pom.xml";
     Maven.dir := "/w/" +:+ default "" a;
     Maven.groupId := g; Maven.artifactId := a; Maven.version := v;
     Maven.name := None; Maven.packaging := "jar"; Maven.parent := None;
     Maven.modules := []; Maven.dependencies := deps |}.

(** The library [org.x:core], of version 2.0 in the workspace. *)
Definition core_project : Maven.Project :=
  maven_project (Some "org.x") (Some "core") (Some "2.0") [].

(** What an application asks for: version 1.5 of [org.x:core], and
    [junit:junit] for its tests. *)
Definition app_dependencies : list Maven.Dependency :=
  [ Maven.dependency (Some "org.x") (Some "core") (Some "1.5") None None None;
    Maven.dependency (Some "junit") (Some "junit") (Some "4.13")
      (Some "test") None None ].

Definition app_project : Maven.Project :=
  maven_project (Some "org.x") (Some "app") (Some "1.0") app_dependencies.

(** The same application with no [<version>] of its own and no parent to
    take one from. *)
Definition app_without_version : Maven.Project :=
  maven_project (Some "org.x") (Some "app") None app_dependencies.

(** ** The source aggregator, further *)

(** The entry of a namespace after a scan that gave the summaries [sums]:
    none when no summary counts for it, the paths and the types of its
    summaries, in the order of the scan, otherwise. *)
Definition namespace_entry (default_ns ns : string) (sums : list FileSummary)
    : option NsObj :=
  match in_namespace default_ns ns sums with
  | [] => None
  | group => Some {| ns_files := path <$> group;
                     ns_types := flat_map types group |}
  end.

(** ** The leading-modifier collectors *)

(** [code.rfind(c, 0, hi)] for [hi >= 0]: the last index below [hi] that
    holds [c]; [None] stands for [-1]. *)
Fixpoint rfind (c : ascii) (code : text) (hi : nat) : option nat :=
  match hi with
  | 0 => None
  | S j => if is_char c (code !! j) then Some j else rfind c code j
  end.

(** [code[a:b]] for [0 <= a] and [0 <= b]. *)
Definition slice (code : text) (a b : nat) : text :=
  take (b - a) (drop a code).

(** The loop of [collect_leading_attributes]: [i] and [attrs] are its
    variables, [fuel] bounds its iterations. *)
Fixpoint attributes_loop (fuel : nat) (stripped_code : text) (i : nat)
    (attrs : list text) : py (list text) :=
  match fuel with
  | 0 => Diverge
  | S fuel' =>
      match rfind nl stripped_code i with
      | None => Return attrs
      | Some prev_nl =>
          let line_start :=
            match rfind nl stripped_code prev_nl with
            | None => 0
            | Some j => j + 1
            end in
          let line := strip (slice stripped_code line_start prev_nl) in
          if decide (line = []) then
            attributes_loop fuel' stripped_code line_start attrs
          else if is_char "[" (head line) then
            attributes_loop fuel' stripped_code line_start (attrs ++ [line])
          else Return attrs
      end
  end.

Definition collect_leading_attributes (stripped_code : text) (start_idx : nat)
    : py (list text) :=
  attrs ← attributes_loop (S start_idx) stripped_code start_idx [];
  mret (reverse attrs).

(** The lines that end before offset [i]: the text before [i] cut at its
    newlines, without the part of the line [i] is in. *)
Definition lines_above (code : text) (i : nat) : list text :=
  removelast (split_on nl (take i code)).

(** Walking up from the nearest line: a blank line is passed over, a line
    whose stripped text starts with the marker is collected, and the first
    other line ends the walk. *)
Fixpoint leading_lines (marker : ascii) (nearest_first : list text)
    : list text :=
  match nearest_first with
  | [] => []
  | l :: r =>
      let line := strip l in
      if decide (line = []) then leading_lines marker r
      else if is_char marker (head line) then line :: leading_lines marker r
      else []
  end.

(** The integer Python's [rfind] returns: [-1] when nothing is found. *)
Definition found (o : option nat) : Z :=
  match o with
  | None => (-1)%Z
  | Some j => Z.of_nat j
  end.

(** The loop of [collect_leading_annotations]; [i] can be negative, it is
    only used as an index while [i >= 0]. *)
Fixpoint annotations_loop (fuel : nat) (code : text) (i : Z)
    (annotations : list text) : py (list text) :=
  match fuel with
  | 0 => Diverge
  | S fuel' =>
      if (i <? 0)%Z then Return annotations
      else
        let prev_newline := found (rfind nl code (Z.to_nat i)) in
        let seg_start :=
          if (prev_newline <? 0)%Z then 0 else Z.to_nat (prev_newline + 1) in
        let seg := strip (slice code seg_start (Z.to_nat (i + 1))) in
        if decide (seg = []) then
          annotations_loop fuel' code (prev_newline - 1) annotations
        else if is_char "@" (head seg) then
          annotations_loop fuel' code (prev_newline - 1) (annotations ++ [seg])
        else Return annotations
  end.

Definition collect_leading_annotations (code : text) (start_idx : nat)
    : py (list text) :=
  let line_start := (found (rfind nl code start_idx) + 1)%Z in
  annotations ← annotations_loop (S start_idx) code (line_start - 2) [];
  mret (reverse annotations).

(** The lines that end at the newline after offset [i]; none for [i < -1]. *)
Definition lines_until (code : text) (i : Z) : list text :=
  if (i <? -1)%Z then [] else split_on nl (take (Z.to_nat (i + 1)) code).

(** ** The descriptor parser, further *)

(** The order [sorted] puts two different strings in: character by
    character, a proper prefix first. *)
Definition string_lt (a b : string) : Prop :=
  String.leb a b = true ∧ a ≠ b.

(** The element with every tag in the namespace [ns]: what the XML parser
    returns for a document that declares [ns] as its default namespace. *)
Fixpoint qualify (ns : string) (e : Element) : Element :=
  match e with
  | Elem t a x cs => Elem ("{" +:+ ns +:+ "}" +:+ t) a x (List.map (qualify ns) cs)
  end.

(** No tag of the element holds a closing brace. *)
Fixpoint plain (e : Element) : bool :=
  match e with
  | Elem t _ _ cs => bool_decide (after_brace t = None) && forallb plain cs
  end.

(** A descriptor with a target framework given twice and a list of
    frameworks out of order, a project reference without [Include] and a
    package reference. *)
Definition example_sdk_csproj : Element :=
  Elem "Project" [("Sdk", "Microsoft.NET.Sdk")] None
    [ Elem "PropertyGroup" [] None
        [ Elem "TargetFramework" [] (Some "net8.0") [];
          Elem "TargetFrameworks" [] (Some "net8.0; netstandard2.0 ;;net48") [] ];
      Elem "ItemGroup" [] None
        [ Elem "ProjectReference" [("Include", "../A/A.csproj")] None [];
          Elem "ProjectReference" [("Condition", "true")] None [];
          Elem "PackageReference" [("Include", "Lib")] None
            [ Elem "Version" [] (Some "1.0") [] ] ] ].

(** ** The POM parser *)

(** The namespace the prefix [m] stands for in [ns]. *)
Definition POM_NS : string := "http://maven.apache.org/POM/4.0.0".

(** The tag the path step [m:name] selects under the prefix map [ns]. *)
Definition m_tag (name : string) : string := "{" +:+ POM_NS +:+ "}" +:+ name.

(** [parent_info] *)
Definition parent_info_of (parent : Element) : Maven.ParentInfo :=
  {| Maven.parent_groupId := _xml_text (find (m_tag "groupId") parent);
     Maven.parent_artifactId := _xml_text (find (m_tag "artifactId") parent);
     Maven.parent_version := _xml_text (find (m_tag "version") parent);
     Maven.relativePath := _xml_text (find (m_tag "relativePath") parent) |}.

(** The body of [for m in findall("m:modules/m:module")]. *)
Definition pom_module (m : Element) : list string :=
  match _xml_text (Some m) with
  | Some t => if decide (t = "") then [] else [strip_string t]
  | None => []
  end.

(** The body of [for d in findall("m:dependencies/m:dependency")]. *)
Definition pom_dependency (d : Element) : Maven.Dependency :=
  Maven.dependency
    (_xml_text (find (m_tag "groupId") d))
    (_xml_text (find (m_tag "artifactId") d))
    (_xml_text (find (m_tag "version") d))
    (_xml_text (find (m_tag "scope") d))
    (_xml_text (find (m_tag "type") d))
    (_xml_text (find (m_tag "optional") d)).

(** [parse_pom] from the parsed document on, when the text parses at the
    first attempt, so that [ns] keeps the Maven namespace; [parent_dir] is
    [str(pom_path.parent)]. *)
Definition parse_pom (pom_path parent_dir : string) (root : Element)
    : Maven.Project :=
  let gid := _xml_text (find (m_tag "groupId") root) in
  let aid := _xml_text (find (m_tag "artifactId") root) in
  let ver := _xml_text (find (m_tag "version") root) in
  let name := _xml_text (find (m_tag "name") root) in
  let packaging := py_or (_xml_text (find (m_tag "packaging") root)) "jar" in
  let parent_info := parent_info_of <$> find (m_tag "parent") root in
  let gid :=
    match parent_info, gid with
    | Some info, None => Maven.parent_groupId info
    | _, _ => gid
    end in
  let ver :=
    match parent_info, ver with
    | Some info, None => Maven.parent_version info
    | _, _ => ver
    end in
  {| Maven.pom_path := pom_path;
     Maven.dir := parent_dir;
     Maven.groupId := gid;
     Maven.artifactId := aid;
     Maven.version := ver;
     Maven.name := name;
     Maven.packaging := packaging;
     Maven.parent := parent_info;
     Maven.modules :=
       flat_map (λ ms, flat_map pom_module (findall (m_tag "module") ms))
         (findall (m_tag "modules") root);
     Maven.dependencies :=
       flat_map (λ ds, pom_dependency <$> findall (m_tag "dependency") ds)
         (findall (m_tag "dependencies") root) |}.

(** The same module written with and without the namespace declaration. *)
Definition pom_element (qualified : bool) (name : string)
    (text : option string) (children : list Element) : Element :=
  Elem (if qualified then m_tag name else name) [] text children.

Definition example_pom (qualified : bool) : Element :=
  pom_element qualified "project" None
    [ pom_element qualified "parent" None
        [ pom_element qualified "groupId" (Some "org.x") [];
          pom_element qualified "artifactId" (Some "root") [];
          pom_element qualified "version" (Some "2.0") [] ];
      pom_element qualified "artifactId" (Some " app ") [];
      pom_element qualified "dependencies" None
        [ pom_element qualified "dependency" None
            [ pom_element qualified "groupId" (Some "org.x") [];
              pom_element qualified "artifactId" (Some "core") [] ] ] ].

(** The module with a [groupId] element of its own that holds only white
    space. *)
Definition example_pom_blank_group : Element :=
  Elem (m_tag "project") [] None
    (Elem (m_tag "groupId") [] (Some "  ") [] :: children (example_pom true)).

(** ** Further definitions for the sanitizer *)

(** A text in which nothing is left for the sanitizer to blank: no quote
    character and no comment opener. *)
Definition clean (s : text) : Prop :=
  (dq ∉ s) ∧ (sq ∉ s) ∧ occurs2 "/" "/" s = false ∧ occurs2 "/" "*" s = false.

(** What an iteration never appends: a quote character, or a slash that the
    next character of the input would turn into a comment opener. *)
Definition blanks_openers (step : lex_state → ascii → option ascii → bool →
                                  lex_state * text * nat) : Prop :=
  ∀ st ch ch2 more st' out k,
    step st ch ch2 more = (st', out, k) →
    (dq ∉ out) ∧ (sq ∉ out) ∧
    (last out = Some "/"%char →
     k = 1 ∧ ch2 ≠ Some "/"%char ∧ ch2 ≠ Some "*"%char).

(** In the normal state a character that opens nothing is copied. *)
Definition copies_plain (step : lex_state → ascii → option ascii → bool →
                                lex_state * text * nat) : Prop :=
  ∀ ch ch2 more,
    ch ≠ dq → ch ≠ sq → ch2 ≠ Some dq →
    ¬ (ch = "/"%char ∧ (ch2 = Some "/"%char ∨ ch2 = Some "*"%char)) →
    step Normal ch ch2 more = (Normal, [ch], 1).

(** ** Further definitions for the parameter splitter *)

(** The nesting depth after a text read from depth [d]. *)
Definition depth_after (d : Z) (s : text) : Z := fold_left next_depth s d.

(** ** White space *)

(** [WS_RE.sub(" ", s)]: each maximal run of white space becomes one space;
    [in_run] tells that the character before was white space. *)
Fixpoint sub_ws (in_run : bool) (s : text) : text :=
  match s with
  | [] => []
  | c :: r =>
      if py_isspace c then
        if in_run then sub_ws true r else sp :: sub_ws true r
      else c :: sub_ws false r
  end.

(** [normalize_ws]: [WS_RE.sub(" ", s).strip()] *)
Definition normalize_ws (s : text) : text := strip (sub_ws false s).

(** [" ".join(ws)] *)
Definition join_space (ws : list text) : text :=
  match ws with
  | [] => []
  | w :: r => w ++ flat_map (λ x, sp :: x) r
  end.

(** A word: not empty and without white space. *)
Definition is_word (w : text) : Prop :=
  w ≠ [] ∧ Forall (λ c, py_isspace c = false) w.

(** ** The parameter parsers and the base type list *)

(** The dictionary of a parameter; a key that is not set is [None]. *)
Record Param : Type := {
  param_type : option text;
  param_name : option text;
  param_varargs : option bool;
  param_annotations : option (list text);
  param_raw : option text;
}.

(** [{}] *)
Definition no_param : Param :=
  {| param_type := None; param_name := None; param_varargs := None;
     param_annotations := None; param_raw := None |}.

(** [s.startswith(pre)] and [t in s] for strings. *)
Fixpoint starts_with (pre s : text) : bool :=
  match pre, s with
  | [], _ => true
  | c :: pre', d :: s' => (c =? d)%char && starts_with pre' s'
  | _ :: _, [] => false
  end.

Fixpoint occurs_in (t s : text) : bool :=
  starts_with t s
  || match s with
     | [] => false
     | _ :: r => occurs_in t r
     end.

(** [s.endswith(suf)] *)
Definition ends_with (suf s : text) : bool :=
  starts_with (reverse suf) (reverse s).

Module CSharp.

(** [parse_param]; [sub_attr] is the substitution of a space for the
    attribute groups, [re.sub(r"\[[^\]]*\]", " ", p)]. *)
Definition parse_param (sub_attr : text → text) (p : text) : Param :=
  let p := strip p in
  if decide (p = []) then no_param
  else
    let p_wo_attr := sub_attr p in
    let tokens := words_from [] (strip p_wo_attr) in
    match last tokens with
    | None =>
        {| param_type := None; param_name := None; param_varargs := None;
           param_annotations := None; param_raw := Some p |}
    | Some name =>
        let type_tokens := removelast tokens in
        if decide (type_tokens = []) then
          {| param_type := None; param_name := Some name;
             param_varargs := None; param_annotations := None;
             param_raw := Some p |}
        else
          {| param_type := Some (join_space type_tokens);
             param_name := Some name; param_varargs := None;
             param_annotations := None; param_raw := Some p |}
    end.

(** [norm_list] of [parse_csharp_file], applied to the [bases] group. *)
Definition norm_list (x : option text) : list text :=
  match x with
  | None => []
  | Some x =>
      if decide (x = []) then []
      else normalize_ws <$> filter (λ s, strip s ≠ []) (split_on "," x)
  end.

End CSharp.

Module Java.

(** [parse_param]; [findall_anno] and [sub_anno] are [re.findall] and the
    substitution of a space, for the pattern of an annotation. *)
Definition parse_param (findall_anno : text → list text)
    (sub_anno : text → text) (p : text) : Param :=
  let p := strip p in
  if decide (p = []) then no_param
  else
    let annos := findall_anno p in
    let p_wo_anno := sub_anno p in
    let tokens := words_from [] (strip p_wo_anno) in
    (* [t not in ("final")]: the parentheses make no tuple, the test is
       that of a substring of the string *)
    let tokens := filter (λ t, occurs_in t (chars "final") = false) tokens in
    match last tokens with
    | None =>
        {| param_type := None; param_name := None; param_varargs := None;
           param_annotations := None; param_raw := Some p |}
    | Some name =>
        let type_tokens := removelast tokens in
        if decide (type_tokens = []) then
          {| param_type := None; param_name := Some name;
             param_varargs := None; param_annotations := None;
             param_raw := Some p |}
        else
          let t := join_space type_tokens in
          let varargs := ends_with (chars "...") t in
          let t := if varargs
                   then strip (take (length t - 3) t) ++ chars "[]"
                   else t in
          {| param_type := Some t; param_name := Some name;
             param_varargs := Some varargs;
             param_annotations := Some annos; param_raw := Some p |}
    end.

End Java.
(** * Theorems *)
(** ** Properties of the sanitizer *)

Lemma is_char_Some c ch2 : is_char c ch2 = true → ch2 = Some c.
Proof.
  destruct ch2 as [c'|]; simpl; [|done].
  intros H. apply Ascii.eqb_eq in H. by subst.
Qed.

Ltac step_cases :=
  repeat match goal with
  | H : context [if ?b then _ else _] |- _ =>
      let E := fresh "E" in destruct b eqn:E
  | H : (_, _, _) = (_, _, _) |- _ => inversion H; clear H; subst
  | H : _ && _ = true |- _ => apply andb_prop in H; destruct H
  | H : is_char _ _ = true |- _ => apply is_char_Some in H; subst
  end.

Lemma csharp_step_ok : step_ok csharp_step.
Proof.
  intros st ch ch2 more st' out k H.
  destruct st; simpl in H; step_cases; eauto 6.
Qed.

Lemma java_step_ok : step_ok java_step.
Proof.
  intros st ch ch2 more st' out k H.
  destruct st; simpl in H; step_cases; eauto 6.
Qed.

Lemma getitem_Some code i ch : code !! i = Some ch → getitem code i = Return ch.
Proof. unfold getitem. by intros ->. Qed.

(** Induction on a text that is consumed one or two characters at a time. *)
Lemma text_ind2 (P : text → Prop) :
  P [] → (∀ a l, P l → P (tail l) → P (a :: l)) → ∀ l, P l.
Proof.
  intros H0 Hs l.
  assert (P l ∧ P (tail l)) as [? _]; [|done].
  induction l as [|a l [IH1 IH2]]; simpl; auto.
Qed.

Section Scan.
Variable step : lex_state → ascii → option ascii → bool →
                lex_state * text * nat.
Hypothesis Hstep : step_ok step.

Lemma scan_cons st ch rest :
  ∃ st' out,
    (scan step st (ch :: rest) = out ++ scan step st' rest ∧
     (out = [ch] ∨ out = [sp] ∨ out = [blank ch])) ∨
    (∃ c rest', rest = c :: rest' ∧
     scan step st (ch :: rest) = [sp; sp] ++ scan step st' rest').
Proof.
  simpl.
  destruct (step st ch (head rest) _) as [[st' out] k] eqn:E.
  exists st', out.
  destruct (Hstep _ _ _ _ _ _ _ E) as [[-> Ho]|(-> & -> & Hm)].
  - left. by destruct rest.
  - right. destruct rest as [|c rest'].
    + destruct Hm as [[? Hm]|Hm]; discriminate.
    + eauto.
Qed.

(** The loop over indices appends exactly what the scan of [code[i:]]
    produces: it returns, with [len(code) - i] iterations at most, and no
    index is out of range. *)
Lemma while_loop_scan code fuel i st result :
  i ≤ length code → length code - i ≤ fuel →
  while_loop step fuel code (length code) i st result
  = Return (result ++ scan step st (drop i code)).
Proof.
  revert i st result.
  induction fuel as [|fuel IH]; intros i st result Hi Hf.
  - assert (i = length code) as -> by lia.
    simpl. rewrite Nat.ltb_irrefl. simpl.
    by rewrite drop_all, app_nil_r.
  - simpl. destruct (i <? length code) eqn:Elt; simpl.
    2:{ apply Nat.ltb_ge in Elt. assert (i = length code) as -> by lia.
        by rewrite drop_all, app_nil_r. }
    apply Nat.ltb_lt in Elt.
    destruct (lookup_lt_is_Some_2 code i Elt) as [ch Hch].
    rewrite (getitem_Some _ _ _ Hch). simpl.
    rewrite (drop_S _ _ _ Hch).
    destruct (i + 1 <? length code) eqn:Elt2.
    + apply Nat.ltb_lt in Elt2.
      destruct (lookup_lt_is_Some_2 code (i + 1) Elt2) as [c2 Hc2].
      rewrite (getitem_Some _ _ _ Hc2). simpl.
      replace (S i) with (i + 1) by lia.
      rewrite (drop_S _ _ _ Hc2). simpl.
      destruct (step st ch (Some c2) true) as [[st' out] k] eqn:E.
      destruct (Hstep _ _ _ _ _ _ _ E) as [[-> Ho]|(-> & -> & Hm)].
      * rewrite IH by lia. rewrite (drop_S _ _ _ Hc2).
        by rewrite <- app_assoc.
      * rewrite IH by lia.
        replace (S (i + 1)) with (i + 2) by lia.
        by rewrite <- app_assoc.
    + apply Nat.ltb_ge in Elt2. simpl.
      rewrite (drop_ge code (S i)) by lia. simpl.
      destruct (step st ch None false) as [[st' out] k] eqn:E.
      destruct (Hstep _ _ _ _ _ _ _ E) as [[-> Ho]|(-> & -> & Hm)].
      * rewrite IH by lia. rewrite (drop_ge code (i + 1)) by lia.
        by rewrite <- app_assoc.
      * destruct Hm as [[? Hm]|Hm]; discriminate.
Qed.

Lemma scan_length code : ∀ st, length (scan step st code) = length code.
Proof.
  induction code as [|ch rest IH1 IH2] using text_ind2; intros st; [done|].
  destruct (scan_cons st ch rest)
    as (st' & out & [[-> Ho]|(c & rest' & -> & ->)]).
  - rewrite length_app, IH1. by destruct Ho as [->| [->| ->]].
  - simpl in *. by rewrite IH2.
Qed.

(** A newline of the output stands where the input has one. *)
Lemma scan_newline_sound code : ∀ st p,
  scan step st code !! p = Some nl → code !! p = Some nl.
Proof.
  induction code as [|ch rest IH1 IH2] using text_ind2; intros st p; [done|].
  destruct (scan_cons st ch rest)
    as (st' & out & [[-> Ho]|(c & rest' & -> & ->)]).
  - destruct p as [|p].
    + destruct Ho as [->| [->| ->]]; simpl; try done.
      unfold blank. destruct (ch =? nl)%char eqn:E; [|done].
      apply Ascii.eqb_eq in E. by subst.
    + destruct Ho as [->| [->| ->]]; simpl; apply IH1.
  - destruct p as [|[|p]]; simpl; try done. apply (IH2 st').
Qed.

(** Unfolding one iteration of the scan. *)
Lemma scan_eq st ch rest st' out k :
  step st ch (head rest) (match rest with [] => false | _ => true end)
  = (st', out, k) →
  scan step st (ch :: rest) = out ++ scan step st' (drop (k - 1) rest) ∧
  length out = k ∧ 1 ≤ k ∧ k - 1 ≤ length rest.
Proof.
  intros E. simpl. rewrite E.
  destruct (Hstep _ _ _ _ _ _ _ E) as [[-> Ho]|(-> & -> & Hm)].
  - split; [by destruct rest|].
    destruct Ho as [->| [->| ->]]; simpl; lia.
  - destruct rest as [|c rest'].
    + destruct Hm as [[? Hm]|Hm]; discriminate.
    + simpl. split; [done|lia].
Qed.

(** When the loop is at index [i] in state [st], what it appends from
    there on is the scan of [code[i:]] from [st]. *)
Lemma reaches_drop code i st :
  reaches step code i st →
  i ≤ length code ∧
  drop i (scan step Normal code) = scan step st (drop i code).
Proof.
  induction 1 as [|i st ch st' out k _ [IHle IH] Hch E]; [split; [lia|done]|].
  assert (Hrest : head (drop (S i) code) = code !! (i + 1)).
  { rewrite head_lookup, lookup_drop. f_equal. lia. }
  assert (Hmore : match drop (S i) code with [] => false | _ => true end
                  = (i + 1 <? length code)).
  { pose proof (length_drop code (S i)) as Hl.
    destruct (drop (S i) code); simpl in Hl; symmetry.
    - apply Nat.ltb_ge. lia.
    - apply Nat.ltb_lt. lia. }
  rewrite <- Hrest, <- Hmore in E.
  destruct (scan_eq _ _ _ _ _ _ E) as (Hs & Hlen & Hk1 & Hk2).
  rewrite length_drop in Hk2.
  apply lookup_lt_Some in Hch as Hlt.
  split; [lia|].
  rewrite <- (drop_drop (scan step Normal code) k i).
  rewrite IH, (drop_S _ _ _ Hch), Hs.
  rewrite drop_app_length' by done.
  rewrite drop_drop. f_equal. f_equal. lia.
Qed.
End Scan.

(** What an unterminated construct leaves: the three states whose loop
    bodies the two sanitizers share. *)
Section Unterminated.
Variable step : lex_state → ascii → option ascii → bool →
                lex_state * text * nat.

Lemma scan_block_comment_open rest :
  (∀ ch ch2 more, step InMlComment ch ch2 more =
     if (ch =? "*")%char && is_char "/" ch2 then (Normal, [sp; sp], 2)
     else (InMlComment, [blank ch], 1)) →
  occurs2 "*" "/" rest = false →
  scan step InMlComment rest = blank <$> rest.
Proof.
  intros Hml. induction rest as [|ch rest IH]; [done|].
  simpl. intros [E1 E2]%orb_false_elim.
  rewrite Hml, E1. simpl. by rewrite IH.
Qed.

Lemma scan_literal_open stq q rest :
  (∀ ch ch2 more, step stq ch ch2 more =
     if (ch =? backslash)%char && more then (stq, [sp; sp], 2)
     else if (ch =? q)%char then (Normal, [sp], 1)
     else (stq, [sp], 1)) →
  unescaped_quote q rest = false →
  scan step stq rest = (λ _, sp) <$> rest.
Proof.
  intros Hq.
  induction rest as [|ch rest IH1 IH2] using text_ind2; [done|].
  simpl. rewrite Hq.
  destruct (ch =? backslash)%char eqn:Eb; simpl.
  - destruct rest as [|c rest']; simpl in *.
    + intros _. by destruct (ch =? q)%char.
    + intros H. by rewrite (IH2 H).
  - destruct (ch =? q)%char; [done|].
    intros H. simpl. by rewrite (IH1 H).
Qed.
End Unterminated.

Lemma scan_csharp_line_comment_open rest :
  nl ∉ rest → scan csharp_step InSlComment rest = (λ _, sp) <$> rest.
Proof.
  induction rest as [|ch rest IH]; [done|].
  intros [Hne Hr]%not_elem_of_cons. simpl.
  unfold blank. destruct (Ascii.eqb_spec ch nl) as [->|_]; [done|].
  simpl. by rewrite IH.
Qed.

Lemma scan_java_line_comment_open rest :
  nl ∉ rest → scan java_step InSlComment rest = (λ _, sp) <$> rest.
Proof.
  induction rest as [|ch rest IH]; [done|].
  intros [Hne Hr]%not_elem_of_cons. simpl.
  destruct (Ascii.eqb_spec ch nl) as [->|_]; [done|].
  simpl. by rewrite IH.
Qed.

Lemma scan_csharp_verbatim_open rest :
  single_quote_mark rest = false →
  scan csharp_step InVerbatimStr rest = blank <$> rest.
Proof.
  induction rest as [|ch rest IH1 IH2] using text_ind2; [done|].
  simpl. destruct (ch =? dq)%char eqn:Eq; simpl.
  - destruct rest as [|c rest']; simpl in *; [done|].
    destruct (c =? dq)%char eqn:Ec; simpl; [|done].
    intros H. rewrite (IH2 H). unfold blank.
    apply Ascii.eqb_eq in Eq, Ec. by subst.
  - intros H. by rewrite (IH1 H).
Qed.

(** Both sanitizers return what the scan from the normal state produces. *)
Lemma strip_csharp_scan code :
  strip_csharp_comments_and_strings code
  = Return (scan csharp_step Normal code).
Proof.
  unfold strip_csharp_comments_and_strings.
  rewrite (while_loop_scan _ csharp_step_ok) by lia. done.
Qed.

Lemma strip_java_scan code :
  strip_java_comments_and_strings code = Return (scan java_step Normal code).
Proof.
  unfold strip_java_comments_and_strings.
  rewrite (while_loop_scan _ java_step_ok) by lia. done.
Qed.

(** *** Newlines outside literals *)

Lemma blank_newline ch : [ch] !! 0 = Some nl → [blank ch] !! 0 = Some nl.
Proof. simpl. intros [= ->]. done. Qed.

Ltac keeps_cases :=
  repeat match goal with
  | H : context [if ?b then _ else _] |- _ =>
      let E := fresh "E" in destruct b eqn:E
  | H : (_, _, _) = (_, _, _) |- _ => inversion H; clear H; subst
  | H : _ && _ = true |- _ => apply andb_prop in H; destruct H
  | H : is_char _ _ = true |- _ => apply is_char_Some in H; subst
  | H : (_ =? _)%char = true |- _ => apply Ascii.eqb_eq in H; subst
  end.

Lemma csharp_keeps_newlines : keeps_newlines csharp_step.
Proof.
  intros st ch ch2 more st' out k H [->|[->| ->]] Hdq Hsq Hdq2;
    simpl in H; keeps_cases; unfold outside_literal;
    try (split; [by auto|]; by auto);
    try (split; [by auto|]; right; by repeat split).
Qed.

Lemma java_keeps_newlines : keeps_newlines java_step.
Proof.
  intros st ch ch2 more st' out k H [->|[->| ->]] Hdq Hsq Hdq2;
    simpl in H; keeps_cases; unfold outside_literal;
    try (split; [by auto|]; by auto);
    try (split; [by auto|]; right; by repeat split).
  split; [by auto|]. left. split; [done|]. right.
  unfold blank. by rewrite E.
Qed.

Section KeepsNewlines.
Variable step : lex_state → ascii → option ascii → bool →
                lex_state * text * nat.
Hypothesis Hstep : step_ok step.
Hypothesis Hkeeps : keeps_newlines step.

Lemma scan_newline_kept code : ∀ st p,
  outside_literal st → dq ∉ code → sq ∉ code →
  code !! p = Some nl → scan step st code !! p = Some nl.
Proof.
  induction code as [|ch rest IH1 IH2] using text_ind2;
    intros st p Hst Hdq Hsq Hp; [done|].
  apply not_elem_of_cons in Hdq as [Hd1 Hd2].
  apply not_elem_of_cons in Hsq as [Hs1 Hs2].
  destruct (step st ch (head rest)
              (match rest with [] => false | _ => true end))
    as [[st' out] k] eqn:E.
  destruct (scan_eq _ Hstep _ _ _ _ _ _ E) as (-> & Hlen & _ & Hk).
  assert (Hh : head rest ≠ Some dq).
  { destruct rest as [|c rest']; [done|]. simpl. intros [= ->].
    apply Hd2, list_elem_of_here. }
  destruct (Hkeeps _ _ _ _ _ _ _ E Hst (not_eq_sym Hd1) (not_eq_sym Hs1) Hh)
    as [Hst' [[-> Hout]|(-> & Hn1 & Hn2)]].
  - destruct p as [|p].
    + simpl in Hp. injection Hp as ->.
      by destruct Hout as [->| ->].
    + simpl in Hp. destruct Hout as [->| ->]; simpl; by apply IH1.
  - destruct rest as [|c rest']; [simpl in Hk; lia|].
    destruct (Hstep _ _ _ _ _ _ _ E) as [[[=] _]|(_ & -> & _)].
    apply not_elem_of_cons in Hd2 as [_ Hd2].
    apply not_elem_of_cons in Hs2 as [_ Hs2].
    destruct p as [|[|p]]; simpl in *.
    + by injection Hp as ->.
    + by injection Hp as ->.
    + by apply IH2.
Qed.
End KeepsNewlines.

(** A text without quote characters keeps every newline: what C1 states
    holds as long as no string or character literal is open. *)
Lemma sanitizer_keeps_newlines_outside_literals code p :
  dq ∉ code → sq ∉ code → code !! p = Some nl →
  (∃ out, strip_csharp_comments_and_strings code = Return out ∧
          out !! p = Some nl) ∧
  (∃ out, strip_java_comments_and_strings code = Return out ∧
          out !! p = Some nl).
Proof.
  intros Hdq Hsq Hp. rewrite strip_csharp_scan, strip_java_scan.
  split; eexists; (split; [done|]).
  - apply (scan_newline_kept _ csharp_step_ok csharp_keeps_newlines);
      unfold outside_literal; auto.
  - apply (scan_newline_kept _ java_step_ok java_keeps_newlines);
      unfold outside_literal; auto.
Qed.

(** *** The sanitizer on every input *)

(** The output is as long as the input. *)
Lemma sanitizer_length code :
  (∃ out, strip_csharp_comments_and_strings code = Return out ∧
          length out = length code) ∧
  (∃ out, strip_java_comments_and_strings code = Return out ∧
          length out = length code).
Proof.
  rewrite strip_csharp_scan, strip_java_scan. split; eexists; split; eauto.
  - apply (scan_length _ csharp_step_ok).
  - apply (scan_length _ java_step_ok).
Qed.

(** No newline is introduced: a newline of the output is a newline of the
    input at the same offset. *)
Lemma sanitizer_newline_sound code out p :
  strip_csharp_comments_and_strings code = Return out ∨
  strip_java_comments_and_strings code = Return out →
  out !! p = Some nl → code !! p = Some nl.
Proof.
  rewrite strip_csharp_scan, strip_java_scan.
  intros [[= <-]|[= <-]].
  - apply (scan_newline_sound _ csharp_step_ok).
  - apply (scan_newline_sound _ java_step_ok).
Qed.

(** C1, where the code departs from it: a line break inside a string
    literal (or a character literal) is not kept.  On the three characters
    quote, newline, quote both sanitizers return three spaces, so the
    newline at offset 1 of the input is a space in the output; the same
    happens to the line breaks of a Java text block and of a C# string
    opened by [@$]. *)
Theorem sanitizer_blanks_newline_in_literal :
  (let code := [dq; nl; dq] in
   code !! 1 = Some nl ∧
   strip_csharp_comments_and_strings code = Return [sp; sp; sp] ∧
   strip_java_comments_and_strings code = Return [sp; sp; sp]) ∧
  (let code := [dq; dq; dq; nl] ++ chars "a" ++ [nl; dq; dq; dq] in
   code !! 3 = Some nl ∧
   strip_java_comments_and_strings code = Return (chars "         ")) ∧
  (let code := chars "@$" ++ [dq] ++ chars "a" ++ [nl] ++ chars "b" ++ [dq] in
   code !! 4 = Some nl ∧
   strip_csharp_comments_and_strings code = Return (chars "@$     ")).
Proof. by vm_compute. Qed.

(** C8: on every input both sanitizers return (the loop ends within
    [len(code)] iterations and no index is out of range), and a comment,
    string or character literal that is still open at the end of the input
    leaves everything from the point where the loop is inside it blanked:
    spaces, with the newlines kept inside comments and verbatim strings. *)
Theorem sanitizer_total_blanks_unterminated :
  (∀ code, ∃ out, strip_csharp_comments_and_strings code = Return out) ∧
  (∀ code, ∃ out, strip_java_comments_and_strings code = Return out) ∧
  (∀ code i out,
     strip_csharp_comments_and_strings code = Return out →
     (reaches csharp_step code i InSlComment → nl ∉ drop i code →
      drop i out = (λ _, sp) <$> drop i code) ∧
     (reaches csharp_step code i InMlComment →
      occurs2 "*" "/" (drop i code) = false →
      drop i out = blank <$> drop i code) ∧
     (reaches csharp_step code i InVerbatimStr →
      single_quote_mark (drop i code) = false →
      drop i out = blank <$> drop i code) ∧
     (reaches csharp_step code i InStr →
      unescaped_quote dq (drop i code) = false →
      drop i out = (λ _, sp) <$> drop i code) ∧
     (reaches csharp_step code i InChar →
      unescaped_quote sq (drop i code) = false →
      drop i out = (λ _, sp) <$> drop i code)) ∧
  (∀ code i out,
     strip_java_comments_and_strings code = Return out →
     (reaches java_step code i InSlComment → nl ∉ drop i code →
      drop i out = (λ _, sp) <$> drop i code) ∧
     (reaches java_step code i InMlComment →
      occurs2 "*" "/" (drop i code) = false →
      drop i out = blank <$> drop i code) ∧
     (reaches java_step code i InStr →
      unescaped_quote dq (drop i code) = false →
      drop i out = (λ _, sp) <$> drop i code) ∧
     (reaches java_step code i InChar →
      unescaped_quote sq (drop i code) = false →
      drop i out = (λ _, sp) <$> drop i code)).
Proof.
  split; [intros; rewrite strip_csharp_scan; eauto|].
  split; [intros; rewrite strip_java_scan; eauto|].
  split; intros code i out.
  - rewrite strip_csharp_scan. intros [= <-].
    repeat split; intros [_ ->]%(reaches_drop _ csharp_step_ok) Hopen.
    + by apply scan_csharp_line_comment_open.
    + by apply scan_block_comment_open.
    + by apply scan_csharp_verbatim_open.
    + by apply (scan_literal_open _ InStr dq).
    + by apply (scan_literal_open _ InChar sq).
  - rewrite strip_java_scan. intros [= <-].
    repeat split; intros [_ ->]%(reaches_drop _ java_step_ok) Hopen.
    + by apply scan_java_line_comment_open.
    + by apply scan_block_comment_open.
    + by apply (scan_literal_open _ InStr dq).
    + by apply (scan_literal_open _ InChar sq).
Qed.

Ltac one_step st ch st' out k :=
  apply (reaches_step _ _ 0 st ch st' out k); [constructor|done|done].

Lemma sanitizer_total_blanks_unterminated_witness :
  (let code := chars "x/*a" ++ nl :: chars "b" in
   let out := chars "x   " ++ nl :: chars " " in
   reaches csharp_step code 3 InMlComment ∧
   occurs2 "*" "/" (drop 3 code) = false ∧
   strip_csharp_comments_and_strings code = Return out ∧
   drop 3 out = (blank <$> drop 3 code)) ∧
  (let code := chars "//a" in
   reaches csharp_step code 2 InSlComment ∧ (nl ∉ drop 2 code) ∧
   strip_csharp_comments_and_strings code = Return (chars "   ") ∧
   drop 2 (chars "   ") = ((λ _, sp) <$> drop 2 code)) ∧
  (let code := "@"%char :: dq :: "a"%char :: dq :: dq :: [nl] in
   let out := chars "     " ++ [nl] in
   reaches csharp_step code 2 InVerbatimStr ∧
   single_quote_mark (drop 2 code) = false ∧
   strip_csharp_comments_and_strings code = Return out ∧
   drop 2 out = (blank <$> drop 2 code)) ∧
  (let code := [dq; backslash; dq; nl] in
   reaches java_step code 1 InStr ∧
   unescaped_quote dq (drop 1 code) = false ∧
   strip_java_comments_and_strings code = Return (chars "    ") ∧
   drop 1 (chars "    ") = ((λ _, sp) <$> drop 1 code)) ∧
  (let code := chars "'a" in
   reaches java_step code 1 InChar ∧
   unescaped_quote sq (drop 1 code) = false ∧
   strip_java_comments_and_strings code = Return (chars "  ") ∧
   drop 1 (chars "  ") = ((λ _, sp) <$> drop 1 code)).
Proof.
  destruct sanitizer_total_blanks_unterminated as (_ & _ & Hcs & Hj).
  split; [|split; [|split; [|split]]]; intros code.
  - intros out.
    assert (R : reaches csharp_step code 3 InMlComment).
    { apply (reaches_step _ _ 1 Normal "/"%char InMlComment [sp; sp] 2);
        [one_step Normal "x"%char Normal ["x"%char] 1|done|done]. }
    split; [exact R|]. split; [reflexivity|]. split; [reflexivity|].
    exact (proj1 (proj2 (Hcs code 3 out eq_refl)) R eq_refl).
  - assert (R : reaches csharp_step code 2 InSlComment)
      by one_step Normal "/"%char InSlComment [sp; sp] 2.
    assert (N : nl ∉ drop 2 code).
    { intros Hin. apply list_elem_of_In in Hin. destruct Hin as [[=]|[]]. }
    split; [exact R|]. split; [exact N|]. split; [reflexivity|].
    exact (proj1 (Hcs code 2 _ eq_refl) R N).
  - intros out.
    assert (R : reaches csharp_step code 2 InVerbatimStr)
      by one_step Normal "@"%char InVerbatimStr [sp; sp] 2.
    split; [exact R|]. split; [reflexivity|]. split; [reflexivity|].
    exact (proj1 (proj2 (proj2 (Hcs code 2 out eq_refl))) R eq_refl).
  - assert (R : reaches java_step code 1 InStr)
      by one_step Normal dq InStr [sp] 1.
    split; [exact R|]. split; [reflexivity|]. split; [reflexivity|].
    exact (proj1 (proj2 (proj2 (Hj code 1 _ eq_refl))) R eq_refl).
  - assert (R : reaches java_step code 1 InChar)
      by one_step Normal sq InChar [sp] 1.
    split; [exact R|]. split; [reflexivity|]. split; [reflexivity|].
    exact (proj2 (proj2 (proj2 (Hj code 1 _ eq_refl))) R eq_refl).
Defined.

(** ** Properties of the parameter splitter *)

Lemma segments_nonempty s : ∀ d, segments d s ≠ [].
Proof.
  induction s as [|ch r IH]; intros d; simpl; [done|].
  destruct (top_level_comma d ch); [done|].
  by destruct (segments (next_depth d ch) r).
Qed.

Lemma fold_split_char s : ∀ st,
  flush (fold_left split_char s st)
  = params st ++ filter (λ p, p ≠ [])
                   (strip <$> continue_with (current st) (segments (depth st) s)).
Proof.
  induction s as [|ch r IH]; intros [ps d cur]; simpl.
  - unfold flush. simpl. rewrite app_nil_r.
    destruct (decide (strip cur = [])) as [E|E].
    + rewrite filter_cons_False by (by intros ?). by rewrite app_nil_r.
    + by rewrite filter_cons_True.
  - rewrite IH. unfold split_char, top_level_comma, next_depth. simpl.
    destruct (ch =? "<")%char eqn:E1; simpl.
    { apply Ascii.eqb_eq in E1 as ->. simpl.
      pose proof (segments_nonempty r (d + 1)%Z).
      destruct (segments (d + 1) r); [done|]. simpl. by rewrite <- app_assoc. }
    destruct (ch =? ">")%char eqn:E2; simpl.
    { apply Ascii.eqb_eq in E2 as ->. simpl.
      pose proof (segments_nonempty r (Z.max 0 (d - 1))).
      destruct (segments _ r); [done|]. simpl. by rewrite <- app_assoc. }
    destruct ((ch =? ",")%char && (d =? 0)%Z) eqn:E3; simpl.
    { rewrite app_nil_r.
      pose proof (segments_nonempty r d).
      destruct (segments d r) as [|seg segs] eqn:Es; [done|]. simpl.
      destruct (decide (strip cur = [])) as [E|E].
      - by rewrite (filter_cons_False _ (strip cur)) by (by intros ?).
      - rewrite (filter_cons_True _ (strip cur)) by done.
        by rewrite <- app_assoc. }
    pose proof (segments_nonempty r d).
    destruct (segments d r); [done|]. simpl. by rewrite <- app_assoc.
Qed.

Lemma split_params_spec s : split_params s = spec_split_params s.
Proof.
  destruct s as [|ch r]; [done|].
  unfold split_params, spec_split_params.
  pose proof (fold_split_char (ch :: r)
                {| params := []; depth := 0; current := [] |}) as H.
  unfold flush in H. rewrite H. simpl.
  pose proof (segments_nonempty (ch :: r) 0%Z) as Hne. simpl in Hne.
  by destruct (if top_level_comma 0 ch then _ else _).
Qed.

(** Joining the segments with commas gives the text back: the text is cut
    at separators and nowhere else. *)
Lemma join_segments s : ∀ d, join_comma (segments d s) = s.
Proof.
  induction s as [|ch r IH]; intros d; simpl; [done|].
  unfold top_level_comma.
  destruct ((ch =? ",")%char && (d =? 0)%Z) eqn:E.
  - apply andb_prop in E as [->%Ascii.eqb_eq _].
    specialize (IH d). pose proof (segments_nonempty r d).
    destruct (segments d r); [done|]. simpl in *. by rewrite IH.
  - specialize (IH (next_depth d ch)).
    pose proof (segments_nonempty r (next_depth d ch)).
    destruct (segments _ r); [done|]. simpl in *. by rewrite IH.
Qed.

(** There is one segment more than there are separators. *)
Lemma segments_count s : ∀ d,
  length (segments d s) = S (count_separators d s).
Proof.
  induction s as [|ch r IH]; intros d; simpl; [done|].
  destruct (top_level_comma d ch); simpl; [by rewrite IH|].
  specialize (IH (next_depth d ch)).
  by destruct (segments _ r).
Qed.

(** C7: [split_params] returns the segments of its argument between the
    commas read at depth zero (the depth grows at [<] and shrinks, not below
    zero, at [>]), each stripped and the empty ones dropped; the segments
    joined by commas are the argument, one more than there are such commas;
    ["Map<K, V> a, int b"] gives ["Map<K, V> a"] and ["int b"], and the
    empty string gives the empty list. *)
Theorem split_params_depth_aware :
  (∀ s, split_params s = filter (λ p, p ≠ []) (strip <$> segments 0 s)) ∧
  (∀ s, join_comma (segments 0 s) = s ∧
        length (segments 0 s) = S (count_separators 0 s)) ∧
  (∀ s p, p ∈ split_params s → p ≠ []) ∧
  split_params (chars "Map<K, V> a, int b")
    = [chars "Map<K, V> a"; chars "int b"] ∧
  split_params (chars "") = [].
Proof.
  split; [apply split_params_spec|].
  split; [intros s; split; [apply join_segments|apply segments_count]|].
  split; [|split; by vm_compute].
  intros s p. rewrite split_params_spec. unfold spec_split_params.
  rewrite list_elem_of_filter. by intros [? _].
Qed.

Lemma split_params_depth_aware_witness :
  chars "int b" ∈ split_params (chars "Map<K, V> a, int b") ∧
  chars "int b" ≠ [].
Proof.
  assert (Hin : chars "int b" ∈ split_params (chars "Map<K, V> a, int b")).
  { vm_compute. apply list_elem_of_further, list_elem_of_here. }
  split; [exact Hin|].
  exact (proj1 (proj2 (proj2 split_params_depth_aware)) _ _ Hin).
Defined.

(** ** Properties of the declaration extractor *)

(** [finditer] yields its matches from left to right, so the starts grow;
    sorting them changes nothing. *)
Lemma sort_boundaries_sorted (l : list (nat * string)) :
  StronglySorted lt (fst <$> l) → sort_boundaries l = l.
Proof.
  induction l as [|x l IH]; [done|].
  simpl. intros [Hx Hl]%StronglySorted_cons.
  unfold sort_boundaries in *. simpl. rewrite (IH Hl).
  destruct l as [|y r]; [done|]. simpl.
  apply Forall_cons in Hx as [Hxy _].
  unfold boundary_le.
  by rewrite (proj2 (Nat.ltb_lt _ _) Hxy).
Qed.

Lemma sorted_lookup_lt (l : list nat) i j a b :
  StronglySorted lt l → l !! i = Some a → l !! j = Some b → i < j → a < b.
Proof.
  intros Hs. revert i j.
  induction Hs as [|x l Hs IH Hx]; intros i j Hi Hj Hij; [done|].
  destruct j as [|j]; [lia|].
  destruct i as [|i]; simpl in *.
  - injection Hi as ->. rewrite Forall_forall in Hx.
    apply Hx. by eapply list_elem_of_lookup_2.
  - eapply IH; eauto. lia.
Qed.

Section Ownership.
Variable stripped : text.
Variable tms : list TypeMatch.
Hypothesis Hsorted : StronglySorted lt (tm_start <$> tms).

Lemma make_boundaries_sorted :
  make_boundaries stripped tms
  = ((λ m, (tm_start m, Some (tm_name m))) <$> tms)
    ++ [(length stripped + 1, None)].
Proof.
  unfold make_boundaries. rewrite sort_boundaries_sorted.
  - by rewrite <- list_fmap_compose.
  - by rewrite <- list_fmap_compose.
Qed.

Lemma in_interval_spec pos j :
  in_interval (make_boundaries stripped tms) pos j = true ↔
  ∃ tm, tms !! j = Some tm ∧
        tm_start tm ≤ pos < interval_end stripped tms j.
Proof.
  rewrite make_boundaries_sorted. unfold in_interval, interval_end.
  destruct (tms !! j) as [tm|] eqn:Ej.
  - apply lookup_lt_Some in Ej as Hlt.
    rewrite lookup_app_l by (rewrite length_fmap; lia).
    rewrite list_lookup_fmap, Ej. simpl.
    destruct (tms !! (j + 1)) as [tm'|] eqn:Ej'.
    + apply lookup_lt_Some in Ej' as Hlt'.
      rewrite lookup_app_l by (rewrite length_fmap; lia).
      rewrite list_lookup_fmap, Ej'. simpl.
      rewrite andb_true_iff, Nat.leb_le, Nat.ltb_lt.
      split; [eauto|]. by intros (? & [= <-] & ?).
    + apply lookup_ge_None in Ej'.
      rewrite lookup_app_r by (rewrite length_fmap; lia).
      rewrite length_fmap.
      replace (j + 1 - length tms) with 0 by lia. simpl.
      rewrite andb_true_iff, Nat.leb_le, Nat.ltb_lt.
      split; [eauto|]. by intros (? & [= <-] & ?).
  - apply lookup_ge_None in Ej.
    rewrite (lookup_ge_None_2 _ (j + 1))
      by (rewrite length_app, length_fmap; simpl; lia).
    split; [by destruct (_ !! j)|]. by intros (? & [=] & _).
Qed.

(** The intervals of two headers do not overlap. *)
Lemma in_interval_unique pos i j :
  in_interval (make_boundaries stripped tms) pos i = true →
  in_interval (make_boundaries stripped tms) pos j = true → i = j.
Proof.
  assert (Hlt : ∀ i j,
    in_interval (make_boundaries stripped tms) pos i = true →
    in_interval (make_boundaries stripped tms) pos j = true → ¬ i < j).
  { clear i j. intros i j (ti & Hi & Hilo & Hihi)%in_interval_spec
      (tj & Hj & Hjlo & Hjhi)%in_interval_spec Hij.
    unfold interval_end in Hihi.
    destruct (tms !! (i + 1)) as [ti'|] eqn:Ei'.
    - destruct (decide (i + 1 = j)) as [<-|Hne].
      + rewrite Ei' in Hj. injection Hj as <-. lia.
      + assert (tm_start ti' < tm_start tj); [|lia].
        eapply (sorted_lookup_lt _ (i + 1) j); eauto.
        * by rewrite list_lookup_fmap, Ei'.
        * by rewrite list_lookup_fmap, Hj.
        * lia.
    - apply lookup_ge_None in Ei'. apply lookup_lt_Some in Hj. lia. }
  intros Hi Hj.
  pose proof (Hlt _ _ Hi Hj). pose proof (Hlt _ _ Hj Hi). lia.
Qed.

(** [owning_type_index] returns the header whose interval holds [pos]. *)
Lemma owning_type_index_spec pos j :
  owning_type_index (make_boundaries stripped tms) pos = Some j ↔
  ∃ tm, tms !! j = Some tm ∧
        tm_start tm ≤ pos < interval_end stripped tms j.
Proof.
  rewrite <- in_interval_spec. unfold owning_type_index. split.
  - by intros [_ H]%find_some.
  - intros Hj.
    destruct (List.find _ _) as [i|] eqn:Ef.
    + apply find_some in Ef as [_ Hi].
      f_equal. by eapply in_interval_unique.
    + eapply find_none in Ef; [by rewrite Hj in Ef|].
      apply in_interval_spec in Hj as (tm & Htm%lookup_lt_Some & _).
      apply in_seq. rewrite make_boundaries_sorted.
      rewrite length_app, length_fmap. simpl. lia.
Qed.
End Ownership.

(** One method match appends its record to the type that owns its
    position and leaves every other type as it is. *)
Lemma add_method_lookup bs tys mm j t :
  tys !! j = Some t →
  ∃ t1, add_method bs tys mm !! j = Some t1 ∧
        type_name t1 = type_name t ∧
        constructors t1 = constructors t ∧
        methods t1 = methods t ++
          (if decide (owning_type_index bs (mm_start mm) = Some j)
           then [member_info mm] else []).
Proof.
  intros Ht. unfold add_method.
  destruct (owning_type_index bs (mm_start mm)) as [idx|].
  2:{ exists t. rewrite decide_False by done. by rewrite app_nil_r. }
  destruct (length tys <=? idx) eqn:El.
  { apply Nat.leb_le in El. apply lookup_lt_Some in Ht as Hlt.
    exists t. rewrite decide_False by (intros [= ->]; lia).
    by rewrite app_nil_r. }
  destruct (decide (idx = j)) as [->|Hne].
  - rewrite list_lookup_alter_eq, Ht. simpl.
    eexists; split; [done|]. by rewrite decide_True.
  - rewrite list_lookup_alter_ne, Ht by done.
    exists t. rewrite decide_False by congruence. by rewrite app_nil_r.
Qed.

Lemma fold_add_method bs mms : ∀ tys j t,
  tys !! j = Some t →
  ∃ t', fold_left (add_method bs) mms tys !! j = Some t' ∧
        type_name t' = type_name t ∧
        constructors t' = constructors t ∧
        methods t' = methods t ++
          (member_info <$>
             filter (λ mm, owning_type_index bs (mm_start mm) = Some j) mms).
Proof.
  induction mms as [|mm mms IH]; intros tys j t Ht; simpl.
  - exists t. by rewrite app_nil_r.
  - destruct (add_method_lookup bs tys mm j t Ht) as (t1 & H1 & Hn & Hc & Hm).
    destruct (IH _ _ _ H1) as (t' & H' & Hn' & Hc' & Hm').
    exists t'. split; [done|]. split; [congruence|]. split; [congruence|].
    rewrite Hm', Hm, <- app_assoc. f_equal.
    rewrite filter_cons. by case_decide.
Qed.

(** One constructor-shaped match appends its record to the type that owns
    its position when it bears that type's name, and changes nothing
    otherwise. *)
Lemma add_constructor_lookup bs tys mc j t :
  tys !! j = Some t →
  ∃ t1, add_constructor bs tys mc !! j = Some t1 ∧
        type_name t1 = type_name t ∧
        methods t1 = methods t ∧
        constructors t1 = constructors t ++
          (if decide (owning_type_index bs (mm_start mc) = Some j ∧
                      mm_name mc = type_name t)
           then [member_info mc] else []).
Proof.
  intros Ht. unfold add_constructor.
  destruct (owning_type_index bs (mm_start mc)) as [idx|].
  2:{ exists t. rewrite decide_False by (by intros [? _]).
      by rewrite app_nil_r. }
  destruct (length tys <=? idx) eqn:El.
  { apply Nat.leb_le in El. apply lookup_lt_Some in Ht as Hlt.
    exists t. rewrite decide_False by (intros [[= ->] _]; lia).
    by rewrite app_nil_r. }
  destruct (decide (idx = j)) as [->|Hne].
  - rewrite Ht. destruct (decide (mm_name mc ≠ type_name t)) as [Hd|Hd].
    + exists t. rewrite decide_False by (by intros [_ ?]).
      by rewrite app_nil_r.
    + apply dec_stable in Hd.
      rewrite list_lookup_alter_eq, Ht. simpl.
      eexists; split; [done|]. by rewrite decide_True.
  - assert (Hsame : ∀ tys', tys' = tys ∨
                      tys' = alter (append_constructor (member_info mc)) idx tys →
                    tys' !! j = Some t).
    { intros tys' [->| ->]; [done|]. by rewrite list_lookup_alter_ne. }
    exists t. rewrite decide_False by (intros [[= ->] _]; done).
    rewrite app_nil_r. split; [|done].
    destruct (tys !! idx); [|auto]. case_decide; auto.
Qed.

Lemma fold_add_constructor bs mcs : ∀ tys j t,
  tys !! j = Some t →
  ∃ t', fold_left (add_constructor bs) mcs tys !! j = Some t' ∧
        type_name t' = type_name t ∧
        methods t' = methods t ∧
        constructors t' = constructors t ++
          (member_info <$>
             filter (λ mc, owning_type_index bs (mm_start mc) = Some j ∧
                           mm_name mc = type_name t) mcs).
Proof.
  induction mcs as [|mc mcs IH]; intros tys j t Ht; simpl.
  - exists t. by rewrite app_nil_r.
  - destruct (add_constructor_lookup bs tys mc j t Ht)
      as (t1 & H1 & Hn & Hm & Hc).
    destruct (IH _ _ _ H1) as (t' & H' & Hn' & Hm' & Hc').
    exists t'. split; [done|]. split; [congruence|]. split; [congruence|].
    rewrite Hc', Hc, <- app_assoc, Hn. f_equal.
    rewrite filter_cons. by case_decide.
Qed.

Lemma length_add_method bs tys mm :
  length (add_method bs tys mm) = length tys.
Proof.
  unfold add_method. repeat case_match; by rewrite ?length_alter.
Qed.

Lemma length_add_constructor bs tys mc :
  length (add_constructor bs tys mc) = length tys.
Proof.
  unfold add_constructor. repeat case_match; by rewrite ?length_alter.
Qed.

Lemma length_fold_left {A B} (f : list A → B → list A) (l : list B) :
  (∀ a b, length (f a b) = length a) →
  ∀ a, length (fold_left f l a) = length a.
Proof.
  intros Hf. induction l as [|b l IH]; intros a; simpl; [done|].
  by rewrite IH.
Qed.

(** What [parse_stripped] returns, type by type: the [j]-th type is the
    [j]-th header, with the records of the method matches and of the
    constructor matches that [owning_type_index] gives to [j], the latter
    only when they bear the type's name. *)
Lemma parse_stripped_types re file_path stripped :
  let bs := make_boundaries stripped (TYPE_RE_finditer re stripped) in
  length (types (parse_stripped re file_path stripped))
    = length (TYPE_RE_finditer re stripped) ∧
  ∀ j tm, TYPE_RE_finditer re stripped !! j = Some tm →
    ∃ t, types (parse_stripped re file_path stripped) !! j = Some t ∧
         type_name t = tm_name tm ∧
         methods t = member_info <$>
           filter (λ mm, owning_type_index bs (mm_start mm) = Some j)
             (METHOD_RE_finditer re stripped) ∧
         constructors t = member_info <$>
           filter (λ mc, owning_type_index bs (mm_start mc) = Some j ∧
                         mm_name mc = tm_name tm)
             (CTOR_RE_finditer re stripped).
Proof.
  intros bs. unfold parse_stripped. simpl.
  destruct (TYPE_RE_finditer re stripped) as [|tm0 tms] eqn:Etms.
  { split; [done|]. intros j tm. by rewrite lookup_nil. }
  fold bs. rewrite fmap_cons. cbv iota. split.
  { rewrite !length_fold_left;
      auto using length_add_method, length_add_constructor.
    by rewrite !length_cons, length_fmap. }
  intros j tm Hj.
  assert (Hty : (type_info tm0 :: (type_info <$> tms)) !! j
                = Some (type_info tm)).
  { by rewrite <- fmap_cons, list_lookup_fmap, Hj. }
  destruct (fold_add_method bs (METHOD_RE_finditer re stripped) _ _ _ Hty)
    as (t1 & H1 & Hn1 & Hc1 & Hm1).
  destruct (fold_add_constructor bs (CTOR_RE_finditer re stripped) _ _ _ H1)
    as (t2 & H2 & Hn2 & Hm2 & Hc2).
  exists t2. split; [exact H2|].
  split; [by rewrite Hn2, Hn1|].
  split; [by rewrite Hm2, Hm1|].
  by rewrite Hc2, Hc1, Hn1.
Qed.

Lemma parse_csharp_file_stripped read re p summary :
  parse_csharp_file read re p = Return summary →
  ∃ raw, read p = Return raw ∧
         summary = parse_stripped re p (scan csharp_step Normal raw).
Proof.
  unfold parse_csharp_file. destruct (read p) as [raw| |]; simpl; try done.
  rewrite strip_csharp_scan. simpl. intros [= <-]. eauto.
Qed.

Lemma parse_java_file_stripped read re p summary :
  parse_java_file read re p = Return summary →
  ∃ raw, read p = Return raw ∧
         summary = parse_stripped re p (scan java_step Normal raw).
Proof.
  unfold parse_java_file. destruct (read p) as [raw| |]; simpl; try done.
  rewrite strip_java_scan. simpl. intros [= <-]. eauto.
Qed.

Lemma parse_stripped_constructor_names re p stripped t c :
  t ∈ types (parse_stripped re p stripped) → c ∈ constructors t →
  member_name c = type_name t.
Proof.
  intros [j Hj]%list_elem_of_lookup_1 Hc.
  destruct (parse_stripped_types re p stripped) as [Hlen Hty].
  apply lookup_lt_Some in Hj as Hlt. rewrite Hlen in Hlt.
  destruct (lookup_lt_is_Some_2 _ _ Hlt) as [tm Htm].
  destruct (Hty j tm Htm) as (t' & Ht' & Hn & _ & Hcs).
  rewrite Hj in Ht'. injection Ht' as <-.
  rewrite Hcs in Hc.
  apply list_elem_of_fmap in Hc as (mc & -> & Hmc).
  apply list_elem_of_filter in Hmc as [[_ Hname] _].
  simpl. congruence.
Qed.

(** C2: when the type headers are met from left to right (as [finditer]
    yields them), the methods recorded for the [j]-th type are the records
    of the method matches whose offset lies in the half-open interval from
    the start of the [j]-th header to the start of the next one, the last
    interval ending past the end of the text, in the order of the matches.
    With two headers [A] then [B], a method match at or after the start of
    [B] is recorded for [B], and the methods of [A] are those of the
    matches before the start of [B] only. *)
Theorem methods_owned_by_interval re file_path stripped :
  StronglySorted lt (tm_start <$> TYPE_RE_finditer re stripped) →
  (∀ j tm, TYPE_RE_finditer re stripped !! j = Some tm →
     ∃ t, types (parse_stripped re file_path stripped) !! j = Some t ∧
          type_name t = tm_name tm ∧
          methods t = member_info <$>
            filter (λ mm, tm_start tm ≤ mm_start mm
                          < interval_end stripped (TYPE_RE_finditer re stripped) j)
              (METHOD_RE_finditer re stripped)) ∧
  (∀ A B, TYPE_RE_finditer re stripped = [A; B] →
     ∃ tA tB,
       types (parse_stripped re file_path stripped) = [tA; tB] ∧
       type_name tA = tm_name A ∧ type_name tB = tm_name B ∧
       methods tA = member_info <$>
         filter (λ mm, tm_start A ≤ mm_start mm < tm_start B)
           (METHOD_RE_finditer re stripped) ∧
       ∀ mm, mm ∈ METHOD_RE_finditer re stripped →
             tm_start B ≤ mm_start mm ≤ length stripped →
             member_info mm ∈ methods tB).
Proof.
  intros Hs.
  assert (Hgen : ∀ j tm, TYPE_RE_finditer re stripped !! j = Some tm →
     ∃ t, types (parse_stripped re file_path stripped) !! j = Some t ∧
          type_name t = tm_name tm ∧
          methods t = member_info <$>
            filter (λ mm, tm_start tm ≤ mm_start mm
                          < interval_end stripped (TYPE_RE_finditer re stripped) j)
              (METHOD_RE_finditer re stripped)).
  { intros j tm Hj.
    destruct (parse_stripped_types re file_path stripped) as [_ Hty].
    destruct (Hty j tm Hj) as (t & Ht & Hn & Hm & _).
    exists t. split; [done|]. split; [done|].
    rewrite Hm. f_equal. apply list_filter_iff. intros mm.
    rewrite (owning_type_index_spec _ _ Hs). split.
    - intros (tm' & Htm' & Hin). by rewrite Hj in Htm'; injection Htm' as <-.
    - eauto. }
  split; [exact Hgen|].
  intros A B HAB.
  destruct (parse_stripped_types re file_path stripped) as [Hlen _].
  destruct (Hgen 0 A) as (tA & HtA & HnA & HmA); [by rewrite HAB|].
  destruct (Hgen 1 B) as (tB & HtB & HnB & HmB); [by rewrite HAB|].
  rewrite HAB in Hlen.
  destruct (types (parse_stripped re file_path stripped))
    as [|t0 [|t1 [|? ?]]]; try done.
  simpl in HtA, HtB. injection HtA as ->. injection HtB as ->.
  exists tA, tB. split; [done|]. split; [done|]. split; [done|].
  unfold interval_end in HmA, HmB. rewrite HAB in HmA, HmB. simpl in HmA, HmB.
  split; [done|].
  intros mm Hmm Hpos. rewrite HmB.
  apply list_elem_of_fmap_2, list_elem_of_filter. split; [lia|done].
Qed.

Lemma methods_owned_by_interval_witness :
  StronglySorted lt (tm_start <$> TYPE_RE_finditer example_engine example_source) ∧
  ∃ tA tB,
    types (parse_stripped example_engine "Example.cs" example_source) = [tA; tB] ∧
    type_name tA = "A" ∧ type_name tB = "B" ∧
    member_name <$> methods tA = ["f"] ∧
    member_name <$> methods tB = ["g"].
Proof.
  assert (Hs : StronglySorted lt
                 (tm_start <$> TYPE_RE_finditer example_engine example_source)).
  { vm_compute. repeat constructor. }
  split; [exact Hs|].
  destruct (proj2 (methods_owned_by_interval example_engine "Example.cs"
                     example_source Hs) _ _ eq_refl)
    as (tA & tB & Hty & HnA & HnB & HmA & HmB).
  exists tA, tB. split; [exact Hty|]. split; [exact HnA|]. split; [exact HnB|].
  vm_compute in Hty. injection Hty as <- <-. split; reflexivity.
Defined.

(** C3: in what [parse_csharp_file] and [parse_java_file] return, every
    record of a type's [constructors] has the name of that type; the
    constructors of the [j]-th type are the records of the constructor
    shaped matches that [owning_type_index] gives to [j] and whose name is
    the name of that type, so a match of another name is left out. *)
Theorem constructors_named_after_type :
  (∀ read re p summary,
     parse_csharp_file read re p = Return summary ∨
     parse_java_file read re p = Return summary →
     ∀ t c, t ∈ types summary → c ∈ constructors t →
            member_name c = type_name t) ∧
  (∀ re p stripped j tm,
     TYPE_RE_finditer re stripped !! j = Some tm →
     ∃ t, types (parse_stripped re p stripped) !! j = Some t ∧
          type_name t = tm_name tm ∧
          constructors t = member_info <$>
            filter (λ mc,
                      owning_type_index
                        (make_boundaries stripped (TYPE_RE_finditer re stripped))
                        (mm_start mc) = Some j ∧
                      mm_name mc = tm_name tm)
              (CTOR_RE_finditer re stripped)).
Proof.
  split.
  - intros read re p summary
      [(raw & _ & ->)%parse_csharp_file_stripped
      |(raw & _ & ->)%parse_java_file_stripped];
      apply parse_stripped_constructor_names.
  - intros re p stripped j tm Hj.
    destruct (parse_stripped_types re p stripped) as [_ Hty].
    destruct (Hty j tm Hj) as (t & Ht & Hn & _ & Hc). eauto.
Qed.

Lemma constructors_named_after_type_witness :
  let read := λ _ : string, Return example_source in
  ∃ summary tA tB c,
    parse_csharp_file read example_engine "Example.cs" = Return summary ∧
    types summary = [tA; tB] ∧
    constructors tA = [] ∧ constructors tB = [c] ∧
    type_name tB = "B" ∧ member_name c = type_name tB.
Proof.
  intros read.
  destruct (parse_csharp_file read example_engine "Example.cs")
    as [summary| |] eqn:E; try (by vm_compute in E).
  assert (E' := E). vm_compute in E'. injection E' as E'.
  destruct (types summary) as [|tA [|tB [|? ?]]] eqn:Ety;
    try (by rewrite <- E' in Ety).
  destruct (constructors tB) as [|c [|? ?]] eqn:Ec;
    try (by rewrite <- E' in Ety; injection Ety as <- <-).
  exists summary, tA, tB, c.
  split; [reflexivity|]. split; [exact Ety|].
  split; [by rewrite <- E' in Ety; injection Ety as <- <-|].
  split; [exact Ec|].
  split; [by rewrite <- E' in Ety; injection Ety as <- <-|].
  apply (proj1 constructors_named_after_type read example_engine
           "Example.cs" summary (or_introl E) tB c).
  - rewrite Ety. apply list_elem_of_further, list_elem_of_here.
  - rewrite Ec. apply list_elem_of_here.
Defined.

(** ** Properties of the source aggregator *)

Lemma for_each_app {A B} (body : A → B → py A) l1 l2 a :
  for_each body (l1 ++ l2) a = (a' ← for_each body l1 a; for_each body l2 a').
Proof.
  revert a. induction l1 as [|b l1 IH]; intros a; simpl; [done|].
  destruct (body a b); simpl; auto.
Qed.

Section Aggregate.
Variable default_ns : string.
Variable parse : string → py FileSummary.
Hypothesis parse_ends : ∀ p, parse p ≠ Diverge.

Lemma scan_one_summary acc p :
  scan_one default_ns parse acc p
  = Return (record_summary default_ns acc (summary_of parse p)).
Proof.
  unfold scan_one, summary_of.
  pose proof (parse_ends (path_str p)).
  by destruct (parse (path_str p)).
Qed.

Lemma for_each_scan_one l : ∀ acc,
  for_each (scan_one default_ns parse) l acc
  = Return (fold_left (record_summary default_ns) (summary_of parse <$> l) acc).
Proof.
  induction l as [|p l IH]; intros acc; simpl; [done|].
  rewrite scan_one_summary. simpl. apply IH.
Qed.

(** The two variables of the loop after the summaries [sums]. *)
Lemma fold_record_summary sums : ∀ nss fls,
  (fold_left (record_summary default_ns) sums (nss, fls)).2 = fls ++ sums ∧
  ∀ ns,
    match (fold_left (record_summary default_ns) sums (nss, fls)).1 !! ns with
    | Some o =>
        ns_files o = ns_files (default {| ns_files := []; ns_types := [] |}
                                 (nss !! ns))
                     ++ (path <$> in_namespace default_ns ns sums) ∧
        ns_types o = ns_types (default {| ns_files := []; ns_types := [] |}
                                 (nss !! ns))
                     ++ flat_map types (in_namespace default_ns ns sums)
    | None => nss !! ns = None ∧ in_namespace default_ns ns sums = []
    end.
Proof.
  induction sums as [|s sums IH]; intros nss fls; simpl.
  - split; [by rewrite app_nil_r|]. intros ns.
    destruct (nss !! ns); simpl; by rewrite ?app_nil_r.
  - destruct (IH (<[py_or (namespace s) default_ns :=
                     {| ns_files := ns_files (default {| ns_files := []; ns_types := [] |}
                            (nss !! py_or (namespace s) default_ns)) ++ [path s];
                        ns_types := ns_types (default {| ns_files := []; ns_types := [] |}
                            (nss !! py_or (namespace s) default_ns)) ++ types s |}]> nss)
                 (fls ++ [s])) as [Hf Hn].
    split; [by rewrite Hf, <- app_assoc|].
    intros ns. specialize (Hn ns). unfold in_namespace in *.
    rewrite filter_cons.
    destruct (decide (py_or (namespace s) default_ns = ns)) as [<-|Hne].
    + rewrite lookup_insert_eq in Hn. simpl in Hn.
      destruct ((fold_left _ _ _).1 !! _) as [o|]; [|by destruct Hn as [[=] _]].
      destruct Hn as [-> ->]. simpl. by rewrite <- !app_assoc.
    + by rewrite lookup_insert_ne in Hn.
Qed.

End Aggregate.

Lemma parse_csharp_file_ends read re p :
  read p ≠ Diverge → parse_csharp_file read re p ≠ Diverge.
Proof.
  unfold parse_csharp_file. destruct (read p); simpl; try done.
  by rewrite strip_csharp_scan.
Qed.

Lemma parse_java_file_ends read re p :
  read p ≠ Diverge → parse_java_file read re p ≠ Diverge.
Proof.
  unfold parse_java_file. destruct (read p); simpl; try done.
  by rewrite strip_java_scan.
Qed.

(** The C# loop is the common loop over the files it does not skip. *)
Lemma dotnet_scan_files fs re l : ∀ acc,
  for_each (Dotnet.scan_file fs re) l acc
  = for_each (scan_one "(global)" (parse_csharp_file (fs_read_text fs) re))
      (List.filter (λ cs, negb (Dotnet.skipped cs)) l) acc.
Proof.
  assert (Hbody : ∀ acc cs, Dotnet.scan_file fs re acc cs =
            if Dotnet.skipped cs then Return acc
            else scan_one "(global)" (parse_csharp_file (fs_read_text fs) re)
                   acc cs) by done.
  induction l as [|cs l IH]; intros acc; simpl; [done|].
  rewrite Hbody.
  destruct (Dotnet.skipped cs); simpl; [apply IH|].
  destruct (scan_one _ _ acc cs); simpl; auto.
Qed.

(** The two nested Java loops are the common loop over the files of the
    source directories that exist. *)
Lemma maven_scan_dirs fs re project_dir dirs : ∀ acc,
  for_each (Maven.scan_source_dir fs re project_dir) dirs acc
  = for_each (scan_one "(default)" (parse_java_file (fs_read_text fs) re))
      (flat_map (λ rel_src,
                   let src_dir := fs_join fs project_dir rel_src in
                   if fs_exists fs src_dir then fs_rglob fs src_dir "*.java"
                   else []) dirs) acc.
Proof.
  induction dirs as [|d dirs IH]; intros acc; simpl; [done|].
  assert (Hbody : ∀ acc, Maven.scan_source_dir fs re project_dir acc d =
            if fs_exists fs (fs_join fs project_dir d)
            then for_each (scan_one "(default)"
                             (parse_java_file (fs_read_text fs) re))
                   (fs_rglob fs (fs_join fs project_dir d) "*.java") acc
            else Return acc).
  { intros acc'. unfold Maven.scan_source_dir. by destruct (fs_exists _ _). }
  rewrite for_each_app, Hbody.
  destruct (fs_exists fs (fs_join fs project_dir d)); simpl; [|apply IH].
  destruct (for_each _ (fs_rglob _ _ _) acc); simpl; auto.
Qed.

(** An entry is made only by a summary that counts for its namespace. *)
Lemma fold_record_summary_entry default_ns sums ns : ∀ nss fls,
  (fold_left (record_summary default_ns) sums (nss, fls)).1 !! ns ≠ None →
  nss !! ns ≠ None ∨ in_namespace default_ns ns sums ≠ [].
Proof.
  induction sums as [|s sums IH]; intros nss fls; simpl; [by left|].
  intros H. apply IH in H as [H|H].
  - unfold in_namespace. rewrite filter_cons.
    destruct (decide (py_or (namespace s) default_ns = ns)) as [E|E];
      [by right|].
    left. by rewrite lookup_insert_ne in H.
  - right. unfold in_namespace in *. rewrite filter_cons.
    by destruct (decide (py_or (namespace s) default_ns = ns)).
Qed.

Lemma scan_groups default_ns parse l :
  (∀ p, parse p ≠ Diverge) →
  ∃ nss,
    for_each (scan_one default_ns parse) l (∅, [])
    = Return (nss, summary_of parse <$> l) ∧
    ∀ ns, nss !! ns = namespace_entry default_ns ns (summary_of parse <$> l).
Proof.
  intros Hends. rewrite (for_each_scan_one default_ns parse Hends).
  destruct (fold_left _ _ _) as [nss fls] eqn:E.
  destruct (fold_record_summary default_ns (summary_of parse <$> l) ∅ [])
    as [Hfls Hnss].
  pose proof (fold_record_summary_entry default_ns
                (summary_of parse <$> l)) as Hentry.
  rewrite E in Hfls, Hnss. simpl in Hfls, Hnss. subst fls.
  exists nss. split; [done|]. intros ns. specialize (Hnss ns).
  specialize (Hentry ns ∅ []). rewrite E in Hentry. simpl in Hentry.
  unfold namespace_entry.
  destruct (nss !! ns) as [[files tys]|].
  - rewrite lookup_empty in Hnss. simpl in Hnss. destruct Hnss as [-> ->].
    destruct (in_namespace default_ns ns (summary_of parse <$> l)) eqn:Eg;
      [|done].
    by destruct Hentry as [H|H]; [done|rewrite lookup_empty in H|].
  - destruct Hnss as [_ ->]. done.
Qed.









(** What [summarize_sources] returns holds the path of a failing file and
    counts it, but not the traceback: the summaries of [files] are dropped
    when the function returns, and two reads that fail with different
    exceptions give the same result. *)
Lemma returned_summary_drops_traceback :
  let fs' := {| fs_read_text := λ p,
                  if decide (p = "proj/Broken.cs") then Raise "IsADirectoryError"
                  else Return example_source;
                fs_rglob := fs_rglob example_fs;
                fs_exists := fs_exists example_fs;
                fs_join := fs_join example_fs;
                fs_resolve := fs_resolve example_fs |} in
  Dotnet.summarize_sources example_fs example_engine "proj"
  = Dotnet.summarize_sources fs' example_engine "proj" ∧
  Maven.summarize_sources example_fs example_engine "proj"
  = Maven.summarize_sources fs' example_engine "proj".
Proof. by vm_compute. Qed.


(** ** Properties of the descriptor reader *)

Lemma first_value_app f cs1 cs2 :
  first_value f (cs1 ++ cs2)
  = match first_value f cs1 with
    | Some v => Some v
    | None => first_value f cs2
    end.
Proof. unfold first_value. by rewrite omap_app, head_app. Qed.

Lemma first_value_cons f c cs :
  first_value f (c :: cs)
  = match (if decide (tag c = f) then or_none (_xml_text (Some c)) else None) with
    | Some v => Some v
    | None => first_value f cs
    end.
Proof.
  unfold first_value. cbn [omap list_omap].
  by destruct (if decide (tag c = f) then _ else _).
Qed.

Lemma collect_child_lookup props c f :
  Dotnet.collect_child props c !! f
  = match props !! f with
    | Some v => Some v
    | None => if decide (tag c = f) then or_none (_xml_text (Some c)) else None
    end.
Proof.
  unfold Dotnet.collect_child.
  destruct (or_none (_xml_text (Some c))) as [val|].
  - destruct (props !! tag c) eqn:Et.
    + destruct (props !! f) eqn:Ef; [done|].
      destruct (decide (tag c = f)) as [<-|]; [congruence|done].
    + destruct (decide (tag c = f)) as [<-|Hne].
      * by rewrite lookup_insert_eq, Et.
      * rewrite lookup_insert_ne by done. by destruct (props !! f).
  - destruct (props !! f); [done|]. by destruct (decide (tag c = f)).
Qed.

(** After the children [cs], a field that [props] holds keeps its value and
    another field has the first value [cs] gives it. *)
Lemma fold_collect_child cs : ∀ props f,
  fold_left Dotnet.collect_child cs props !! f
  = match props !! f with
    | Some v => Some v
    | None => first_value f cs
    end.
Proof.
  induction cs as [|c cs IH]; intros props f; simpl.
  { by destruct (props !! f). }
  rewrite IH, collect_child_lookup, first_value_cons.
  by destruct (props !! f).
Qed.

Lemma fold_collect_groups groups : ∀ props f,
  fold_left (λ props pg, fold_left Dotnet.collect_child (children pg) props)
    groups props !! f
  = match props !! f with
    | Some v => Some v
    | None => first_value f (flat_map children groups)
    end.
Proof.
  induction groups as [|g groups IH]; intros props f; simpl.
  { by destruct (props !! f). }
  rewrite IH, fold_collect_child, first_value_app.
  by destruct (props !! f).
Qed.

Lemma collect_props_first root f :
  Dotnet.collect_props root !! f
  = first_value f (flat_map children (findall "PropertyGroup" root)).
Proof. unfold Dotnet.collect_props. by rewrite fold_collect_groups. Qed.

Lemma first_value_groups f pre g post v :
  (∀ g', g' ∈ pre → first_value f (children g') = None) →
  first_value f (children g) = Some v →
  first_value f (flat_map children (pre ++ g :: post)) = Some v.
Proof.
  intros Hpre Hg. induction pre as [|g0 pre IH]; simpl.
  - by rewrite first_value_app, Hg.
  - rewrite first_value_app, (Hpre g0) by apply list_elem_of_here.
    apply IH. intros g' Hg'. apply Hpre. by apply list_elem_of_further.
Qed.

(** An element of a group whose text is missing, empty or blank gives the
    field no value. *)
Lemma first_value_blank f cs :
  (∀ c t, c ∈ cs → tag c = f → el_text c = Some t → strip_string t = "") →
  first_value f cs = None.
Proof.
  intros Hblank. unfold first_value.
  induction cs as [|c cs IH]; [done|].
  cbn [omap list_omap].
  assert (Hc : (if decide (tag c = f) then or_none (_xml_text (Some c))
                else None) = None).
  { destruct (decide (tag c = f)) as [Ht|]; [|done].
    unfold _xml_text. destruct (el_text c) as [t|] eqn:Et; [|done].
    destruct (decide (t = "")); [done|].
    rewrite (Hblank c t (list_elem_of_here _ _) Ht Et). done. }
  rewrite Hc. apply IH. intros c' t Hc'. by apply Hblank, list_elem_of_further.
Qed.

(** C6, as the code has it: each field of the descriptor has the value of
    the first property group, in document order, that gives it one, and the
    groups that follow do not change it.  A group gives a field a value
    only through an element whose text is not blank: an element of that
    name whose text is missing, empty or white space is passed over by the
    loop, so a group that holds only such elements for the field leaves it
    to the groups that follow.  With two groups that both give a value to a
    field, the value of the first is kept.  [assembly_name],
    [root_namespace] and [output_type] are read from these fields. *)
Theorem first_property_group_wins path parent document :
  let root := strip_namespaces document in
  let groups := findall "PropertyGroup" root in
  let project := Dotnet.parse_csproj path parent document in
  (∀ f pre g post v,
     groups = pre ++ g :: post →
     (∀ g', g' ∈ pre → first_value f (children g') = None) →
     first_value f (children g) = Some v →
     Dotnet.collect_props root !! f = Some v) ∧
  (∀ f g,
     (∀ c t, c ∈ children g → tag c = f → el_text c = Some t →
             strip_string t = "") →
     first_value f (children g) = None) ∧
  (∀ f g c t,
     first_value f (children g) = None → c ∈ children g → tag c = f →
     el_text c = Some t → strip_string t = "") ∧
  (∀ f g1 g2 v1 v2,
     groups = [g1; g2] →
     first_value f (children g1) = Some v1 →
     first_value f (children g2) = Some v2 →
     Dotnet.collect_props root !! f = Some v1) ∧
  Dotnet.assembly_name project = Dotnet.collect_props root !! "AssemblyName" ∧
  Dotnet.root_namespace project = Dotnet.collect_props root !! "RootNamespace" ∧
  Dotnet.output_type project = Dotnet.collect_props root !! "OutputType".
Proof.
  intros root groups project.
  assert (Hfirst : ∀ f pre g post v,
     groups = pre ++ g :: post →
     (∀ g', g' ∈ pre → first_value f (children g') = None) →
     first_value f (children g) = Some v →
     Dotnet.collect_props root !! f = Some v).
  { intros f pre g post v Hg Hpre Hv.
    rewrite collect_props_first. fold groups. rewrite Hg.
    by apply first_value_groups. }
  split; [exact Hfirst|].
  split; [intros f g; apply first_value_blank|].
  split.
  { intros f g c t Hnone Hc Ht Et.
    induction (children g) as [|c0 cs IH]; [by apply not_elem_of_nil in Hc|].
    rewrite first_value_cons in Hnone.
    destruct (decide (tag c0 = f)) as [Ht0|Hne0].
    - destruct (or_none (_xml_text (Some c0))) as [v|] eqn:Ev; [done|].
      apply elem_of_cons in Hc as [->|Hc]; [|by apply IH].
      unfold _xml_text in Ev. rewrite Et in Ev.
      destruct (decide (t = "")) as [->|Hne]; [done|].
      simpl in Ev. by destruct (decide (strip_string t = "")).
    - apply elem_of_cons in Hc as [->|Hc]; [done|]. by apply IH. }
  split; [|done].
  intros f g1 g2 v1 v2 Hg Hv1 _.
  apply (Hfirst f [] g1 [g2] v1 Hg); [|done].
  intros g' Hg'. by apply not_elem_of_nil in Hg'.
Qed.

Lemma first_property_group_wins_witness :
  let root := strip_namespaces example_csproj in
  ∃ g1 g2,
    findall "PropertyGroup" root = [g1; g2] ∧
    first_value "AssemblyName" (children g1) = Some "First" ∧
    first_value "AssemblyName" (children g2) = Some "Second" ∧
    Dotnet.collect_props root !! "AssemblyName" = Some "First" ∧
    Dotnet.assembly_name (Dotnet.parse_csproj "/w/A/A.csproj" "/w/A" example_csproj)
    = Some "First".
Proof.
  intros root.
  destruct (findall "PropertyGroup" root) as [|g1 [|g2 [|? ?]]] eqn:E;
    try (by vm_compute in E).
  assert (E' := E). vm_compute in E'. injection E' as E1 E2.
  exists g1, g2. split; [reflexivity|].
  assert (H1 : first_value "AssemblyName" (children g1) = Some "First")
    by (by rewrite <- E1).
  assert (H2 : first_value "AssemblyName" (children g2) = Some "Second")
    by (by rewrite <- E2).
  split; [exact H1|]. split; [exact H2|].
  destruct (first_property_group_wins "/w/A/A.csproj" "/w/A" example_csproj)
    as (_ & _ & _ & Htwo & Hname & _).
  pose proof (Htwo "AssemblyName" g1 g2 "First" "Second" E H1 H2) as Hp.
  split; [exact Hp|]. rewrite Hname. exact Hp.
Defined.

(** C6 as it is worded fails when the first group holds the field with a
    blank text: both groups have an [AssemblyName] element, the one of the
    first group holds a space, and the descriptor gets the name of the
    second group. *)
Lemma blank_first_group_is_overridden :
  let document := example_csproj_blank_first in
  let project := Dotnet.parse_csproj "/w/A/A.csproj" "/w/A" document in
  (∃ g1 g2 c1 c2,
     findall "PropertyGroup" (strip_namespaces document) = [g1; g2] ∧
     children g1 = [c1] ∧ tag c1 = "AssemblyName" ∧ el_text c1 = Some " " ∧
     children g2 = [c2] ∧ tag c2 = "AssemblyName" ∧
     el_text c2 = Some "Second" ∧
     Dotnet.assembly_name project = Some "Second") ∧
  ¬ (∀ document g1 g2 c1 t1,
       findall "PropertyGroup" (strip_namespaces document) = [g1; g2] →
       c1 ∈ children g1 → tag c1 = "AssemblyName" → el_text c1 = Some t1 →
       Dotnet.assembly_name
         (Dotnet.parse_csproj "/w/A/A.csproj" "/w/A" document)
       = Some (strip_string t1)).
Proof.
  intros document project. split.
  - eexists _, _, _, _. repeat split; reflexivity.
  - intros Hclaim.
    pose proof (Hclaim document
                  (Elem "PropertyGroup" [] None
                     [Elem "AssemblyName" [] (Some " ") []])
                  (Elem "PropertyGroup" [] None
                     [Elem "AssemblyName" [] (Some "Second") []])
                  (Elem "AssemblyName" [] (Some " ") []) " "
                  eq_refl (list_elem_of_here _ _) eq_refl eq_refl) as H.
    vm_compute in H. discriminate H.
Qed.

(** ** Properties of the C# graph builder *)

Section DotnetGraph.
Variable fs : file_system.

(** [by_path] holds, for a path, the last project of that resolved
    descriptor path. *)
Lemma fold_index_by_path projects : ∀ (m : gmap string Dotnet.Project) k,
  fold_left (λ by_path p, <[fs_resolve fs (Dotnet.csproj_path p) := p]> by_path)
    projects m !! k
  = match last (filter (λ q, fs_resolve fs (Dotnet.csproj_path q) = k) projects) with
    | Some q => Some q
    | None => m !! k
    end.
Proof.
  induction projects as [|p projects IH]; intros m k; simpl; [done|].
  rewrite IH, filter_cons.
  destruct (decide (fs_resolve fs (Dotnet.csproj_path p) = k)) as [<-|Hne].
  - rewrite last_cons, lookup_insert_eq. by destruct (last _).
  - by rewrite lookup_insert_ne.
Qed.

Lemma index_by_path_lookup projects k :
  Dotnet.index_by_path fs projects !! k
  = last (filter (λ q, fs_resolve fs (Dotnet.csproj_path q) = k) projects).
Proof.
  unfold Dotnet.index_by_path. rewrite fold_index_by_path, lookup_empty.
  by destruct (last _).
Qed.

Lemma fold_add_reference projects p prs : ∀ acc,
  fold_left (Dotnet.add_reference fs (Dotnet.index_by_path fs projects) p) prs acc
  = acc ++ flat_map (λ pr, if decide (Dotnet.include pr = "") then []
                           else [Dotnet.reference_edge fs projects p pr]) prs.
Proof.
  induction prs as [|pr prs IH]; intros acc; simpl; [by rewrite app_nil_r|].
  rewrite IH. unfold Dotnet.add_reference.
  destruct (decide (Dotnet.include pr = "")); [done|].
  rewrite <- app_assoc. f_equal. simpl. f_equal.
  unfold Dotnet.reference_edge. f_equal.
  rewrite index_by_path_lookup. by destruct (last _).
Qed.

Lemma fold_add_package p deps : ∀ acc,
  fold_left (Dotnet.add_package p) deps acc
  = acc ++ ((λ dep, {| Dotnet.dep_from := Dotnet.csproj_path p;
                       Dotnet.dep_package := Dotnet.package_name dep;
                       Dotnet.dep_version := Dotnet.package_version dep |})
            <$> deps).
Proof.
  induction deps as [|dep deps IH]; intros acc; simpl; [by rewrite app_nil_r|].
  rewrite IH. unfold Dotnet.add_package. by rewrite <- app_assoc.
Qed.

(** The edges of the graph, project by project and reference by
    reference. *)
Lemma build_graph_edges projects :
  Dotnet.graph_project_references (Dotnet.build_graph fs projects)
  = flat_map (λ p,
      flat_map (λ pr, if decide (Dotnet.include pr = "") then []
                      else [Dotnet.reference_edge fs projects p pr])
        (Dotnet.project_references p)) projects ∧
  Dotnet.graph_package_dependencies (Dotnet.build_graph fs projects)
  = flat_map (λ p,
      (λ dep, {| Dotnet.dep_from := Dotnet.csproj_path p;
                 Dotnet.dep_package := Dotnet.package_name dep;
                 Dotnet.dep_version := Dotnet.package_version dep |})
      <$> Dotnet.package_references p) projects.
Proof.
  unfold Dotnet.build_graph.
  assert (Hgen : ∀ ps refs pkgs,
    fold_left
      (λ '(project_refs, package_deps) p,
         (fold_left (Dotnet.add_reference fs (Dotnet.index_by_path fs projects) p)
            (Dotnet.project_references p) project_refs,
          fold_left (Dotnet.add_package p) (Dotnet.package_references p)
            package_deps))
      ps (refs, pkgs)
    = (refs ++ flat_map (λ p,
         flat_map (λ pr, if decide (Dotnet.include pr = "") then []
                         else [Dotnet.reference_edge fs projects p pr])
           (Dotnet.project_references p)) ps,
       pkgs ++ flat_map (λ p,
         (λ dep, {| Dotnet.dep_from := Dotnet.csproj_path p;
                    Dotnet.dep_package := Dotnet.package_name dep;
                    Dotnet.dep_version := Dotnet.package_version dep |})
         <$> Dotnet.package_references p) ps)).
  { induction ps as [|p ps IH]; intros refs pkgs; simpl.
    - by rewrite !app_nil_r.
    - rewrite fold_add_reference, fold_add_package, IH.
      by rewrite <- !app_assoc. }
  rewrite Hgen. done.
Qed.
End DotnetGraph.

(** A loop whose body always returns is the fold of what it returns. *)
Lemma for_each_returns {A B} (body : A → B → py A) (f : A → B → A) l :
  (∀ a b, b ∈ l → body a b = Return (f a b)) →
  ∀ a, for_each body l a = Return (fold_left f l a).
Proof.
  induction l as [|b l IH]; intros H a; simpl; [done|].
  rewrite (H a b) by apply list_elem_of_here. simpl.
  apply IH. intros a' b' Hb'. by apply H, list_elem_of_further.
Qed.

(** A loop ends with an exception when its body raises for one of the
    elements, whatever it holds then, and never runs on for ever. *)
Lemma for_each_raises {A B} (body : A → B → py A) l b :
  (∀ a b', body a b' ≠ Diverge) →
  b ∈ l → (∀ a, ∃ exc, body a b = Raise exc) →
  ∀ a, ∃ exc, for_each body l a = Raise exc.
Proof.
  intros Hends Hb Hraise.
  induction l as [|b0 l IH]; intros a; [by apply not_elem_of_nil in Hb|].
  simpl. apply elem_of_cons in Hb as [<-|Hb].
  - destruct (Hraise a) as [exc ->]. by exists exc.
  - pose proof (Hends a b0) as Hb0.
    destruct (body a b0) as [a'|exc|]; simpl; [by apply IH|by exists exc|done].
Qed.

Lemma fold_left_ext_fun {A B} (f g : A → B → A) l a :
  (∀ a b, f a b = g a b) → fold_left f l a = fold_left g l a.
Proof.
  intros H. revert a. induction l as [|b l IH]; intros a; simpl; [done|].
  by rewrite H, IH.
Qed.

(** When every resolution returns, [build_graph] returns the graph. *)
Lemma build_graph_raising_returns fs resolve projects :
  (∀ s, resolve s = Return (fs_resolve fs s)) →
  Dotnet.build_graph_raising resolve (fs_join fs) projects
  = Return (Dotnet.build_graph fs projects).
Proof.
  intros Hres. unfold Dotnet.build_graph_raising, Dotnet.build_graph.
  assert (Hindex : Dotnet.index_by_path_raising resolve projects
                   = Return (Dotnet.index_by_path fs projects)).
  { unfold Dotnet.index_by_path_raising, Dotnet.index_by_path.
    apply for_each_returns. intros m p _. by rewrite Hres. }
  rewrite Hindex. simpl.
  set (by_path := Dotnet.index_by_path fs projects).
  rewrite (for_each_returns _
             (λ acc p,
                (fold_left (Dotnet.add_reference fs by_path p)
                   (Dotnet.project_references p) acc.1,
                 fold_left (Dotnet.add_package p)
                   (Dotnet.package_references p) acc.2))).
  - simpl.
    rewrite (fold_left_ext_fun _
               (λ '(project_refs, package_deps) p,
                  (fold_left (Dotnet.add_reference fs by_path p)
                     (Dotnet.project_references p) project_refs,
                   fold_left (Dotnet.add_package p)
                     (Dotnet.package_references p) package_deps)))
      by (by intros [? ?] ?).
    by destruct (fold_left _ projects ([], [])).
  - intros acc p _. rewrite Hres. simpl.
    rewrite (for_each_returns _ (Dotnet.add_reference fs by_path p)); [done|].
    intros refs pr _.
    unfold Dotnet.add_reference_raising, Dotnet.add_reference.
    destruct (decide (Dotnet.include pr = "")); [done|].
    by rewrite Hres.
Qed.

Lemma for_each_ends {A B} (body : A → B → py A) l :
  (∀ a b, body a b ≠ Diverge) → ∀ a, for_each body l a ≠ Diverge.
Proof.
  intros Hends. induction l as [|b l IH]; intros a; simpl; [done|].
  pose proof (Hends a b). destruct (body a b); simpl; [apply IH|done..].
Qed.

(** When one of the resolutions that [build_graph] asks for raises, that
    of the descriptor path of a project, of its directory, or of one of its
    include paths under that directory, [build_graph] raises. *)
Lemma build_graph_raising_raises resolve join projects p exc :
  (∀ s, resolve s ≠ Diverge) →
  p ∈ projects →
  resolve (Dotnet.csproj_path p) = Raise exc ∨
  resolve (Dotnet.dir p) = Raise exc ∨
  (∃ pr base_dir,
     pr ∈ Dotnet.project_references p ∧ Dotnet.include pr ≠ "" ∧
     resolve (Dotnet.dir p) = Return base_dir ∧
     resolve (join base_dir (Dotnet.include pr)) = Raise exc) →
  ∃ exc', Dotnet.build_graph_raising resolve join projects = Raise exc'.
Proof.
  intros Hends Hp Hraise. unfold Dotnet.build_graph_raising.
  assert (Hindex_ends : ∀ (m : gmap string Dotnet.Project) p0,
            (resolved ← resolve (Dotnet.csproj_path p0);
             mret (<[resolved := p0]> m)) ≠ (Diverge : py _)).
  { intros m p0. pose proof (Hends (Dotnet.csproj_path p0)).
    by destruct (resolve (Dotnet.csproj_path p0)). }
  destruct (Dotnet.index_by_path_raising resolve projects)
    as [by_path|exc0|] eqn:Eindex; simpl; [|by exists exc0|].
  2: { by apply (for_each_ends _ projects Hindex_ends) in Eindex. }
  assert (Hinner_ends : ∀ p0 base_dir refs pr,
            Dotnet.add_reference_raising resolve join by_path p0 base_dir
              refs pr ≠ Diverge).
  { intros p0 base_dir refs pr. unfold Dotnet.add_reference_raising.
    destruct (decide (Dotnet.include pr = "")); [done|].
    pose proof (Hends (join base_dir (Dotnet.include pr))).
    by destruct (resolve (join base_dir (Dotnet.include pr))). }
  destruct Hraise as [Hraise|Hraise].
  { exfalso. unfold Dotnet.index_by_path_raising in Eindex.
    destruct (for_each_raises
                (λ (m : gmap string Dotnet.Project) p0,
                   resolved ← resolve (Dotnet.csproj_path p0);
                   mret (<[resolved := p0]> m))
                projects p Hindex_ends Hp) with (a := (∅ : gmap string Dotnet.Project))
      as [exc' Hrun].
    - intros m. exists exc. by rewrite Hraise.
    - by rewrite Hrun in Eindex. }
  match goal with
  | |- context [for_each ?body projects ([], [])] =>
      destruct (for_each_raises body projects p) with (a := ([], []) : list Dotnet.ReferenceEdge * list Dotnet.PackageEdge)
        as [exc' Hrun]; [| exact Hp | | exists exc'; by rewrite Hrun]
  end.
  - intros acc p0. pose proof (Hends (Dotnet.dir p0)).
    destruct (resolve (Dotnet.dir p0)) as [base_dir| |]; simpl; [|done..].
    pose proof (for_each_ends _ (Dotnet.project_references p0)
                  (Hinner_ends p0 base_dir) acc.1).
    by destruct (for_each _ (Dotnet.project_references p0) acc.1).
  - intros acc. destruct Hraise as [Hdir|(pr & base_dir & Hpr & Hinc & Hdir & Htgt)].
    + exists exc. by rewrite Hdir.
    + rewrite Hdir. simpl.
      destruct (for_each_raises
                  (Dotnet.add_reference_raising resolve join by_path p base_dir)
                  (Dotnet.project_references p) pr (Hinner_ends p base_dir) Hpr)
        with (a := acc.1) as [exc' Hrun].
      * intros refs. exists exc. unfold Dotnet.add_reference_raising.
        rewrite decide_False by done. by rewrite Htgt.
      * exists exc'. by rewrite Hrun.
Qed.

(** The last element of a list that satisfies a test. *)
Lemma last_filter_split {A} (P : A → Prop) `{∀ x, Decision (P x)}
    (ps1 : list A) q ps2 :
  P q → (∀ q', q' ∈ ps2 → ¬ P q') →
  last (filter P (ps1 ++ q :: ps2)) = Some q.
Proof.
  intros Hq Hps2.
  rewrite filter_app, filter_cons, decide_True by done.
  assert (Hnil : filter P ps2 = []).
  { induction ps2 as [|q0 ps2 IH]; [done|].
    rewrite filter_cons, decide_False by (apply Hps2, list_elem_of_here).
    apply IH. intros q' Hq'. by apply Hps2, list_elem_of_further. }
  by rewrite Hnil, last_snoc.
Qed.

(** The target of the edge of a reference: the descriptor of the last
    project of the list whose resolved descriptor path is the resolved
    include path. *)
Lemma reference_edge_last fs projects p pr ps1 q ps2 :
  let target_path :=
    fs_resolve fs (fs_join fs (fs_resolve fs (Dotnet.dir p))
                     (Dotnet.include pr)) in
  projects = ps1 ++ q :: ps2 →
  fs_resolve fs (Dotnet.csproj_path q) = target_path →
  (∀ q', q' ∈ ps2 → fs_resolve fs (Dotnet.csproj_path q') ≠ target_path) →
  Dotnet.reference_edge fs projects p pr
  = {| Dotnet.ref_from := Dotnet.csproj_path p;
       Dotnet.ref_to := py_or (Some (Dotnet.csproj_path q)) target_path;
       Dotnet.edge_name := Dotnet.ref_name pr;
       Dotnet.edge_project_guid := Dotnet.project_guid pr |}.
Proof.
  intros target_path -> Hq Hps2.
  unfold Dotnet.reference_edge. fold target_path. f_equal.
  by rewrite last_filter_split.
Qed.

(** C4, as the code has it.  As long as every path resolution returns,
    the graph builder returns a graph in which every project reference
    with a non-empty include path has exactly one edge, in the order of the
    projects and of their references.  The include path is resolved under
    the resolved directory of the referring project.  When that resolved
    path is the resolved path of the descriptor file of a parsed project
    (not of its directory), the edge points at the [csproj_path] of the
    last such project of the list; when it is the resolved descriptor path
    of no parsed project, the edge points at the resolved path itself.  A
    resolution that raises is not handled: when the resolution of the
    descriptor path of a project, of its directory or of one of its include
    paths raises, the graph builder raises and returns no graph. *)
Theorem reference_edges_resolved fs resolve projects :
  ((∀ s, resolve s = Return (fs_resolve fs s)) →
   Dotnet.build_graph_raising resolve (fs_join fs) projects
   = Return (Dotnet.build_graph fs projects)) ∧
  (∀ p exc,
     (∀ s, resolve s ≠ Diverge) →
     p ∈ projects →
     resolve (Dotnet.csproj_path p) = Raise exc ∨
     resolve (Dotnet.dir p) = Raise exc ∨
     (∃ pr base_dir,
        pr ∈ Dotnet.project_references p ∧ Dotnet.include pr ≠ "" ∧
        resolve (Dotnet.dir p) = Return base_dir ∧
        resolve (fs_join fs base_dir (Dotnet.include pr)) = Raise exc) →
     ∃ exc', Dotnet.build_graph_raising resolve (fs_join fs) projects
             = Raise exc') ∧
  Dotnet.graph_project_references (Dotnet.build_graph fs projects)
  = flat_map (λ p,
      flat_map (λ pr, if decide (Dotnet.include pr = "") then []
                      else [Dotnet.reference_edge fs projects p pr])
        (Dotnet.project_references p)) projects ∧
  (∀ p pr ps1 q ps2,
     let target_path :=
       fs_resolve fs (fs_join fs (fs_resolve fs (Dotnet.dir p))
                        (Dotnet.include pr)) in
     projects = ps1 ++ q :: ps2 →
     fs_resolve fs (Dotnet.csproj_path q) = target_path →
     (∀ q', q' ∈ ps2 → fs_resolve fs (Dotnet.csproj_path q') ≠ target_path) →
     Dotnet.csproj_path q ≠ "" →
     Dotnet.reference_edge fs projects p pr
     = {| Dotnet.ref_from := Dotnet.csproj_path p;
          Dotnet.ref_to := Dotnet.csproj_path q;
          Dotnet.edge_name := Dotnet.ref_name pr;
          Dotnet.edge_project_guid := Dotnet.project_guid pr |}) ∧
  (∀ p pr,
     let target_path :=
       fs_resolve fs (fs_join fs (fs_resolve fs (Dotnet.dir p))
                        (Dotnet.include pr)) in
     (∀ q, q ∈ projects → fs_resolve fs (Dotnet.csproj_path q) ≠ target_path) →
     Dotnet.reference_edge fs projects p pr
     = {| Dotnet.ref_from := Dotnet.csproj_path p;
          Dotnet.ref_to := target_path;
          Dotnet.edge_name := Dotnet.ref_name pr;
          Dotnet.edge_project_guid := Dotnet.project_guid pr |}).
Proof.
  split; [apply build_graph_raising_returns|].
  split; [intros p exc; apply build_graph_raising_raises|].
  split; [apply build_graph_edges|]. split.
  - intros p pr ps1 q ps2 target_path Hps Hres Hlast Hne.
    rewrite (reference_edge_last fs projects p pr ps1 q ps2 Hps Hres Hlast).
    fold target_path. unfold py_or. by rewrite decide_False.
  - intros p pr target_path Hnone.
    unfold Dotnet.reference_edge. fold target_path. f_equal.
    destruct (last _) as [q'|] eqn:El; [|done].
    apply last_Some_elem_of, list_elem_of_filter in El as [Hres' Hq'].
    by destruct (Hnone q' Hq').
Qed.

(** [A] and [B] in a workspace where the descriptor of a third project is
    a link to itself: its resolution raises. *)
Lemma reference_edges_resolved_witness :
  let B := project_B ["../A/A.csproj"; "../C/C.csproj"] in
  let projects := [project_A; B] in
  let resolve := λ s, Return (fs_resolve posix_fs s) in
  let looping := λ s, if decide (s = "/w/B/B.csproj")
                      then Raise "RuntimeError" else resolve s in
  (∀ s, resolve s = Return (fs_resolve posix_fs s)) ∧
  (∀ s, looping s ≠ Diverge) ∧
  B ∈ projects ∧ looping (Dotnet.csproj_path B) = Raise "RuntimeError" ∧
  Dotnet.build_graph_raising resolve (fs_join posix_fs) projects
  = Return (Dotnet.build_graph posix_fs projects) ∧
  (∃ exc, Dotnet.build_graph_raising looping (fs_join posix_fs) projects
          = Raise exc) ∧
  Dotnet.graph_project_references (Dotnet.build_graph posix_fs projects)
  = [ {| Dotnet.ref_from := "/w/B/B.csproj"; Dotnet.ref_to := "/w/A/A.csproj";
         Dotnet.edge_name := None; Dotnet.edge_project_guid := None |};
      {| Dotnet.ref_from := "/w/B/B.csproj"; Dotnet.ref_to := "/w/C/C.csproj";
         Dotnet.edge_name := None; Dotnet.edge_project_guid := None |} ].
Proof.
  intros B projects resolve looping.
  assert (Hres : ∀ s, resolve s = Return (fs_resolve posix_fs s)) by done.
  assert (Hends : ∀ s, looping s ≠ Diverge).
  { intros s. unfold looping. by destruct (decide (s = "/w/B/B.csproj")). }
  assert (HB : B ∈ projects) by apply list_elem_of_further, list_elem_of_here.
  split; [exact Hres|]. split; [exact Hends|]. split; [exact HB|].
  split; [reflexivity|].
  destruct (reference_edges_resolved posix_fs resolve projects)
    as (Hret & _ & Hedges & Hin & Hout).
  destruct (reference_edges_resolved posix_fs looping projects)
    as (_ & Hraise & _).
  split; [exact (Hret Hres)|].
  split; [exact (Hraise B "RuntimeError" Hends HB (or_introl eq_refl))|].
  rewrite Hedges.
  pose (rA := {| Dotnet.include := "../A/A.csproj"; Dotnet.ref_name := None;
                 Dotnet.project_guid := None |}).
  pose (rC := {| Dotnet.include := "../C/C.csproj"; Dotnet.ref_name := None;
                 Dotnet.project_guid := None |}).
  assert (Hlast : ∀ q', q' ∈ [B] →
            fs_resolve posix_fs (Dotnet.csproj_path q')
            ≠ fs_resolve posix_fs
                (fs_join posix_fs (fs_resolve posix_fs (Dotnet.dir B))
                   (Dotnet.include rA))).
  { intros q' Hq'. apply list_elem_of_In in Hq'.
    destruct Hq' as [<-|[]]. by vm_compute. }
  assert (Hnone : ∀ q, q ∈ projects →
            fs_resolve posix_fs (Dotnet.csproj_path q)
            ≠ fs_resolve posix_fs
                (fs_join posix_fs (fs_resolve posix_fs (Dotnet.dir B))
                   (Dotnet.include rC))).
  { intros q Hq. apply list_elem_of_In in Hq.
    destruct Hq as [<-|[<-|[]]]; by vm_compute. }
  assert (Hne : Dotnet.csproj_path project_A ≠ "") by done.
  pose proof (Hin B rA [] project_A [B] eq_refl eq_refl Hlast Hne) as H1.
  pose proof (Hout B rC Hnone) as H2.
  change (flat_map _ projects)
    with [Dotnet.reference_edge posix_fs projects B rA;
          Dotnet.reference_edge posix_fs projects B rC].
  rewrite H1, H2. reflexivity.
Defined.

(** C4 as it is worded fails on a reference that resolves to the
    directory of a parsed project: [B] includes ["../A"], which resolves to
    ["/w/A"], the directory of [A]; the edge points at ["/w/A"], not at the
    descriptor of [A]. *)
Lemma reference_to_directory_stays_literal :
  let projects := [project_A; project_B ["../A"]] in
  ¬ (∀ p pr q,
       p ∈ projects → pr ∈ Dotnet.project_references p →
       Dotnet.include pr ≠ "" → q ∈ projects →
       fs_resolve posix_fs
         (fs_join posix_fs (fs_resolve posix_fs (Dotnet.dir p))
            (Dotnet.include pr))
       = fs_resolve posix_fs (Dotnet.dir q) →
       ∃ e, e ∈ Dotnet.graph_project_references
                  (Dotnet.build_graph posix_fs projects) ∧
            Dotnet.ref_from e = Dotnet.csproj_path p ∧
            Dotnet.ref_to e = Dotnet.csproj_path q).
Proof.
  intros projects Hclaim.
  destruct (Hclaim (project_B ["../A"])
              {| Dotnet.include := "../A"; Dotnet.ref_name := None;
                 Dotnet.project_guid := None |} project_A)
    as (e & He & _ & Hto).
  - apply list_elem_of_further, list_elem_of_here.
  - apply list_elem_of_here.
  - done.
  - apply list_elem_of_here.
  - reflexivity.
  - assert (Hedges : Dotnet.graph_project_references
                       (Dotnet.build_graph posix_fs projects)
              = [ {| Dotnet.ref_from := "/w/B/B.csproj"; Dotnet.ref_to := "/w/A";
                     Dotnet.edge_name := None;
                     Dotnet.edge_project_guid := None |} ])
      by (by vm_compute).
    rewrite Hedges in He. apply list_elem_of_In in He.
    destruct He as [<-|[]]. discriminate Hto.
Qed.

(** ** Properties of the Maven graph builder *)

Lemma or_none_Some x s : or_none x = Some s ↔ x = Some s ∧ s ≠ "".
Proof.
  unfold or_none. destruct x as [t|]; [|by split; [|intros []]].
  destruct (decide (t = "")) as [->|Hne].
  - split; [done|]. by intros [[= <-] ?].
  - split; [by intros [= ->]|]. by intros [[= ->] _].
Qed.

Lemma truthy_Some x : truthy x = true → ∃ c r, x = Some (String c r).
Proof.
  destruct x as [[|c r]|]; simpl; try done. eauto.
Qed.

(** The keys are never empty. *)
Lemma ga_key_nonempty g a k : Maven.ga_key g a = Some k → k ≠ "".
Proof.
  unfold Maven.ga_key. destruct (truthy g) eqn:Eg; simpl; [|done].
  apply truthy_Some in Eg as (c & r & ->).
  destruct (truthy a); [|done]. by intros [= <-].
Qed.

Lemma gav_key_nonempty g a v k : Maven.gav_key g a v = Some k → k ≠ "".
Proof.
  unfold Maven.gav_key. destruct (truthy g) eqn:Eg; simpl; [|done].
  apply truthy_Some in Eg as (c & r & ->).
  destruct (truthy a && truthy v); [|done]. by intros [= <-].
Qed.

(** [by_gav] and [by_ga] hold, for a key, the last project of that key. *)
Lemma fold_index_project projects : ∀ by_gav by_ga,
  let r := fold_left Maven.index_project projects (by_gav, by_ga) in
  (∀ k, r.1 !! k
        = match last (filter (λ q, Maven.project_gav q = Some k) projects) with
          | Some q => Some q
          | None => by_gav !! k
          end) ∧
  (∀ k, r.2 !! k
        = match last (filter (λ q, Maven.project_ga q = Some k) projects) with
          | Some q => Some q
          | None => by_ga !! k
          end).
Proof.
  induction projects as [|p projects IH]; intros by_gav by_ga; simpl; [done|].
  destruct (IH (match Maven.project_gav p with
                | Some vk => <[vk := p]> by_gav
                | None => by_gav
                end)
               (match Maven.project_ga p with
                | Some gk => <[gk := p]> by_ga
                | None => by_ga
                end)) as [Hv Hg].
  split; intros k; rewrite filter_cons.
  - rewrite Hv. destruct (Maven.project_gav p) as [vk|].
    + destruct (decide (Some vk = Some k)) as [[= <-]|Hne].
      * rewrite last_cons, lookup_insert_eq. by destruct (last _).
      * rewrite lookup_insert_ne by congruence. done.
    + by rewrite decide_False.
  - rewrite Hg. destruct (Maven.project_ga p) as [gk|].
    + destruct (decide (Some gk = Some k)) as [[= <-]|Hne].
      * rewrite last_cons, lookup_insert_eq. by destruct (last _).
      * rewrite lookup_insert_ne by congruence. done.
    + by rewrite decide_False.
Qed.

Lemma index_projects_lookup projects :
  (∀ k, (Maven.index_projects projects).1 !! k
        = last (filter (λ q, Maven.project_gav q = Some k) projects)) ∧
  (∀ k, (Maven.index_projects projects).2 !! k
        = last (filter (λ q, Maven.project_ga q = Some k) projects)).
Proof.
  destruct (fold_index_project projects ∅ ∅) as [Hv Hg].
  unfold Maven.index_projects.
  split; intros k; [rewrite Hv|rewrite Hg]; rewrite lookup_empty;
    by destruct (last _).
Qed.

Lemma add_dependencies_edges by_gav by_ga p acc :
  Maven.add_dependencies by_gav by_ga acc p
  = acc ++ dependency_edges by_gav by_ga p.
Proof.
  unfold Maven.add_dependencies, dependency_edges.
  destruct (Maven.project_gav p) as [f|]; [|by rewrite app_nil_r].
  revert acc. induction (Maven.dependencies p) as [|d ds IH]; intros acc; simpl.
  - by rewrite app_nil_r.
  - by rewrite IH, <- app_assoc.
Qed.

Lemma fold_add_dependencies by_gav by_ga projects : ∀ acc,
  fold_left (Maven.add_dependencies by_gav by_ga) projects acc
  = acc ++ flat_map (dependency_edges by_gav by_ga) projects.
Proof.
  induction projects as [|p projects IH]; intros acc; simpl.
  - by rewrite app_nil_r.
  - by rewrite IH, add_dependencies_edges, <- app_assoc.
Qed.

Lemma build_graph_dependencies fs projects :
  Maven.graph_dependencies (Maven.build_graph fs projects)
  = flat_map (dependency_edges (Maven.index_projects projects).1
                (Maven.index_projects projects).2) projects.
Proof.
  unfold Maven.build_graph.
  destruct (Maven.index_projects projects) as [by_gav by_ga]. simpl.
  by rewrite fold_add_dependencies.
Qed.

Lemma dependency_edge_in fs projects p from_gav d :
  p ∈ projects → Maven.project_gav p = Some from_gav →
  d ∈ Maven.dependencies p →
  {| Maven.from := from_gav;
     Maven.to := Maven.dependency_target (Maven.index_projects projects).1
                   (Maven.index_projects projects).2 d;
     Maven.edge_scope := Maven.scope d |}
  ∈ Maven.graph_dependencies (Maven.build_graph fs projects).
Proof.
  intros Hp Hf Hd. rewrite build_graph_dependencies.
  apply list_elem_of_In, in_flat_map. exists p.
  split; [by apply list_elem_of_In|].
  apply list_elem_of_In. unfold dependency_edges. rewrite Hf.
  apply list_elem_of_fmap. by exists d.
Qed.

Lemma lookup_key_Some (m : gmap string Maven.Project) k tgt :
  Maven.lookup_key m k = Some tgt → ∃ s, k = Some s ∧ m !! s = Some tgt.
Proof.
  unfold Maven.lookup_key. destruct (or_none k) as [s|] eqn:E; [|done].
  apply or_none_Some in E as [-> _]. eauto.
Qed.

Lemma lookup_key_None (m : gmap string Maven.Project) s :
  s ≠ "" → Maven.lookup_key m (Some s) = None → m !! s = None.
Proof.
  intros Hne. unfold Maven.lookup_key.
  by rewrite (proj2 (or_none_Some (Some s) s) (conj eq_refl Hne)).
Qed.

Lemma gav_key_Some g a v :
  g ≠ "" → a ≠ "" → v ≠ "" →
  Maven.gav_key (Some g) (Some a) (Some v)
  = Some (g +:+ ":" +:+ a +:+ ":" +:+ v).
Proof. intros. by destruct g, a, v. Qed.

Lemma gav_key_no_version g a v :
  truthy v = false → Maven.gav_key g a v = None.
Proof.
  intros Hv. unfold Maven.gav_key. rewrite Hv.
  by rewrite andb_false_r.
Qed.

(** C5, as the code has it.  A project without a full
    group:artifact:version identity gives no dependency edge.  A project
    with a full identity gives one edge for each of its dependencies, in
    their order, from its identity and with the scope of the dependency.
    The target of the edge is the coordinate with version the dependency
    asks for when a parsed project has exactly that identity; otherwise,
    when parsed projects have the group:artifact of the dependency, it is
    the identity of the last of them in the list, with the version that
    project declares and not the requested one, and it is null when that
    project has no version; otherwise it is the group:artifact of the
    dependency, or ["external"] when the dependency has none. *)
Theorem dependency_edges_reclassified fs projects :
  let by_gav := (Maven.index_projects projects).1 in
  let by_ga := (Maven.index_projects projects).2 in
  let target := Maven.dependency_target by_gav by_ga in
  Maven.graph_dependencies (Maven.build_graph fs projects)
  = flat_map (dependency_edges by_gav by_ga) projects ∧
  (∀ p, Maven.project_gav p = None → dependency_edges by_gav by_ga p = []) ∧
  (∀ p from_gav,
     Maven.project_gav p = Some from_gav →
     dependency_edges by_gav by_ga p
     = (λ d, {| Maven.from := from_gav; Maven.to := target d;
                Maven.edge_scope := Maven.scope d |})
       <$> Maven.dependencies p) ∧
  (∀ d k q,
     Maven.gav d = Some k → q ∈ projects → Maven.project_gav q = Some k →
     target d = Some k) ∧
  (∀ d k ps1 q ps2,
     (∀ q' k', q' ∈ projects → Maven.project_gav q' = Some k' →
               Maven.gav d ≠ Some k') →
     Maven.ga d = Some k →
     projects = ps1 ++ q :: ps2 → Maven.project_ga q = Some k →
     (∀ q', q' ∈ ps2 → Maven.project_ga q' ≠ Some k) →
     target d = Maven.project_gav q) ∧
  (∀ q g a v,
     Maven.groupId q = Some g → Maven.artifactId q = Some a →
     Maven.version q = Some v → g ≠ "" → a ≠ "" → v ≠ "" →
     Maven.project_gav q = Some (g +:+ ":" +:+ a +:+ ":" +:+ v)) ∧
  (∀ q, truthy (Maven.version q) = false → Maven.project_gav q = None) ∧
  (∀ d,
     (∀ q' k', q' ∈ projects → Maven.project_gav q' = Some k' →
               Maven.gav d ≠ Some k') →
     (∀ q' k', q' ∈ projects → Maven.project_ga q' = Some k' →
               Maven.ga d ≠ Some k') →
     target d = Some (py_or (Maven.ga d) "external")).
Proof.
  intros by_gav by_ga target.
  destruct (index_projects_lookup projects) as [Hv Hg].
  fold by_gav in Hv. fold by_ga in Hg.
  assert (Hnoexact : ∀ d,
    (∀ q' k', q' ∈ projects → Maven.project_gav q' = Some k' →
              Maven.gav d ≠ Some k') →
    Maven.lookup_key by_gav (Maven.gav d) = None).
  { intros d Hno.
    destruct (Maven.lookup_key by_gav (Maven.gav d)) as [t|] eqn:Et; [|done].
    apply lookup_key_Some in Et as (s & Hs & Ht). rewrite Hv in Ht.
    apply last_Some_elem_of, list_elem_of_filter in Ht as [Hts Htin].
    by destruct (Hno t s Htin Hts). }
  split; [apply build_graph_dependencies|].
  split; [intros p Hp; unfold dependency_edges; by rewrite Hp|].
  split; [intros p from_gav Hp; unfold dependency_edges; by rewrite Hp|].
  split; [|split; [|split; [|split]]].
  - intros d k q Hk Hq Hqk. unfold target, Maven.dependency_target.
    rewrite Hk. unfold Maven.lookup_key.
    rewrite (proj2 (or_none_Some (Some k) k))
      by (split; [done|by eapply gav_key_nonempty]).
    rewrite Hv.
    destruct (last _) as [t|] eqn:El; [done|].
    apply last_None in El.
    assert (Hin : q ∈ filter (λ q0, Maven.project_gav q0 = Some k) projects)
      by (by apply list_elem_of_filter).
    rewrite El in Hin. by apply not_elem_of_nil in Hin.
  - intros d k ps1 q ps2 Hno Hk Hps Hqk Hlast.
    unfold target, Maven.dependency_target. rewrite (Hnoexact d Hno), Hk.
    unfold Maven.lookup_key.
    rewrite (proj2 (or_none_Some (Some k) k))
      by (split; [done|by eapply ga_key_nonempty]).
    rewrite Hg, Hps. by rewrite last_filter_split.
  - intros q g a v Hqg Hqa Hqv Hgne Hane Hvne. unfold Maven.project_gav.
    rewrite Hqg, Hqa, Hqv. by apply gav_key_Some.
  - intros q Hq. by apply gav_key_no_version.
  - intros d Hno Hnog.
    unfold target, Maven.dependency_target. rewrite (Hnoexact d Hno).
    destruct (Maven.lookup_key by_ga (Maven.ga d)) as [t|] eqn:Et; [|done].
    apply lookup_key_Some in Et as (s & Hs & Ht). rewrite Hg in Ht.
    apply last_Some_elem_of, list_elem_of_filter in Ht as [Hts Htin].
    by destruct (Hnog t s Htin Hts).
Qed.

(** The application asks for version 1.5 of [org.x:core]; the workspace
    holds version 2.0 of it, and the edge points at that one. *)
Lemma dependency_edges_reclassified_witness :
  let projects := [core_project; app_project] in
  let d := Maven.dependency (Some "org.x") (Some "core") (Some "1.5")
             None None None in
  Maven.project_gav app_project = Some "org.x:app:1.0" ∧
  d ∈ Maven.dependencies app_project ∧
  Maven.ga d = Some "org.x:core" ∧
  projects = [] ++ core_project :: [app_project] ∧
  Maven.project_ga core_project = Some "org.x:core" ∧
  Maven.dependency_target (Maven.index_projects projects).1
    (Maven.index_projects projects).2 d
  = Some "org.x:core:2.0" ∧
  Maven.graph_dependencies (Maven.build_graph posix_fs projects)
  = [ {| Maven.from := "org.x:app:1.0"; Maven.to := Some "org.x:core:2.0";
         Maven.edge_scope := "compile" |};
      {| Maven.from := "org.x:app:1.0"; Maven.to := Some "junit:junit";
         Maven.edge_scope := "test" |} ].
Proof.
  intros projects d.
  split; [reflexivity|]. split; [apply list_elem_of_here|].
  split; [reflexivity|]. split; [reflexivity|]. split; [reflexivity|].
  destruct (dependency_edges_reclassified posix_fs projects)
    as (Hedges & _ & _ & _ & Hga & _ & _ & _).
  split; [|by vm_compute].
  rewrite (Hga d "org.x:core" [] core_project [app_project]);
    [reflexivity| |reflexivity|reflexivity|reflexivity|].
  - intros q' k' Hq' Hk'. apply list_elem_of_In in Hq'.
    destruct Hq' as [<-|[<-|[]]]; injection Hk' as <-; discriminate.
  - intros q' Hq'. apply list_elem_of_In in Hq'.
    destruct Hq' as [<-|[]]. discriminate.
Defined.

(** C5 as it is worded fails for a project that has no version: the
    application without version depends on [org.x:core], which is a parsed
    project, and the graph holds no dependency edge at all. *)
Lemma dependency_of_project_without_version_dropped :
  let projects := [core_project; app_without_version] in
  ¬ (∀ p d k q,
       p ∈ projects → d ∈ Maven.dependencies p → Maven.ga d = Some k →
       q ∈ projects → Maven.project_ga q = Some k →
       ∃ e, e ∈ Maven.graph_dependencies (Maven.build_graph posix_fs projects) ∧
            Maven.to e = Maven.project_gav q).
Proof.
  intros projects Hclaim.
  destruct (Hclaim app_without_version
              (Maven.dependency (Some "org.x") (Some "core") (Some "1.5")
                 None None None)
              "org.x:core" core_project) as (e & He & _).
  - apply list_elem_of_further, list_elem_of_here.
  - apply list_elem_of_here.
  - reflexivity.
  - apply list_elem_of_here.
  - reflexivity.
  - assert (Hnone : Maven.graph_dependencies
                      (Maven.build_graph posix_fs projects) = [])
      by (by vm_compute).
    rewrite Hnone in He. by apply not_elem_of_nil in He.
Qed.

Lemma same_keys_insert m m' k p p' :
  same_keys m m' → Maven.project_gav p = Maven.project_gav p' →
  same_keys (<[k := p]> m) (<[k := p']> m').
Proof.
  intros Hm Hp k'. destruct (decide (k = k')) as [<-|Hne].
  - rewrite !lookup_insert_eq. simpl. by rewrite Hp.
  - rewrite !lookup_insert_ne by done. apply Hm.
Qed.

(** Emptying the dependency list of a project changes no key of the
    indexes and no identity they lead to. *)
Lemma index_projects_without_dependencies ps1 p ps2 :
  same_keys (Maven.index_projects (ps1 ++ Maven.without_dependencies p :: ps2)).1
            (Maven.index_projects (ps1 ++ p :: ps2)).1 ∧
  same_keys (Maven.index_projects (ps1 ++ Maven.without_dependencies p :: ps2)).2
            (Maven.index_projects (ps1 ++ p :: ps2)).2.
Proof.
  unfold Maven.index_projects. rewrite !fold_left_app. simpl.
  destruct (fold_left Maven.index_project ps1 (∅, ∅)) as [by_gav by_ga].
  assert (Hstep : same_keys (Maven.index_project (by_gav, by_ga)
                               (Maven.without_dependencies p)).1
                            (Maven.index_project (by_gav, by_ga) p).1 ∧
                  same_keys (Maven.index_project (by_gav, by_ga)
                               (Maven.without_dependencies p)).2
                            (Maven.index_project (by_gav, by_ga) p).2).
  { simpl.
    change (Maven.project_gav (Maven.without_dependencies p))
      with (Maven.project_gav p).
    change (Maven.project_ga (Maven.without_dependencies p))
      with (Maven.project_ga p).
    split.
    - destruct (Maven.project_gav p); [|done]. by apply same_keys_insert.
    - destruct (Maven.project_ga p); [|done]. by apply same_keys_insert. }
  revert Hstep.
  generalize (Maven.index_project (by_gav, by_ga) (Maven.without_dependencies p)).
  generalize (Maven.index_project (by_gav, by_ga) p).
  induction ps2 as [|q ps2 IH]; intros [v g] [v' g'] [Hv Hg]; simpl; [done|].
  apply IH. simpl. split.
  - destruct (Maven.project_gav q); [|done]. by apply same_keys_insert.
  - destruct (Maven.project_ga q); [|done]. by apply same_keys_insert.
Qed.

Lemma lookup_key_same_keys m m' k :
  same_keys m m' →
  Maven.project_gav <$> Maven.lookup_key m k
  = Maven.project_gav <$> Maven.lookup_key m' k.
Proof.
  intros Hm. unfold Maven.lookup_key. destruct (or_none k); [apply Hm|done].
Qed.

Lemma dependency_target_same_keys v g v' g' d :
  same_keys v v' → same_keys g g' →
  Maven.dependency_target v g d = Maven.dependency_target v' g' d.
Proof.
  intros Hv Hg. unfold Maven.dependency_target.
  pose proof (lookup_key_same_keys v v' (Maven.gav d) Hv) as H1.
  pose proof (lookup_key_same_keys g g' (Maven.ga d) Hg) as H2.
  destruct (Maven.lookup_key v _), (Maven.lookup_key v' _); try done.
  destruct (Maven.lookup_key g _), (Maven.lookup_key g' _); try done.
  simpl in H2. congruence.
Qed.

Lemma dependency_edges_same_keys v g v' g' q :
  same_keys v v' → same_keys g g' →
  dependency_edges v g q = dependency_edges v' g' q.
Proof.
  intros Hv Hg. unfold dependency_edges.
  destruct (Maven.project_gav q); [|done].
  apply list_fmap_ext. intros _ d _.
  by rewrite (dependency_target_same_keys v g v' g').
Qed.

(** C10: a project whose groupId, artifactId or version is missing (or
    empty) has no identity; the dependency edges of the graph are those of
    the graph of the same projects with the dependency list of that project
    emptied, and every edge starts at the full identity of one of the other
    projects. *)
Theorem project_without_identity_emits_no_dependency fs ps1 p ps2 :
  truthy (Maven.groupId p) && truthy (Maven.artifactId p)
    && truthy (Maven.version p) = false →
  Maven.project_gav p = None ∧
  Maven.graph_dependencies (Maven.build_graph fs (ps1 ++ p :: ps2))
  = Maven.graph_dependencies
      (Maven.build_graph fs (ps1 ++ Maven.without_dependencies p :: ps2)) ∧
  ∀ e, e ∈ Maven.graph_dependencies (Maven.build_graph fs (ps1 ++ p :: ps2)) →
       ∃ q, q ∈ ps1 ++ ps2 ∧ Maven.project_gav q = Some (Maven.from e).
Proof.
  intros Hmiss.
  assert (Hgav : Maven.project_gav p = None).
  { unfold Maven.project_gav, Maven.gav_key. by rewrite Hmiss. }
  assert (Hnone : ∀ by_gav by_ga, dependency_edges by_gav by_ga p = []).
  { intros. unfold dependency_edges. by rewrite Hgav. }
  assert (Hnone' : ∀ by_gav by_ga,
            dependency_edges by_gav by_ga (Maven.without_dependencies p) = []).
  { intros. unfold dependency_edges. by destruct (Maven.project_gav _). }
  split; [done|]. split.
  - rewrite !build_graph_dependencies.
    destruct (index_projects_without_dependencies ps1 p ps2) as [Hv Hg].
    rewrite !flat_map_app. simpl. rewrite Hnone, Hnone'. simpl.
    f_equal; apply flat_map_ext; intros q; symmetry;
      by apply dependency_edges_same_keys.
  - intros e. rewrite build_graph_dependencies, flat_map_app. simpl.
    rewrite Hnone. simpl. rewrite <- flat_map_app.
    intros (q & Hq & He)%list_elem_of_In%in_flat_map.
    exists q. split; [by apply list_elem_of_In|].
    unfold dependency_edges in He.
    destruct (Maven.project_gav q) as [f|]; [|done].
    apply list_elem_of_In, list_elem_of_fmap in He as (d & -> & _). done.
Qed.

Lemma project_without_identity_emits_no_dependency_witness :
  truthy (Maven.groupId app_without_version)
    && truthy (Maven.artifactId app_without_version)
    && truthy (Maven.version app_without_version) = false ∧
  Maven.graph_dependencies
    (Maven.build_graph posix_fs ([core_project] ++ app_without_version :: []))
  = [] ∧
  Maven.graph_dependencies
    (Maven.build_graph posix_fs
       ([core_project] ++ Maven.without_dependencies app_without_version :: []))
  = [].
Proof.
  split; [reflexivity|].
  destruct (project_without_identity_emits_no_dependency posix_fs
              [core_project] app_without_version [] eq_refl)
    as (_ & Heq & _).
  rewrite Heq. split; by vm_compute.
Defined.

(** ** Further properties of the sanitizer *)

Lemma not_in_singleton (a c : ascii) : a ≠ c → a ∉ [c].
Proof.
  intros Hne Hin. apply list_elem_of_In in Hin. by destruct Hin as [->|[]].
Qed.

Lemma not_in_pair (a c d : ascii) : a ≠ c → a ≠ d → a ∉ [c; d].
Proof.
  intros H1 H2 Hin. apply list_elem_of_In in Hin.
  by destruct Hin as [->|[->|[]]].
Qed.

Lemma is_char_false c ch2 : is_char c ch2 = false → ch2 ≠ Some c.
Proof.
  intros H [= ->]. simpl in H. by rewrite Ascii.eqb_refl in H.
Qed.

Lemma blank_not (c : ascii) ch : c ≠ nl → c ≠ sp → blank ch ≠ c.
Proof. unfold blank. by destruct (ch =? nl)%char. Qed.

Ltac opener_goals :=
  match goal with
  | |- _ ∉ [_; _] => apply not_in_pair; discriminate
  | |- _ ∉ [blank _] =>
      apply not_in_singleton, not_eq_sym, blank_not; discriminate
  | E : (?ch =? ?c)%char = false |- ?c ∉ [?ch] =>
      apply not_in_singleton, not_eq_sym; by apply Ascii.eqb_neq
  | |- _ ∉ [_] => apply not_in_singleton; discriminate
  | |- last [blank ?ch] = _ → _ =>
      simpl; intros [= Hb]; by apply blank_not in Hb
  | |- last [?ch] = Some _ → _ =>
      simpl; intros [= ->]; simpl in *;
      repeat split; by apply is_char_false
  | |- last _ = _ → _ => simpl; discriminate
  end.

Lemma csharp_blanks_openers : blanks_openers csharp_step.
Proof.
  intros st ch ch2 more st' out k H.
  destruct st; simpl in H; keeps_cases;
    (split; [|split]); opener_goals.
Qed.

Lemma java_blanks_openers : blanks_openers java_step.
Proof.
  intros st ch ch2 more st' out k H.
  destruct st; simpl in H; keeps_cases;
    (split; [|split]); opener_goals.
Qed.

Lemma csharp_copies_plain : copies_plain csharp_step.
Proof.
  intros ch ch2 more Hdq Hsq Hdq2 Hslash. simpl.
  destruct (Ascii.eqb_spec ch "/") as [->|_]; simpl.
  - destruct (is_char "/" ch2) eqn:E1.
    { apply is_char_Some in E1. destruct Hslash; auto. }
    destruct (is_char "*" ch2) eqn:E2; [|done].
    apply is_char_Some in E2. destruct Hslash; auto.
  - destruct (Ascii.eqb_spec ch "@") as [->|_]; simpl.
    + destruct (is_char dq ch2) eqn:E; [|done].
      by apply is_char_Some in E.
    + by rewrite (proj2 (Ascii.eqb_neq _ _) Hdq),
                 (proj2 (Ascii.eqb_neq _ _) Hsq).
Qed.

Lemma java_copies_plain : copies_plain java_step.
Proof.
  intros ch ch2 more Hdq Hsq Hdq2 Hslash. simpl.
  destruct (Ascii.eqb_spec ch "/") as [->|_]; simpl.
  - destruct (is_char "/" ch2) eqn:E1.
    { apply is_char_Some in E1. destruct Hslash; auto. }
    destruct (is_char "*" ch2) eqn:E2; [|done].
    apply is_char_Some in E2. destruct Hslash; auto.
  - by rewrite (proj2 (Ascii.eqb_neq _ _) Hdq),
               (proj2 (Ascii.eqb_neq _ _) Hsq).
Qed.

Section CleanOutput.
Variable step : lex_state → ascii → option ascii → bool →
                lex_state * text * nat.
Hypothesis Hstep : step_ok step.
Hypothesis Hopeners : blanks_openers step.
Hypothesis Hplain : copies_plain step.

(** A character of the output is the character of the input at the same
    offset, or a space. *)
Lemma scan_pointwise code : ∀ st p c,
  scan step st code !! p = Some c → code !! p = Some c ∨ c = sp.
Proof.
  induction code as [|ch rest IH1 IH2] using text_ind2; intros st p c; [done|].
  destruct (scan_cons _ Hstep st ch rest)
    as (st' & out & [[-> Ho]|(c2 & rest' & -> & ->)]).
  - destruct p as [|p].
    + destruct Ho as [->| [->| ->]]; simpl; intros [= <-]; auto.
      unfold blank. destruct (Ascii.eqb_spec ch nl) as [->|_]; auto.
    + destruct Ho as [->| [->| ->]]; simpl; apply IH1.
  - destruct p as [|[|p]]; simpl;
      [intros [= <-]; auto|intros [= <-]; auto|apply (IH2 st')].
Qed.

Lemma scan_head code st c :
  head (scan step st code) = Some c → head code = Some c ∨ c = sp.
Proof. rewrite !head_lookup. apply scan_pointwise. Qed.

Lemma scan_no_quotes code : ∀ st,
  (dq ∉ scan step st code) ∧ (sq ∉ scan step st code).
Proof.
  induction code as [|ch rest IH1 IH2] using text_ind2; intros st.
  { split; apply not_elem_of_nil. }
  destruct (step st ch (head rest)
              (match rest with [] => false | _ => true end))
    as [[st' out] k] eqn:E.
  destruct (scan_eq _ Hstep _ _ _ _ _ _ E) as (-> & _ & _ & _).
  destruct (Hopeners _ _ _ _ _ _ _ E) as (Hd & Hs & _).
  assert (Htail : (dq ∉ scan step st' (drop (k - 1) rest)) ∧
                  (sq ∉ scan step st' (drop (k - 1) rest))).
  { destruct (Hstep _ _ _ _ _ _ _ E) as [[-> _]|(-> & _ & _)]; simpl.
    - apply IH1.
    - destruct rest; [apply IH1|apply IH2]. }
  destruct Htail as [Htd Hts].
  split; rewrite elem_of_app; intros [?|?]; done.
Qed.

Lemma occurs2_cons a b c t :
  occurs2 a b (c :: t) = ((c =? a)%char && is_char b (head t)) || occurs2 a b t.
Proof. done. Qed.

Lemma scan_no_openers code b :
  b = "/"%char ∨ b = "*"%char →
  ∀ st, occurs2 "/" b (scan step st code) = false.
Proof.
  intros Hb.
  assert (Hsp : b ≠ sp) by (destruct Hb as [->| ->]; discriminate).
  induction code as [|ch rest IH1 IH2] using text_ind2; intros st; [done|].
  destruct (step st ch (head rest)
              (match rest with [] => false | _ => true end))
    as [[st' out] k] eqn:E.
  destruct (scan_eq _ Hstep _ _ _ _ _ _ E) as (-> & _ & _ & _).
  destruct (Hopeners _ _ _ _ _ _ _ E) as (_ & _ & Hlast).
  destruct (Hstep _ _ _ _ _ _ _ E) as [[-> Ho]|(-> & -> & _)].
  - simpl drop.
    assert (∃ c, out = [c]) as [c ->]
      by (destruct Ho as [->| [->| ->]]; eauto).
    simpl app. rewrite occurs2_cons, IH1, orb_false_r.
    destruct (Ascii.eqb_spec c "/") as [->|_]; [|done]. simpl.
    destruct (is_char b (head (scan step st' rest))) eqn:Eh; [|done].
    apply is_char_Some, scan_head in Eh.
    destruct (Hlast eq_refl) as (_ & H1 & H2).
    destruct Eh as [Eh|Eh]; [|done].
    destruct Hb as [->| ->]; congruence.
  - simpl app. rewrite !occurs2_cons. simpl.
    destruct rest; [apply IH1|apply IH2].
Qed.

Lemma scan_clean code st : clean (scan step st code).
Proof.
  destruct (scan_no_quotes code st) as [Hd Hs].
  repeat split; auto; apply scan_no_openers; auto.
Qed.

Lemma scan_clean_id code : clean code → scan step Normal code = code.
Proof.
  induction code as [|ch rest IH]; [done|].
  intros (Hd & Hs & Hcc & Hcs).
  apply not_elem_of_cons in Hd as [Hd1 Hd2].
  apply not_elem_of_cons in Hs as [Hs1 Hs2].
  rewrite occurs2_cons in Hcc, Hcs.
  apply orb_false_elim in Hcc as [Hc1 Hc2].
  apply orb_false_elim in Hcs as [Hc3 Hc4].
  assert (Hh : head rest ≠ Some dq).
  { destruct rest as [|c rest']; [done|]. simpl. intros [= ->].
    apply Hd2, list_elem_of_here. }
  assert (E : step Normal ch (head rest)
                (match rest with [] => false | _ => true end)
              = (Normal, [ch], 1)).
  { apply Hplain; auto.
    intros [-> [Hx|Hx]]; rewrite Hx in *; simpl in *; discriminate. }
  destruct (scan_eq _ Hstep _ _ _ _ _ _ E) as (-> & _).
  simpl. f_equal. apply IH. by repeat split.
Qed.
End CleanOutput.

Lemma steps_agree st ch ch2 more :
  st ≠ InVerbatimStr → (ch =? "@")%char && is_char dq ch2 = false →
  csharp_step st ch ch2 more = java_step st ch ch2 more ∧
  (csharp_step st ch ch2 more).1.1 ≠ InVerbatimStr.
Proof.
  intros Hst Hat. destruct st; try done; simpl; rewrite ?Hat.
  - by repeat case_match.
  - unfold blank. destruct (Ascii.eqb_spec ch nl) as [->|_]; done.
  - by repeat case_match.
  - by repeat case_match.
  - by repeat case_match.
Qed.

Lemma scans_agree code : ∀ st,
  st ≠ InVerbatimStr → occurs2 "@" dq code = false →
  scan csharp_step st code = scan java_step st code.
Proof.
  induction code as [|ch rest IH1 IH2] using text_ind2; intros st Hst Hocc;
    [done|].
  rewrite occurs2_cons in Hocc. apply orb_false_elim in Hocc as [Hat Hrest].
  destruct (steps_agree st ch (head rest)
              (match rest with [] => false | _ => true end) Hst Hat)
    as [Heq Hst'].
  destruct (csharp_step st ch (head rest) _) as [[st' out] k] eqn:Ec.
  symmetry in Heq. simpl in Hst'.
  destruct (scan_eq _ csharp_step_ok _ _ _ _ _ _ Ec) as (-> & _).
  destruct (scan_eq _ java_step_ok _ _ _ _ _ _ Heq) as (-> & _).
  f_equal.
  destruct (csharp_step_ok _ _ _ _ _ _ _ Ec) as [[-> _]|(-> & _ & _)]; simpl.
  - by apply IH1.
  - destruct rest as [|c rest']; [by apply IH1|].
    apply IH2; [done|]. rewrite occurs2_cons in Hrest.
    by apply orb_false_elim in Hrest as [_ ?].
Qed.

(** X1: what a sanitizer returns holds no double quote, no single quote
    and neither of the comment openers: nothing in it reads as a literal or
    as a comment any more. *)
Theorem sanitized_text_is_clean code :
  (∃ out, strip_csharp_comments_and_strings code = Return out ∧ clean out) ∧
  (∃ out, strip_java_comments_and_strings code = Return out ∧ clean out).
Proof.
  rewrite strip_csharp_scan, strip_java_scan. split; eexists; split; eauto.
  - apply (scan_clean _ csharp_step_ok csharp_blanks_openers).
  - apply (scan_clean _ java_step_ok java_blanks_openers).
Qed.

(** X2: sanitizing twice is sanitizing once. *)
Theorem sanitizer_idempotent code :
  (strip_csharp_comments_and_strings code
     ≫= strip_csharp_comments_and_strings)
  = strip_csharp_comments_and_strings code ∧
  (strip_java_comments_and_strings code ≫= strip_java_comments_and_strings)
  = strip_java_comments_and_strings code.
Proof.
  rewrite strip_csharp_scan, strip_java_scan. simpl.
  rewrite strip_csharp_scan, strip_java_scan. split; f_equal.
  - apply (scan_clean_id _ csharp_step_ok csharp_copies_plain),
          (scan_clean _ csharp_step_ok csharp_blanks_openers).
  - apply (scan_clean_id _ java_step_ok java_copies_plain),
          (scan_clean _ java_step_ok java_blanks_openers).
Qed.

(** X3: a text without quote characters and without comment openers is
    returned as it is. *)
Theorem clean_text_unchanged code :
  clean code →
  strip_csharp_comments_and_strings code = Return code ∧
  strip_java_comments_and_strings code = Return code.
Proof.
  intros Hc. rewrite strip_csharp_scan, strip_java_scan. split; f_equal.
  - by apply (scan_clean_id _ csharp_step_ok csharp_copies_plain).
  - by apply (scan_clean_id _ java_step_ok java_copies_plain).
Qed.

Lemma clean_text_unchanged_witness :
  let code := chars "int f(int a) { return a / 2 * 3; }" in
  clean code ∧
  strip_csharp_comments_and_strings code = Return code ∧
  strip_java_comments_and_strings code = Return code.
Proof.
  intros code.
  assert (Hc : clean code).
  { repeat split; try reflexivity.
    - apply (bool_decide_unpack _). by vm_compute.
    - apply (bool_decide_unpack _). by vm_compute. }
  split; [exact Hc|]. exact (clean_text_unchanged code Hc).
Defined.

(** X4: the output is as long as the input, and each of its characters is
    the character of the input at the same offset or a space; so offsets
    and line numbers of what is left are those of the input. *)
Theorem sanitizer_position_preserving code :
  (∃ out, strip_csharp_comments_and_strings code = Return out ∧
          length out = length code ∧
          ∀ p c, out !! p = Some c → code !! p = Some c ∨ c = sp) ∧
  (∃ out, strip_java_comments_and_strings code = Return out ∧
          length out = length code ∧
          ∀ p c, out !! p = Some c → code !! p = Some c ∨ c = sp).
Proof.
  rewrite strip_csharp_scan, strip_java_scan.
  split; eexists; (split; [done|]); split.
  - apply (scan_length _ csharp_step_ok).
  - apply (scan_pointwise _ csharp_step_ok).
  - apply (scan_length _ java_step_ok).
  - apply (scan_pointwise _ java_step_ok).
Qed.

Lemma sanitizer_position_preserving_witness :
  let code := chars "a = 'b'; // c" in
  ∃ out, strip_csharp_comments_and_strings code = Return out ∧
         out !! 0 = Some "a"%char ∧ code !! 0 = Some "a"%char ∧
         out !! 5 = Some sp.
Proof.
  intros code.
  destruct (proj1 (sanitizer_position_preserving code)) as (out & Hout & _ & Hp).
  exists out. split; [exact Hout|].
  assert (E := Hout). vm_compute in E. injection E as <-.
  split; [reflexivity|]. split; [|reflexivity].
  destruct (Hp 0 "a"%char eq_refl) as [H|H]; [exact H|discriminate H].
Defined.

(** X5: in a text without quote characters the line breaks of the output
    are those of the input, also through line and block comments: an offset
    holds a newline after sanitizing exactly when it held one before. *)
Theorem line_breaks_unchanged_without_quotes code :
  dq ∉ code → sq ∉ code →
  ∃ out_cs out_java,
    strip_csharp_comments_and_strings code = Return out_cs ∧
    strip_java_comments_and_strings code = Return out_java ∧
    ∀ p, (out_cs !! p = Some nl ↔ code !! p = Some nl) ∧
         (out_java !! p = Some nl ↔ code !! p = Some nl).
Proof.
  intros Hdq Hsq.
  pose proof (strip_csharp_scan code) as Hcs.
  pose proof (strip_java_scan code) as Hjava.
  eexists _, _. split; [exact Hcs|]. split; [exact Hjava|].
  intros p. split; split.
  - apply (sanitizer_newline_sound code _ p). by left.
  - intros Hp.
    destruct (sanitizer_keeps_newlines_outside_literals code p Hdq Hsq Hp)
      as [(out & Hout & Hnl) _].
    rewrite Hcs in Hout. by injection Hout as <-.
  - apply (sanitizer_newline_sound code _ p). by right.
  - intros Hp.
    destruct (sanitizer_keeps_newlines_outside_literals code p Hdq Hsq Hp)
      as [_ (out & Hout & Hnl)].
    rewrite Hjava in Hout. by injection Hout as <-.
Qed.

Lemma line_breaks_unchanged_without_quotes_witness :
  let code := chars "a // b" ++ [nl] ++ chars "/* c" ++ [nl] ++ chars "*/ d" in
  (dq ∉ code) ∧ (sq ∉ code) ∧
  ∃ out_cs out_java,
    strip_csharp_comments_and_strings code = Return out_cs ∧
    strip_java_comments_and_strings code = Return out_java ∧
    out_cs !! 11 = Some nl ∧ out_java !! 6 = Some nl.
Proof.
  intros code.
  assert (Hd : dq ∉ code) by (apply (bool_decide_unpack _); by vm_compute).
  assert (Hs : sq ∉ code) by (apply (bool_decide_unpack _); by vm_compute).
  split; [exact Hd|]. split; [exact Hs|].
  destruct (line_breaks_unchanged_without_quotes code Hd Hs)
    as (out_cs & out_java & Hcs & Hjava & H).
  exists out_cs, out_java. split; [exact Hcs|]. split; [exact Hjava|].
  split.
  - exact (proj2 (proj1 (H 11)) eq_refl).
  - exact (proj2 (proj2 (H 6)) eq_refl).
Defined.

(** X6: on a text in which no [@] stands directly before a double quote
    the C# sanitizer and the Java sanitizer return the same. *)
Theorem sanitizers_agree_without_verbatim code :
  occurs2 "@" dq code = false →
  strip_csharp_comments_and_strings code
  = strip_java_comments_and_strings code.
Proof.
  intros H. rewrite strip_csharp_scan, strip_java_scan. f_equal.
  by apply scans_agree.
Qed.

Lemma sanitizers_agree_without_verbatim_witness :
  let code := chars "s = " ++ [dq] ++ chars "a@b" ++ [dq] ++ chars "; // x" in
  occurs2 "@" dq code = false ∧
  strip_csharp_comments_and_strings code
  = strip_java_comments_and_strings code.
Proof.
  intros code. split; [reflexivity|].
  exact (sanitizers_agree_without_verbatim code eq_refl).
Defined.

(** ** Further properties of the parameter splitter *)

Lemma lstrip_head s c : head (lstrip s) = Some c → py_isspace c = false.
Proof.
  induction s as [|x s IH]; simpl; [done|].
  destruct (py_isspace x) eqn:E; [done|]. simpl. by intros [= <-].
Qed.

Lemma lstrip_id s :
  (∀ c, head s = Some c → py_isspace c = false) → lstrip s = s.
Proof.
  destruct s as [|x s]; simpl; [done|].
  intros H. by rewrite (H x eq_refl).
Qed.

(** [lstrip] drops a prefix. *)
Lemma lstrip_suffix s : ∃ pre, s = pre ++ lstrip s.
Proof.
  induction s as [|x s [pre IH]]; simpl; [by exists []|].
  destruct (py_isspace x).
  - exists (x :: pre). simpl. by f_equal.
  - by exists [].
Qed.

(** [rstrip] drops a suffix. *)
Lemma rstrip_prefix s : ∃ suf, s = rstrip s ++ suf.
Proof.
  unfold rstrip. destruct (lstrip_suffix (reverse s)) as [pre H].
  exists (reverse pre).
  rewrite <- reverse_app, <- H. by rewrite reverse_involutive.
Qed.

Lemma rstrip_last s c : last (rstrip s) = Some c → py_isspace c = false.
Proof. unfold rstrip. rewrite last_reverse. apply lstrip_head. Qed.

Lemma rstrip_head s c : head (rstrip s) = Some c → head s = Some c.
Proof.
  destruct (rstrip_prefix s) as [suf H]. rewrite H at 2.
  destruct (rstrip s); [done|]. done.
Qed.

Lemma strip_ends s :
  (∀ c, head (strip s) = Some c → py_isspace c = false) ∧
  (∀ c, last (strip s) = Some c → py_isspace c = false).
Proof.
  unfold strip. split; intros c H.
  - apply rstrip_head in H. by apply lstrip_head in H.
  - by apply rstrip_last in H.
Qed.

Lemma rstrip_id s :
  (∀ c, last s = Some c → py_isspace c = false) → rstrip s = s.
Proof.
  intros H. unfold rstrip. rewrite lstrip_id.
  - apply reverse_involutive.
  - intros c. rewrite head_reverse. apply H.
Qed.

Lemma strip_id s :
  (∀ c, head s = Some c → py_isspace c = false) →
  (∀ c, last s = Some c → py_isspace c = false) → strip s = s.
Proof. intros H1 H2. unfold strip. by rewrite lstrip_id, rstrip_id. Qed.

Lemma strip_idempotent s : strip (strip s) = strip s.
Proof. destruct (strip_ends s). by apply strip_id. Qed.

(** X7: a parameter that [split_params] returns is not empty and neither
    starts nor ends with white space; stripping it again changes nothing. *)
Theorem split_params_stripped s p :
  p ∈ split_params s →
  p ≠ [] ∧ strip p = p ∧
  (∀ c, head p = Some c → py_isspace c = false) ∧
  (∀ c, last p = Some c → py_isspace c = false).
Proof.
  rewrite split_params_spec. unfold spec_split_params.
  intros [Hne (seg & -> & _)%list_elem_of_fmap]%list_elem_of_filter.
  destruct (strip_ends seg). auto using strip_idempotent.
Qed.

Lemma split_params_stripped_witness :
  let p := chars "Map<K, V> a" in
  p ∈ split_params (chars "  Map<K, V> a , int b") ∧
  p ≠ [] ∧ strip p = p.
Proof.
  intros p.
  assert (Hin : p ∈ split_params (chars "  Map<K, V> a , int b")).
  { vm_compute. apply list_elem_of_here. }
  split; [exact Hin|].
  destruct (split_params_stripped _ _ Hin) as (H1 & H2 & _).
  split; [exact H1|exact H2].
Defined.

Lemma depth_after_cons d ch s :
  depth_after d (ch :: s) = depth_after (next_depth d ch) s.
Proof. done. Qed.

Lemma top_level_comma_depth d ch :
  top_level_comma d ch = true → next_depth d ch = d.
Proof.
  unfold top_level_comma, next_depth.
  intros [->%Ascii.eqb_eq _]%andb_prop. done.
Qed.

(** The segments of a text cut at a separator. *)
Lemma segments_app_separator b a : ∀ d,
  depth_after d a = 0%Z →
  segments d (a ++ ","%char :: b) = segments d a ++ segments 0 b.
Proof.
  induction a as [|ch r IH]; intros d Hd; simpl.
  - unfold depth_after in Hd. simpl in Hd. subst d. done.
  - rewrite depth_after_cons in Hd.
    destruct (top_level_comma d ch) eqn:E.
    + rewrite (top_level_comma_depth _ _ E) in Hd. by rewrite IH.
    + rewrite IH by done.
      pose proof (segments_nonempty r (next_depth d ch)).
      by destruct (segments (next_depth d ch) r).
Qed.

(** X8: a comma that follows a text whose brackets are closed again cuts
    the parameter list in two: the parameters are those of the text before
    the comma followed by those of the text after it. *)
Theorem split_params_at_separator a b :
  depth_after 0 a = 0%Z →
  split_params (a ++ ","%char :: b) = split_params a ++ split_params b.
Proof.
  intros Hd. rewrite !split_params_spec. unfold spec_split_params.
  by rewrite segments_app_separator, fmap_app, filter_app.
Qed.

Lemma split_params_at_separator_witness :
  let a := chars "Map<K, V> m" in
  let b := chars " List<Pair<A, B>> l, int n" in
  depth_after 0 a = 0%Z ∧
  split_params (a ++ ","%char :: b)
  = [chars "Map<K, V> m"; chars "List<Pair<A, B>> l"; chars "int n"].
Proof.
  intros a b. split; [reflexivity|].
  rewrite (split_params_at_separator a b eq_refl). reflexivity.
Defined.

(** Without an opening bracket the depth stays zero. *)
Lemma segments_no_bracket s :
  "<"%char ∉ s → segments 0 s = split_on "," s.
Proof.
  induction s as [|ch r IH]; [done|].
  intros [Hne Hr]%not_elem_of_cons. simpl.
  unfold top_level_comma, next_depth. simpl.
  rewrite andb_true_r.
  destruct (ch =? ",")%char; [by rewrite IH|].
  destruct (Ascii.eqb_spec ch "<") as [->|_]; [done|].
  destruct (ch =? ">")%char; [change (Z.max 0 (0 - 1)) with 0%Z|];
    by rewrite IH.
Qed.

(** X9: in a parameter list without [<] every comma separates, also after
    a stray [>] (the depth does not go below zero): the parameters are the
    parts between the commas, stripped, the empty ones dropped. *)
Theorem split_params_without_brackets s :
  "<"%char ∉ s →
  split_params s = filter (λ p, p ≠ []) (strip <$> split_on "," s).
Proof.
  intros H. rewrite split_params_spec. unfold spec_split_params.
  by rewrite segments_no_bracket.
Qed.

Lemma split_params_without_brackets_witness :
  let s := chars "a> x, int b,, c" in
  ("<"%char ∉ s) ∧
  split_params s = [chars "a> x"; chars "int b"; chars "c"].
Proof.
  intros s.
  assert (H : "<"%char ∉ s) by (apply (bool_decide_unpack _); by vm_compute).
  split; [exact H|].
  rewrite (split_params_without_brackets s H). reflexivity.
Defined.

(** ** Properties of the white space functions *)

Lemma lstrip_spaces pre s :
  Forall (λ c, py_isspace c = true) pre → lstrip (pre ++ s) = lstrip s.
Proof.
  induction 1 as [|c pre Hc _ IH]; simpl; [done|]. by rewrite Hc.
Qed.

Lemma lstrip_all_spaces s :
  Forall (λ c, py_isspace c = true) s → lstrip s = [].
Proof.
  intros H. rewrite <- (app_nil_r s), lstrip_spaces; done.
Qed.

(** Stripping a text that is white space around a core with solid ends
    gives the core. *)
Lemma strip_sandwich pre core suf :
  Forall (λ c, py_isspace c = true) pre →
  Forall (λ c, py_isspace c = true) suf →
  (∀ c, head core = Some c → py_isspace c = false) →
  (∀ c, last core = Some c → py_isspace c = false) →
  strip (pre ++ core ++ suf) = core.
Proof.
  intros Hpre Hsuf Hh Hl. unfold strip. rewrite lstrip_spaces by done.
  destruct core as [|c core].
  - simpl. rewrite lstrip_all_spaces by done. done.
  - rewrite (lstrip_id ((c :: core) ++ suf)) by (simpl; intros ? [= <-]; auto).
    unfold rstrip. rewrite reverse_app, lstrip_spaces.
    + rewrite lstrip_id; [apply reverse_involutive|].
      intros x. rewrite head_reverse. apply Hl.
    + by apply Forall_reverse.
Qed.

Lemma join_space_cons w ws :
  join_space (w :: ws)
  = w ++ match ws with [] => [] | _ => sp :: join_space ws end.
Proof. destruct ws; simpl; [done|]. done. Qed.

Lemma py_isspace_sp : py_isspace sp = true.
Proof. done. Qed.

(** What [words_from] returns are words. *)
Lemma words_from_words s : ∀ cur,
  Forall (λ c, py_isspace c = false) cur →
  Forall is_word (words_from cur s).
Proof.
  induction s as [|c r IH]; intros cur Hcur; simpl.
  - destruct cur; [constructor|]. constructor; [by split|constructor].
  - destruct (py_isspace c) eqn:E.
    + destruct cur as [|x cur]; [by apply IH|].
      constructor; [by split|]. by apply IH.
    + apply IH. apply Forall_app. split; [done|]. by constructor.
Qed.

(** The substitution leaves the words, single spaces between them, and white
    space at the two ends at most. *)
Lemma sub_ws_words s :
  (∃ suf, Forall (λ c, py_isspace c = true) suf ∧
          sub_ws true s = join_space (words_from [] s) ++ suf) ∧
  (∀ cur, cur ≠ [] →
     ∃ suf, Forall (λ c, py_isspace c = true) suf ∧
            cur ++ sub_ws false s = join_space (words_from cur s) ++ suf).
Proof.
  induction s as [|c r [(sufA & HsA & IHA) IHB]]; simpl.
  - split; [by exists []|]. intros cur Hcur. exists [].
    split; [done|]. destruct cur; [done|]. simpl. by rewrite !app_nil_r.
  - destruct (py_isspace c) eqn:E.
    + split; [by exists sufA|].
      intros cur Hcur. destruct cur as [|x cur]; [done|].
      rewrite IHA, join_space_cons.
      destruct (words_from [] r) as [|w ws] eqn:Ew.
      * exists (sp :: sufA). split; [by constructor|].
        simpl. by rewrite app_nil_r.
      * exists sufA. split; [done|]. by rewrite <- app_assoc.
    + split.
      * destruct (IHB [c]) as (suf & Hs & H); [done|].
        exists suf. split; [done|]. exact H.
      * intros cur Hcur.
        destruct (IHB (cur ++ [c])) as (suf & Hs & H); [by destruct cur|].
        exists suf. split; [done|]. rewrite <- H. by rewrite <- app_assoc.
Qed.

Lemma sub_ws_false_words s :
  ∃ pre suf, Forall (λ c, py_isspace c = true) pre ∧
             Forall (λ c, py_isspace c = true) suf ∧
             sub_ws false s = pre ++ join_space (words_from [] s) ++ suf.
Proof.
  destruct s as [|c r]; simpl; [by exists [], []|].
  destruct (py_isspace c) eqn:E.
  - destruct (proj1 (sub_ws_words r)) as (suf & Hs & H).
    exists [sp], suf. split; [by repeat constructor|]. split; [done|].
    by rewrite H.
  - destruct (proj2 (sub_ws_words r) [c]) as (suf & Hs & H); [done|].
    exists [], suf. split; [done|]. split; [done|]. exact H.
Qed.

Lemma join_space_ends ws :
  Forall is_word ws →
  (∀ c, head (join_space ws) = Some c → py_isspace c = false) ∧
  (∀ c, last (join_space ws) = Some c → py_isspace c = false).
Proof.
  induction 1 as [|w ws [Hne Hw] Hws [IHh IHl]]; [done|].
  rewrite join_space_cons. split; intros c.
  - destruct w as [|x w]; [done|]. simpl. intros [= <-].
    by apply Forall_cons in Hw as [? _].
  - destruct ws as [|w' ws'].
    + rewrite app_nil_r. intros Hl.
      apply last_Some_elem_of in Hl. rewrite Forall_forall in Hw. auto.
    + rewrite last_app. rewrite last_cons.
      destruct (last (join_space (w' :: ws'))) as [y|] eqn:El.
      * intros [= <-]. by apply IHl.
      * apply last_None in El. apply Forall_cons in Hws as [[Hne' _] _].
        rewrite join_space_cons in El. by destruct w'.
Qed.

Lemma words_from_app w rest : ∀ cur,
  Forall (λ c, py_isspace c = false) w →
  words_from cur (w ++ rest) = words_from (cur ++ w) rest.
Proof.
  induction w as [|c w IH]; intros cur Hw; simpl.
  - by rewrite app_nil_r.
  - apply Forall_cons in Hw as [Hc Hw]. rewrite Hc, IH by done.
    by rewrite <- app_assoc.
Qed.

(** Splitting what was joined gives the words back. *)
Lemma words_from_join ws :
  Forall is_word ws → words_from [] (join_space ws) = ws.
Proof.
  induction 1 as [|w ws [Hne Hw] Hws IH]; [done|].
  rewrite join_space_cons, words_from_app by done. simpl.
  destruct ws as [|w' ws'].
  - simpl. by destruct w.
  - change (words_from w (sp :: join_space (w' :: ws')))
      with (match w with
            | [] => words_from [] (join_space (w' :: ws'))
            | _ => w :: words_from [] (join_space (w' :: ws'))
            end).
    rewrite IH. by destruct w.
Qed.

Lemma normalize_ws_join t : normalize_ws t = join_space (words_from [] t).
Proof.
  unfold normalize_ws.
  destruct (sub_ws_false_words t) as (pre & suf & Hp & Hs & ->).
  destruct (join_space_ends (words_from [] t)) as [Hh Hl].
  { by apply words_from_words. }
  by apply strip_sandwich.
Qed.

(** X10: [normalize_ws] returns the words of its argument joined by single
    spaces, that is [" ".join(s.split())]; the result has no white space at
    its ends, and normalizing it again changes nothing. *)
Theorem normalize_ws_words s :
  normalize_ws s = join_space (words_from [] s) ∧
  Forall is_word (words_from [] s) ∧
  words_from [] (normalize_ws s) = words_from [] s ∧
  normalize_ws (normalize_ws s) = normalize_ws s.
Proof.
  assert (Hw : Forall is_word (words_from [] s))
    by (by apply words_from_words).
  pose proof normalize_ws_join as Hn.
  split; [apply Hn|]. split; [done|].
  assert (Hr : words_from [] (normalize_ws s) = words_from [] s).
  { rewrite Hn. by apply words_from_join. }
  split; [done|]. by rewrite (Hn (normalize_ws s)), Hr, <- Hn.
Qed.

(** ** Further properties of the source aggregator *)

(** X21: what [summarize_sources] returns when every read ends:
    [file_count] is the number of files scanned, in the C# front end those
    that have no [obj] and no [bin] among their parts, in the Java front end
    those of the source directories that exist; and every scanned file is
    listed under one namespace, its own or the default one, with its types,
    in the order of the scan.  A namespace without file has no entry. *)
Theorem summarize_sources_groups_files fs re project_dir :
  (∀ p, fs_read_text fs p ≠ Diverge) →
  (∃ s, Dotnet.summarize_sources fs re project_dir = Return s ∧
        file_count s = length (Dotnet.scanned_files fs project_dir) ∧
        ∀ ns, namespaces s !! ns
              = namespace_entry "(global)" ns
                  (summary_of (parse_csharp_file (fs_read_text fs) re)
                     <$> Dotnet.scanned_files fs project_dir)) ∧
  (∃ s, Maven.summarize_sources fs re project_dir = Return s ∧
        file_count s = length (Maven.scanned_files fs project_dir) ∧
        ∀ ns, namespaces s !! ns
              = namespace_entry "(default)" ns
                  (summary_of (parse_java_file (fs_read_text fs) re)
                     <$> Maven.scanned_files fs project_dir)).
Proof.
  intros Hread. split.
  - destruct (scan_groups "(global)" (parse_csharp_file (fs_read_text fs) re)
                (Dotnet.scanned_files fs project_dir)
                (λ p, parse_csharp_file_ends _ re p (Hread p)))
      as (nss & Hrun & Hnss).
    unfold Dotnet.summarize_sources, Dotnet.scan_sources.
    rewrite dotnet_scan_files.
    change (List.filter _ _) with (Dotnet.scanned_files fs project_dir).
    rewrite Hrun. simpl. eexists. split; [done|]. simpl.
    by rewrite length_fmap.
  - destruct (scan_groups "(default)" (parse_java_file (fs_read_text fs) re)
                (Maven.scanned_files fs project_dir)
                (λ p, parse_java_file_ends _ re p (Hread p)))
      as (nss & Hrun & Hnss).
    unfold Maven.summarize_sources, Maven.scan_sources.
    rewrite maven_scan_dirs.
    change (flat_map _ _) with (Maven.scanned_files fs project_dir).
    rewrite Hrun. simpl. eexists. split; [done|]. simpl.
    by rewrite length_fmap.
Qed.

Lemma summarize_sources_groups_files_witness :
  (∀ p, fs_read_text example_fs p ≠ Diverge) ∧
  length (fs_rglob example_fs "proj" "*.cs") = 4 ∧
  ∃ s, Dotnet.summarize_sources example_fs example_engine "proj" = Return s ∧
       file_count s = 3.
Proof.
  assert (Hread : ∀ p, fs_read_text example_fs p ≠ Diverge).
  { intros p. simpl. by destruct (decide (p = "proj/Broken.cs")). }
  split; [exact Hread|]. split; [reflexivity|].
  destruct (proj1 (summarize_sources_groups_files example_fs example_engine
                     "proj" Hread)) as (s & Hs & Hcount & _).
  exists s. split; [exact Hs|exact Hcount].
Defined.

(** ** Properties of the leading-modifier collectors *)

Lemma rfind_Some c code hi j :
  rfind c code hi = Some j →
  j < hi ∧ code !! j = Some c ∧ ∀ k, j < k < hi → code !! k ≠ Some c.
Proof.
  induction hi as [|h IH]; simpl; [done|].
  destruct (is_char c (code !! h)) eqn:E.
  - intros [= <-]. apply is_char_Some in E.
    split; [lia|]. split; [done|]. intros k Hk. lia.
  - intros (Hlt & Hj & Hk)%IH. split; [lia|]. split; [done|].
    intros k Hkk. destruct (decide (k = h)) as [->|Hne].
    + by apply is_char_false.
    + apply Hk. lia.
Qed.

Lemma rfind_None c code hi :
  rfind c code hi = None → ∀ k, k < hi → code !! k ≠ Some c.
Proof.
  induction hi as [|h IH]; simpl; [intros _ k; lia|].
  destruct (is_char c (code !! h)) eqn:E; [done|].
  intros Hn k Hk. destruct (decide (k = h)) as [->|Hne].
  - by apply is_char_false.
  - apply IH; [done|lia].
Qed.

Lemma rfind_here c code j :
  code !! j = Some c → rfind c code (S j) = Some j.
Proof. intros H. simpl. rewrite H. simpl. by rewrite Ascii.eqb_refl. Qed.

Lemma split_on_no_sep c t : c ∉ t → split_on c t = [t].
Proof.
  induction t as [|x t IH]; [done|].
  intros [Hne Ht]%not_elem_of_cons. simpl.
  destruct (Ascii.eqb_spec x c) as [->|_]; [done|]. by rewrite IH.
Qed.

Lemma split_on_nonempty c t : split_on c t ≠ [].
Proof.
  induction t as [|x t IH]; simpl; [done|].
  destruct (x =? c)%char; [done|]. by destruct (split_on c t).
Qed.

Lemma split_on_app_sep c q t :
  split_on c (q ++ c :: t) = split_on c q ++ split_on c t.
Proof.
  induction q as [|x q IH]; simpl.
  - by rewrite Ascii.eqb_refl.
  - destruct (x =? c)%char; [by rewrite IH|]. rewrite IH.
    pose proof (split_on_nonempty c q). by destruct (split_on c q).
Qed.

(** The text before [hi] is the text before the last newline, the newline,
    and a rest without newline. *)
Lemma take_rfind c code hi j :
  rfind c code hi = Some j →
  take hi code = take j code ++ c :: slice code (S j) hi ∧
  c ∉ slice code (S j) hi.
Proof.
  intros (Hlt & Hj & Hk)%rfind_Some. split.
  - rewrite <- (take_drop_middle code j c Hj) at 1.
    apply lookup_lt_Some in Hj as Hlen.
    replace hi with (length (take j code) + S (hi - S j))
      by (rewrite length_take; lia).
    rewrite take_app_add'; [|done]. simpl. unfold slice. do 3 f_equal.
    rewrite length_take. lia.
  - unfold slice. intros Hin.
    apply list_elem_of_lookup in Hin as [k Hin].
    apply lookup_take_Some in Hin as [Hin Hkk].
    rewrite lookup_drop in Hin. apply (Hk (S j + k)); [lia|done].
Qed.

Lemma take_rfind_None c code hi :
  rfind c code hi = None → c ∉ take hi code.
Proof.
  intros Hn Hin. apply list_elem_of_lookup in Hin as [k Hin].
  apply lookup_take_Some in Hin as [Hin Hk].
  by apply (rfind_None _ _ _ Hn k Hk).
Qed.

Lemma removelast_snoc {A} (l : list A) x : removelast (l ++ [x]) = l.
Proof. apply removelast_last. Qed.

(** The lines above [i], when a newline stands before [i]: the lines above
    the start of the line before, and that line. *)
Lemma lines_above_step code i prev_nl :
  rfind nl code i = Some prev_nl →
  let line_start := match rfind nl code prev_nl with
                    | None => 0
                    | Some j => j + 1
                    end in
  line_start ≤ prev_nl ∧
  lines_above code i
  = lines_above code line_start ++ [slice code line_start prev_nl].
Proof.
  intros Hi. unfold lines_above.
  destruct (take_rfind _ _ _ _ Hi) as [-> Hno].
  rewrite split_on_app_sep, (split_on_no_sep _ _ Hno), removelast_snoc.
  destruct (rfind nl code prev_nl) as [j|] eqn:Ej; simpl.
  - apply rfind_Some in Ej as Hj. destruct Hj as (Hlt & Hj & _).
    split; [lia|].
    destruct (take_rfind _ _ _ _ Ej) as [-> Hno'].
    rewrite split_on_app_sep, (split_on_no_sep _ _ Hno').
    replace (j + 1) with (S j) by lia.
    rewrite (take_S_r _ _ _ Hj).
    rewrite split_on_app_sep. simpl. by rewrite removelast_snoc.
  - split; [lia|].
    rewrite (split_on_no_sep _ _ (take_rfind_None _ _ _ Ej)).
    unfold slice. by rewrite Nat.sub_0_r, drop_0.
Qed.

Lemma lines_above_none code i :
  rfind nl code i = None → lines_above code i = [].
Proof.
  intros H. unfold lines_above.
  by rewrite (split_on_no_sep _ _ (take_rfind_None _ _ _ H)).
Qed.

Lemma attributes_loop_lines code fuel : ∀ i attrs,
  i < fuel →
  attributes_loop fuel code i attrs
  = Return (attrs ++ leading_lines "[" (reverse (lines_above code i))).
Proof.
  induction fuel as [|fuel IH]; intros i attrs Hi; [lia|]. simpl.
  destruct (rfind nl code i) as [prev_nl|] eqn:Ei.
  - destruct (lines_above_step code i prev_nl Ei) as [Hle ->].
    apply rfind_Some in Ei as (Hlt & _).
    rewrite reverse_snoc. simpl.
    destruct (decide (strip (slice code _ prev_nl) = [])); [apply IH; lia|].
    destruct (is_char "[" _); [|by rewrite app_nil_r].
    rewrite IH by lia. by rewrite <- app_assoc.
  - rewrite (lines_above_none _ _ Ei). simpl. by rewrite app_nil_r.
Qed.

Lemma leading_lines_marked marker ls l :
  l ∈ leading_lines marker ls →
  l ≠ [] ∧ head l = Some marker ∧ ∃ raw, raw ∈ ls ∧ l = strip raw.
Proof.
  induction ls as [|x ls IH]; simpl; [by intros ?%not_elem_of_nil|].
  destruct (decide (strip x = [])) as [E|E].
  - intros (? & ? & raw & ? & ?)%IH. split; [done|]. split; [done|].
    exists raw. split; [by apply list_elem_of_further|done].
  - destruct (is_char marker (head (strip x))) eqn:Em;
      [|by intros ?%not_elem_of_nil].
    apply is_char_Some in Em.
    intros [->|Hin]%elem_of_cons.
    + split; [done|]. split; [done|]. exists x.
      split; [apply list_elem_of_here|done].
    + apply IH in Hin as (? & ? & raw & ? & ?). split; [done|].
      split; [done|]. exists raw. split; [by apply list_elem_of_further|done].
Qed.

(** X11: [collect_leading_attributes] returns, within [start_idx + 1]
    iterations; what it returns are the attribute lines met on the way up
    from the line of the declaration: blank lines are passed over, the lines
    whose stripped text starts with a bracket are collected, the first other
    line stops the walk; the lines come stripped, in the order of the
    text. *)
Theorem collect_leading_attributes_lines code start_idx :
  collect_leading_attributes code start_idx
  = Return (reverse (leading_lines "["
                       (reverse (lines_above code start_idx)))) ∧
  ∀ l attrs, collect_leading_attributes code start_idx = Return attrs →
             l ∈ attrs →
             head l = Some "["%char ∧
             ∃ raw, raw ∈ lines_above code start_idx ∧ l = strip raw.
Proof.
  assert (H : collect_leading_attributes code start_idx
              = Return (reverse (leading_lines "["
                          (reverse (lines_above code start_idx))))).
  { unfold collect_leading_attributes.
    rewrite attributes_loop_lines by lia. done. }
  split; [done|]. rewrite H. intros l attrs [= <-] Hl.
  apply elem_of_reverse, leading_lines_marked in Hl
    as (_ & Hh & raw & Hraw & ->).
  split; [done|]. exists raw. split; [|done].
  by apply (proj1 (elem_of_reverse _ _)).
Qed.

Lemma collect_leading_attributes_lines_witness :
  let code := chars "[A]
  [B(1)]

class C" in
  collect_leading_attributes code 15 = Return [chars "[A]"; chars "[B(1)]"] ∧
  head (chars "[B(1)]") = Some "["%char.
Proof.
  intros code. split; [reflexivity|].
  destruct (collect_leading_attributes_lines code 15) as [_ H].
  destruct (H (chars "[B(1)]") [chars "[A]"; chars "[B(1)]"]) as [Hh _];
    [reflexivity|apply (bool_decide_unpack _); by vm_compute|exact Hh].
Defined.

Lemma rstrip_snoc_space s c : py_isspace c = true → rstrip (s ++ [c]) = rstrip s.
Proof.
  intros Hc. unfold rstrip. rewrite reverse_snoc. simpl. by rewrite Hc.
Qed.

Lemma strip_snoc_space s c : py_isspace c = true → strip (s ++ [c]) = strip s.
Proof.
  intros Hc. unfold strip. induction s as [|y s IH]; simpl.
  - by rewrite Hc.
  - destruct (py_isspace y); [done|].
    change (y :: s ++ [c]) with ((y :: s) ++ [c]).
    by rewrite (rstrip_snoc_space (y :: s) c Hc).
Qed.

(** One turn of the Java loop, read on the lines: the segment it strips is
    the last line before the newline after [i], together with the empty line
    that follows it when [i] is itself on a newline. *)
Lemma lines_until_step marker code (h : nat) x :
  code !! h = Some x →
  let prev_newline := found (rfind nl code h) in
  let seg_start :=
    if (prev_newline <? 0)%Z then 0 else Z.to_nat (prev_newline + 1) in
  let seg := strip (slice code seg_start (S h)) in
  leading_lines marker (reverse (lines_until code (Z.of_nat h)))
  = if decide (seg = []) then
      leading_lines marker (reverse (lines_until code (prev_newline - 1)))
    else if is_char marker (head seg) then
      seg :: leading_lines marker (reverse (lines_until code (prev_newline - 1)))
    else [].
Proof.
  intros Hx. unfold lines_until.
  replace (Z.of_nat h <? -1)%Z with false by (symmetry; apply Z.ltb_ge; lia).
  replace (Z.to_nat (Z.of_nat h + 1)) with (S h) by lia.
  rewrite (take_S_r _ _ _ Hx).
  destruct (rfind nl code h) as [q|] eqn:Eq; simpl.
  - replace (Z.of_nat q <? 0)%Z with false by (symmetry; apply Z.ltb_ge; lia).
    replace (Z.of_nat q - 1 <? -1)%Z with false
      by (symmetry; apply Z.ltb_ge; lia).
    replace (Z.to_nat (Z.of_nat q - 1 + 1)) with q by lia.
    replace (Z.to_nat (Z.of_nat q + 1)) with (S q) by lia.
    destruct (take_rfind _ _ _ _ Eq) as [-> Hno].
    apply rfind_Some in Eq as (Hlt & _ & _).
    assert (Hs : slice code (S q) (S h) = slice code (S q) h ++ [x]).
    { unfold slice. replace (S h - S q) with (S (h - S q)) by lia.
      erewrite take_S_r; [done|]. rewrite lookup_drop.
      by replace (S q + (h - S q)) with h by lia. }
    rewrite Hs, <- app_assoc. simpl.
    destruct (decide (x = nl)) as [->|Hne].
    + rewrite (split_on_app_sep nl (take q code)).
      rewrite (split_on_app_sep nl (slice code (S q) h)).
      rewrite (split_on_no_sep _ _ Hno). simpl.
      rewrite reverse_app. change (reverse [slice code (S q) h; []])
        with ([[]; slice code (S q) h] : list text).
      rewrite (strip_snoc_space _ nl) by done. simpl.
      destruct (decide (strip [] = [])) as [_|Hn]; [done|by destruct Hn].
    + rewrite (split_on_app_sep nl (take q code)).
      rewrite (split_on_no_sep nl (slice code (S q) h ++ [x])).
      * by rewrite reverse_snoc.
      * intros [?|Hin%list_elem_of_singleton]%elem_of_app; [done|].
        by apply Hne.
  - apply take_rfind_None in Eq as Hno.
    assert (Hs : slice code 0 (S h) = take h code ++ [x]).
    { unfold slice. by rewrite drop_0, Nat.sub_0_r, (take_S_r _ _ _ Hx). }
    rewrite Hs.
    destruct (decide (x = nl)) as [->|Hne].
    + rewrite (split_on_app_sep nl (take h code) []).
      rewrite (split_on_no_sep _ _ Hno). simpl.
      rewrite (strip_snoc_space _ nl) by done.
      destruct (decide (strip [] = [])) as [_|Hn]; [|by destruct Hn].
      destruct (decide (strip (take h code) = [])); [done|].
      by destruct (is_char marker _).
    + rewrite (split_on_no_sep nl (take h code ++ [x])); [done|].
      intros [?|Hin%list_elem_of_singleton]%elem_of_app; [done|].
      by apply Hne.
Qed.

Lemma annotations_loop_lines code fuel : ∀ i annotations,
  (Z.max (i + 1) 0 < Z.of_nat fuel)%Z →
  (i < Z.of_nat (length code))%Z →
  annotations_loop fuel code i annotations
  = Return (annotations
            ++ leading_lines "@" (reverse (lines_until code i))).
Proof.
  induction fuel as [|fuel IH]; intros i annotations Hf Hlen; [lia|].
  simpl. destruct (i <? 0)%Z eqn:Ei.
  - apply Z.ltb_lt in Ei. unfold lines_until.
    destruct (i <? -1)%Z eqn:Ei'; [by rewrite app_nil_r|].
    apply Z.ltb_ge in Ei'. replace i with (-1)%Z by lia. simpl.
    by rewrite app_nil_r.
  - apply Z.ltb_ge in Ei.
    destruct (lookup_lt_is_Some_2 code (Z.to_nat i)) as [x Hx]; [lia|].
    pose proof (lines_until_step "@" code (Z.to_nat i) x Hx) as Hstep.
    simpl in Hstep. rewrite Z2Nat.id in Hstep by lia.
    replace (Z.to_nat (i + 1)) with (S (Z.to_nat i)) by lia.
    rewrite Hstep.
    assert (Hprev : (found (rfind nl code (Z.to_nat i)) < i)%Z).
    { destruct (rfind nl code (Z.to_nat i)) as [q|] eqn:Eq; simpl; [|lia].
      apply rfind_Some in Eq as (? & _). lia. }
    destruct (decide (strip _ = [])); [apply IH; lia|].
    destruct (is_char "@" _); [|by rewrite app_nil_r].
    rewrite IH by lia. by rewrite <- app_assoc.
Qed.

Lemma lines_above_until code start_idx :
  lines_above code start_idx
  = lines_until code (found (rfind nl code start_idx) + 1 - 2).
Proof.
  unfold lines_until.
  destruct (rfind nl code start_idx) as [q|] eqn:Eq; simpl.
  - replace (Z.of_nat q + 1 - 2 <? -1)%Z with false
      by (symmetry; apply Z.ltb_ge; lia).
    replace (Z.to_nat (Z.of_nat q + 1 - 2 + 1)) with q by lia.
    unfold lines_above. destruct (take_rfind _ _ _ _ Eq) as [-> Hno].
    by rewrite split_on_app_sep, (split_on_no_sep _ _ Hno), removelast_snoc.
  - by apply lines_above_none.
Qed.

(** X12: [collect_leading_annotations] returns, and its index arithmetic
    walks the same lines as the C# collector: from the line above the
    declaration upwards, blank lines are passed over, lines whose stripped
    text starts with an at-sign are collected, the first other line stops
    the walk. *)
Theorem collect_leading_annotations_lines code start_idx :
  collect_leading_annotations code start_idx
  = Return (reverse (leading_lines "@"
                       (reverse (lines_above code start_idx)))).
Proof.
  unfold collect_leading_annotations.
  assert (Hprev : (found (rfind nl code start_idx) < Z.of_nat start_idx)%Z
                  ∧ (found (rfind nl code start_idx)
                     < Z.of_nat (length code))%Z).
  { destruct (rfind nl code start_idx) as [q|] eqn:Eq; simpl; [|lia].
    apply rfind_Some in Eq as (? & ?%lookup_lt_Some & _). lia. }
  rewrite annotations_loop_lines by lia.
  by rewrite lines_above_until.
Qed.

(** ** Further properties of the descriptor parser *)

Lemma ascii_compare_N a b :
  Ascii.compare a b = N.compare (N_of_ascii a) (N_of_ascii b).
Proof. done. Qed.

Lemma string_compare_trans a : ∀ b c,
  String.compare a b ≠ Gt → String.compare b c ≠ Gt →
  String.compare a c ≠ Gt.
Proof.
  induction a as [|x a IH]; intros [|y b] [|z c]; simpl; try done.
  rewrite !ascii_compare_N.
  destruct (N.compare_spec (N_of_ascii x) (N_of_ascii y)) as [Exy|Exy|Exy];
    [|clear IH|done].
  - rewrite Exy. destruct (N.compare (N_of_ascii y) (N_of_ascii z)); [|done..].
    apply IH.
  - intros _.
    destruct (N.compare_spec (N_of_ascii y) (N_of_ascii z)) as [Eyz|Eyz|Eyz];
      [| |done].
    + rewrite <- Eyz. by rewrite (proj2 (N.compare_lt_iff _ _) Exy).
    + intros _.
      by rewrite (proj2 (N.compare_lt_iff _ _) (N.lt_trans _ _ _ Exy Eyz)).
Qed.

Lemma string_leb_compare a b :
  String.leb a b = true ↔ String.compare a b ≠ Gt.
Proof. unfold String.leb. by destruct (String.compare a b). Qed.

Lemma string_leb_trans a b c :
  String.leb a b = true → String.leb b c = true → String.leb a c = true.
Proof. rewrite !string_leb_compare. apply string_compare_trans. Qed.

Lemma string_lt_trans a b c : string_lt a b → string_lt b c → string_lt a c.
Proof.
  intros [Hab Hne] [Hbc Hne']. split; [by eapply string_leb_trans|].
  intros <-. apply Hne. by apply String.leb_antisym.
Qed.

Lemma elem_of_insert_string x y l : x ∈ insert_string y l ↔ x = y ∨ x ∈ l.
Proof.
  induction l as [|z l IH]; simpl.
  - rewrite list_elem_of_singleton. split; [by left|].
    by intros [?|?%not_elem_of_nil].
  - destruct (String.leb y z); rewrite !elem_of_cons; [done|].
    rewrite IH. tauto.
Qed.

Lemma insert_string_sorted x l :
  StronglySorted string_lt l → x ∉ l →
  StronglySorted string_lt (insert_string x l).
Proof.
  induction 1 as [|y l Hs IH Hy]; intros Hx; simpl.
  - by repeat constructor.
  - apply not_elem_of_cons in Hx as [Hne Hx].
    destruct (String.leb x y) eqn:E.
    + assert (Hxy : string_lt x y) by done.
      constructor; [by constructor|]. constructor; [done|].
      eapply Forall_impl; [exact Hy|]. intros z Hz.
      by eapply string_lt_trans.
    + constructor; [by apply IH|].
      apply Forall_forall. intros z [->|Hz]%elem_of_insert_string.
      * split; [|done].
        destruct (String.leb_total x y) as [H|H]; [congruence|done].
      * by eapply Forall_forall in Hy.
Qed.

Lemma sorted_set_spec l :
  StronglySorted string_lt (sorted_set l) ∧ ∀ x, x ∈ sorted_set l ↔ x ∈ l.
Proof.
  unfold sorted_set.
  assert (H : ∀ l', NoDup l' →
    StronglySorted string_lt (foldr insert_string [] l') ∧
    ∀ x, x ∈ foldr insert_string [] l' ↔ x ∈ l').
  { induction 1 as [|y l' Hy Hnd [IHs IHe]]; simpl.
    - split; [constructor|done].
    - split.
      + apply insert_string_sorted; [done|]. by rewrite IHe.
      + intros x. by rewrite elem_of_insert_string, IHe, elem_of_cons. }
  destruct (H (remove_dups l) (NoDup_remove_dups l)) as [Hs He].
  split; [done|]. intros x. by rewrite He, elem_of_remove_dups.
Qed.

(** X18: [target_frameworks] is strictly increasing in the order of
    [sorted], so it holds no framework twice, whatever the order and the
    repetitions in the descriptor; it holds the value of [TargetFramework]
    and the parts of [TargetFrameworks] between semicolons, stripped, the
    empty ones left out, and nothing else. *)
Theorem target_frameworks_sorted_set path parent document :
  let props := Dotnet.collect_props (strip_namespaces document) in
  let tfs := Dotnet.target_frameworks
               (Dotnet.parse_csproj path parent document) in
  StronglySorted string_lt tfs ∧ NoDup tfs ∧
  ∀ tf, tf ∈ tfs ↔
    props !! "TargetFramework" = Some tf ∨
    ∃ all part, props !! "TargetFrameworks" = Some all ∧
      part ∈ split_on ";" (list_ascii_of_string all) ∧
      tf = string_of_list_ascii (strip part) ∧ tf ≠ "".
Proof.
  intros props tfs. unfold tfs, Dotnet.parse_csproj. simpl. fold props.
  unfold Dotnet.collect_frameworks.
  match goal with |- context [sorted_set ?l] =>
    destruct (sorted_set_spec l) as [Hs He]; set (collected := l) in * end.
  split; [exact Hs|]. split.
  { clear He. induction Hs as [|y l Hs IH Hy]; constructor; [|done].
    intros Hin. eapply Forall_forall in Hy; [|exact Hin]. by destruct Hy. }
  intros tf. rewrite He. unfold collected.
  destruct (props !! "TargetFramework") as [one|],
           (props !! "TargetFrameworks") as [all|].
  - rewrite elem_of_app, list_elem_of_singleton, list_elem_of_filter,
      list_elem_of_fmap.
    split.
    + intros [->|[Hne (part & -> & Hpart)]]; [by left|].
      right. by exists all, part.
    + intros [[= ->]|(all' & part & [= <-] & Hpart & -> & Hne)]; [by left|].
      right. split; [done|]. by exists part.
  - rewrite list_elem_of_singleton. split; [intros ->; by left|].
    by intros [[= ->]|(? & ? & [=] & _)].
  - simpl. rewrite list_elem_of_filter, list_elem_of_fmap. split.
    + intros [Hne (part & -> & Hpart)]. right. by exists all, part.
    + intros [[=]|(all' & part & [= <-] & Hpart & -> & Hne)].
      split; [done|]. by exists part.
  - split; [by intros ?%not_elem_of_nil|].
    by intros [[=]|(? & ? & [=] & _)].
Qed.

Lemma parsed_reference_include path parent document pr :
  pr ∈ Dotnet.project_references (Dotnet.parse_csproj path parent document) →
  Dotnet.include pr ≠ "".
Proof.
  unfold Dotnet.parse_csproj. simpl. intros Hin.
  apply list_elem_of_In, in_flat_map in Hin as (ig & _ & Hin).
  apply in_flat_map in Hin as (el & _ & Hin).
  unfold Dotnet.project_reference in Hin.
  destruct (or_none (get "Include" el)) as [inc|] eqn:E; [|done].
  apply or_none_Some in E as [_ Hne].
  destruct Hin as [<-|[]]. done.
Qed.

Lemma flat_map_ext_in {A B} (f g : A → list B) l :
  (∀ x, x ∈ l → f x = g x) → flat_map f l = flat_map g l.
Proof.
  intros H. induction l as [|x l IH]; simpl; [done|].
  rewrite (H x) by apply list_elem_of_here. f_equal.
  apply IH. intros y Hy. by apply H, list_elem_of_further.
Qed.

Lemma flat_map_singleton {A B} (f : A → B) l :
  flat_map (λ x, [f x]) l = f <$> l.
Proof. induction l as [|x l IH]; simpl; [done|]. by rewrite IH. Qed.

(** X19: on descriptors that were parsed, the graph builder never drops a
    reference: the parser records a project reference only with a
    non-empty include path, so the test on the include path in the graph
    builder passes every time and each recorded reference gives its
    edge. *)
Theorem parsed_references_all_give_edges fs
    (documents : list (string * string * Element)) :
  let projects :=
    (λ d, Dotnet.parse_csproj d.1.1 d.1.2 d.2) <$> documents in
  Dotnet.graph_project_references (Dotnet.build_graph fs projects)
  = flat_map (λ p, Dotnet.reference_edge fs projects p
                     <$> Dotnet.project_references p) projects ∧
  length (Dotnet.graph_project_references (Dotnet.build_graph fs projects))
  = length (flat_map Dotnet.project_references projects).
Proof.
  intros projects.
  assert (H : Dotnet.graph_project_references (Dotnet.build_graph fs projects)
              = flat_map (λ p, Dotnet.reference_edge fs projects p
                                 <$> Dotnet.project_references p) projects).
  { destruct (build_graph_edges fs projects) as [-> _].
    apply flat_map_ext_in. intros p Hp.
    apply list_elem_of_fmap in Hp as ([[path parent] document] & -> & _).
    simpl. rewrite <- flat_map_singleton.
    apply flat_map_ext_in. intros pr Hpr.
    rewrite decide_False; [done|].
    exact (parsed_reference_include path parent document pr Hpr). }
  split; [exact H|]. rewrite H.
  generalize (Dotnet.reference_edge fs projects). intros f.
  clear H. clearbody projects.
  induction projects as [|p ps IH]; simpl; [done|].
  by rewrite !length_app, length_fmap, IH.
Qed.

Lemma local_tag_qualified ns t :
  after_brace ns = None → local_tag ("{" +:+ ns +:+ "}" +:+ t) = t.
Proof.
  intros Hns.
  assert (H : after_brace (ns +:+ "}" +:+ t) = Some t).
  { induction ns as [|c ns IH]; simpl in *; [done|].
    destruct (c =? "}")%char; [done|]. by apply IH. }
  change (default ("{" +:+ ns +:+ "}" +:+ t)
            (after_brace (ns +:+ "}" +:+ t)) = t).
  by rewrite H.
Qed.

Lemma strip_namespaces_qualify ns :
  after_brace ns = None → ∀ e, strip_namespaces (qualify ns e) = e.
Proof.
  intros Hns. fix IH 1. intros [t a x cs]. simpl.
  rewrite (local_tag_qualified ns t Hns). f_equal.
  induction cs as [|c cs IHcs]; simpl; [done|].
  by rewrite IH, IHcs.
Qed.

Lemma strip_namespaces_plain : ∀ e, plain e = true → strip_namespaces e = e.
Proof.
  fix IH 1. intros [t a x cs]. simpl.
  intros [Ht Hcs]%andb_true_iff. apply bool_decide_eq_true in Ht.
  unfold local_tag. rewrite Ht. simpl. f_equal.
  induction cs as [|c cs IHcs]; simpl in *; [done|].
  apply andb_true_iff in Hcs as [Hc Hcs].
  by rewrite IH, IHcs.
Qed.

(** X20: the namespace of a descriptor does not count: a descriptor whose
    elements all are in one namespace, as an old-style project file that
    declares the MSBuild namespace, is parsed to the same project as the
    descriptor without namespace. *)
Theorem descriptor_namespace_ignored path parent ns document :
  after_brace ns = None → plain document = true →
  Dotnet.parse_csproj path parent (qualify ns document)
  = Dotnet.parse_csproj path parent document.
Proof.
  intros Hns Hplain. unfold Dotnet.parse_csproj.
  by rewrite (strip_namespaces_qualify ns Hns),
    (strip_namespaces_plain document Hplain).
Qed.

Lemma descriptor_namespace_ignored_witness :
  let ns := "http://schemas.microsoft.com/developer/msbuild/2003" in
  Dotnet.target_frameworks
    (Dotnet.parse_csproj "/w/B/B.csproj" "/w/B" (qualify ns example_sdk_csproj))
  = ["net48"; "net8.0"; "netstandard2.0"] ∧
  length (Dotnet.project_references
            (Dotnet.parse_csproj "/w/B/B.csproj" "/w/B" example_sdk_csproj)) = 1.
Proof.
  intros ns. split; [|reflexivity].
  rewrite (descriptor_namespace_ignored "/w/B/B.csproj" "/w/B" ns
             example_sdk_csproj eq_refl eq_refl).
  reflexivity.
Defined.

(** X25: when the descriptor paths of the parsed projects are resolved
    paths already, the index by resolved path changes nothing: every edge
    points at the resolved include path, whether a parsed project has that
    path or not, since a project found in the index has this very path as
    its [csproj_path]. *)
Theorem resolved_paths_make_index_idle fs projects :
  (∀ q, q ∈ projects →
        fs_resolve fs (Dotnet.csproj_path q) = Dotnet.csproj_path q) →
  Dotnet.graph_project_references (Dotnet.build_graph fs projects)
  = flat_map (λ p,
      flat_map (λ pr,
        if decide (Dotnet.include pr = "") then []
        else [ {| Dotnet.ref_from := Dotnet.csproj_path p;
                  Dotnet.ref_to :=
                    fs_resolve fs (fs_join fs (fs_resolve fs (Dotnet.dir p))
                                     (Dotnet.include pr));
                  Dotnet.edge_name := Dotnet.ref_name pr;
                  Dotnet.edge_project_guid := Dotnet.project_guid pr |} ])
        (Dotnet.project_references p)) projects.
Proof.
  intros Hres. destruct (build_graph_edges fs projects) as [-> _].
  apply flat_map_ext_in. intros p _.
  apply flat_map_ext_in. intros pr _.
  destruct (decide (Dotnet.include pr = "")); [done|].
  unfold Dotnet.reference_edge. do 2 f_equal.
  destruct (last _) as [q|] eqn:El; [|done].
  apply last_Some_elem_of, list_elem_of_filter in El as [Hq Hin].
  rewrite (Hres q Hin) in Hq. rewrite Hq. unfold py_or.
  by destruct (decide (_ = "")).
Qed.

Lemma resolved_paths_make_index_idle_witness :
  let projects := [project_A; project_B ["../A/A.csproj"; "../A"]] in
  (∀ q, q ∈ projects →
        fs_resolve posix_fs (Dotnet.csproj_path q) = Dotnet.csproj_path q) ∧
  Dotnet.ref_to
    <$> Dotnet.graph_project_references (Dotnet.build_graph posix_fs projects)
  = ["/w/A/A.csproj"; "/w/A"].
Proof.
  intros projects.
  assert (H : ∀ q, q ∈ projects →
                fs_resolve posix_fs (Dotnet.csproj_path q)
                = Dotnet.csproj_path q).
  { intros q Hq. apply list_elem_of_In in Hq.
    destruct Hq as [<-|[<-|[]]]; reflexivity. }
  split; [exact H|].
  rewrite (resolved_paths_make_index_idle posix_fs projects H). reflexivity.
Defined.

(** ** Further properties of the declaration extractor *)

(** Some header starts at or before [pos] and the next one, if any, after
    it. *)
Lemma covering_header (tms : list TypeMatch) pos first :
  head tms = Some first → tm_start first ≤ pos →
  ∃ j tm, tms !! j = Some tm ∧ tm_start tm ≤ pos ∧
          ∀ tm', tms !! (j + 1) = Some tm' → pos < tm_start tm'.
Proof.
  revert first. induction tms as [|a tms IH]; intros first Hh Hpos; [done|].
  injection Hh as ->.
  destruct tms as [|b tms].
  - exists 0, first. split; [done|]. split; [done|]. by intros tm'.
  - destruct (decide (pos < tm_start b)) as [Hlt|Hge].
    + exists 0, first. split; [done|]. split; [done|].
      intros tm' [= <-]. done.
    + destruct (IH b eq_refl) as (j & tm & Hj & Hlo & Hhi); [lia|].
      exists (S j), tm. split; [done|]. split; [done|]. exact Hhi.
Qed.

Section Coverage.
Variable stripped : text.
Variable tms : list TypeMatch.
Hypothesis Hsorted : StronglySorted lt (tm_start <$> tms).
Hypothesis Hinside : Forall (λ tm, tm_start tm ≤ length stripped) tms.

(** An offset has an owner exactly from the first header to the end of
    the text. *)
Lemma owner_scope pos first :
  head tms = Some first →
  (∃ j, owning_type_index (make_boundaries stripped tms) pos = Some j ∧
        j < length tms) ↔
  tm_start first ≤ pos ≤ length stripped.
Proof.
  intros Hfirst. split.
  - intros (j & (tm & Hj & Hlo & Hhi)%(owning_type_index_spec _ _ Hsorted) & _).
    split.
    + destruct j as [|j].
      * destruct tms; [done|]. simpl in *. congruence.
      * assert (tm_start first < tm_start tm); [|lia].
        apply (sorted_lookup_lt (tm_start <$> tms) 0 (S j)); try done.
        -- destruct tms; [done|]. simpl in *. congruence.
        -- by rewrite list_lookup_fmap, Hj.
        -- lia.
    + unfold interval_end in Hhi.
      destruct (tms !! (j + 1)) as [tm'|] eqn:E; [|lia].
      rewrite Forall_forall in Hinside.
      pose proof (Hinside tm' (list_elem_of_lookup_2 _ _ _ E)). lia.
  - intros [Hlo Hhi].
    destruct (covering_header tms pos first Hfirst Hlo)
      as (j & tm & Hj & Hstart & Hnext).
    exists j. split; [|by eapply lookup_lt_Some].
    apply (owning_type_index_spec _ _ Hsorted). exists tm.
    split; [done|]. split; [done|]. unfold interval_end.
    destruct (tms !! (j + 1)) as [tm'|]; [by apply Hnext|lia].
Qed.
End Coverage.

(** The matches a list of owners takes, owner by owner, are the matches
    that have one of these owners, each once. *)
Lemma split_by_owner_cons {A} (f : A → option nat) x l js :
  NoDup js →
  flat_map (λ j, filter (λ y, f y = Some j) (x :: l)) js
  ≡ₚ (match f x with
      | Some j => if decide (j ∈ js) then [x] else []
      | None => []
      end)
     ++ flat_map (λ j, filter (λ y, f y = Some j) l) js.
Proof.
  induction js as [|j0 js IH]; intros Hnd; simpl.
  - by destruct (f x).
  - apply NoDup_cons in Hnd as [Hj0 Hnd].
    rewrite (IH Hnd), filter_cons. clear IH.
    destruct (f x) as [j|]; repeat case_decide; simplify_eq; simpl;
      try done; try (symmetry; apply Permutation_middle); exfalso;
      match goal with
      | H : ?a ∉ ?l, H' : ?a ∈ ?l |- _ => exact (H H')
      | H : ?a ∉ ?a :: _ |- _ => apply H, list_elem_of_here
      | H : ?a ∉ _ :: ?l, H' : ?a ∈ ?l |- _ =>
          apply H; by apply list_elem_of_further
      | H : ?a ∈ ?b :: ?l |- _ => apply elem_of_cons in H as [->|?]; done
      end.
Qed.

Lemma flat_map_lookup {T A} (g : T → list A) (F : nat → list A)
    (l : list T) : ∀ k,
  (∀ j t, l !! j = Some t → g t = F (k + j)) →
  flat_map g l = flat_map F (seq k (length l)).
Proof.
  induction l as [|t l IH]; intros k H; simpl; [done|].
  rewrite (H 0 t eq_refl), Nat.add_0_r. f_equal.
  apply IH. intros j t' Hj. rewrite (H (S j) t' Hj). f_equal. lia.
Qed.

Lemma flat_map_fmap {A B C} (h : B → C) (F : A → list B) l :
  flat_map (λ x, h <$> F x) l = h <$> flat_map F l.
Proof.
  induction l as [|x l IH]; simpl; [done|]. by rewrite IH, fmap_app.
Qed.

(** X26: no method match is lost or recorded twice.  When the type
    headers are met from left to right inside the text, every method match
    that starts at or after the first header, inside the text, lies in the
    interval of exactly one type, and a match that starts before the first
    header lies in none; the [methods] lists of the types of a file, put
    together, are, up to their order, the records of the matches that
    start at or after the first header, one record for each match. *)
Theorem methods_recorded_once re file_path stripped first :
  StronglySorted lt (tm_start <$> TYPE_RE_finditer re stripped) →
  Forall (λ tm, tm_start tm ≤ length stripped) (TYPE_RE_finditer re stripped) →
  head (TYPE_RE_finditer re stripped) = Some first →
  let owned := λ mm j,
    ∃ tm, TYPE_RE_finditer re stripped !! j = Some tm ∧
          tm_start tm ≤ mm_start mm
          < interval_end stripped (TYPE_RE_finditer re stripped) j in
  flat_map methods (types (parse_stripped re file_path stripped))
  ≡ₚ member_info
       <$> filter (λ mm, tm_start first ≤ mm_start mm ≤ length stripped)
             (METHOD_RE_finditer re stripped) ∧
  length (flat_map methods (types (parse_stripped re file_path stripped)))
  = length (filter (λ mm, tm_start first ≤ mm_start mm ≤ length stripped)
              (METHOD_RE_finditer re stripped)) ∧
  (∀ mm, tm_start first ≤ mm_start mm ≤ length stripped →
         ∃ j, owned mm j ∧ ∀ j', owned mm j' → j' = j) ∧
  (∀ mm j, mm_start mm < tm_start first → ¬ owned mm j).
Proof.
  intros Hs Hin Hfirst owned.
  destruct (parse_stripped_types re file_path stripped) as [Hlen Hty].
  set (bs := make_boundaries stripped (TYPE_RE_finditer re stripped)) in *.
  set (owner := λ mm : MemberMatch, owning_type_index bs (mm_start mm)).
  assert (Hscope : ∀ mm,
    (∃ j, owner mm = Some j ∧ j < length (TYPE_RE_finditer re stripped)) ↔
    tm_start first ≤ mm_start mm ≤ length stripped).
  { intros mm. apply (owner_scope stripped _ Hs Hin (mm_start mm) first Hfirst). }
  assert (Howned : ∀ mm j, owned mm j ↔ owner mm = Some j).
  { intros mm j. symmetry. apply (owning_type_index_spec stripped _ Hs). }
  assert (Hperm :
    flat_map methods (types (parse_stripped re file_path stripped))
    ≡ₚ member_info
         <$> filter (λ mm, tm_start first ≤ mm_start mm ≤ length stripped)
               (METHOD_RE_finditer re stripped)).
  { rewrite (flat_map_lookup methods
               (λ j, member_info <$> filter (λ mm, owner mm = Some j)
                       (METHOD_RE_finditer re stripped)) _ 0).
    2: { intros j t Hj. simpl.
         assert (Hlt : j < length (TYPE_RE_finditer re stripped)).
         { rewrite <- Hlen. by eapply lookup_lt_Some. }
         destruct (lookup_lt_is_Some_2 _ _ Hlt) as [tm Htm].
         destruct (Hty j tm Htm) as (t' & Ht' & _ & Hm & _).
         rewrite Hj in Ht'. by injection Ht' as <-. }
    rewrite flat_map_fmap, Hlen. apply fmap_Permutation. clear Hty.
    induction (METHOD_RE_finditer re stripped) as [|mm ms IH].
    { simpl. by induction (seq 0 _). }
    rewrite split_by_owner_cons by apply NoDup_seq.
    rewrite IH, filter_cons. specialize (Hscope mm).
    destruct (owner mm) as [j|].
    - destruct (decide (j ∈ seq 0 (length (TYPE_RE_finditer re stripped))))
        as [Hj|Hj].
      + rewrite decide_True; [done|]. apply Hscope. exists j.
        split; [done|]. apply elem_of_seq in Hj. lia.
      + rewrite decide_False; [done|]. intros H. apply Hj.
        apply Hscope in H as (j' & [= <-] & Hlt). apply elem_of_seq. lia.
    - rewrite decide_False; [done|]. intros H.
      by apply Hscope in H as (j' & [=] & _). }
  split; [exact Hperm|].
  split; [by rewrite Hperm, length_fmap|].
  split.
  - intros mm Hmm. apply Hscope in Hmm as (j & Hj & _).
    exists j. split; [by apply Howned|].
    intros j' Hj'. apply Howned in Hj'. congruence.
  - intros mm j Hlt Hj. apply Howned in Hj.
    assert (Hmm : tm_start first ≤ mm_start mm ≤ length stripped).
    { apply Hscope. exists j. split; [done|].
      apply Howned in Hj as (tm & Htm & _). by eapply lookup_lt_Some. }
    lia.
Qed.

Lemma methods_recorded_once_witness :
  ∃ first,
    head (TYPE_RE_finditer example_engine example_source) = Some first ∧
    length (METHOD_RE_finditer example_engine example_source) = 2 ∧
    length (flat_map methods
              (types (parse_stripped example_engine "Example.cs"
                        example_source))) = 2.
Proof.
  destruct (head (TYPE_RE_finditer example_engine example_source))
    as [first|] eqn:E; [|discriminate E].
  exists first. split; [reflexivity|]. split; [reflexivity|].
  destruct (methods_recorded_once example_engine "Example.cs" example_source
              first) as (_ & -> & _).
  - vm_compute. repeat constructor.
  - vm_compute. repeat constructor.
  - exact E.
  - vm_compute in E. injection E as <-. reflexivity.
Defined.

(** ** Further properties of the Maven graph builder *)

Lemma py_or_nonempty x d : d ≠ "" → py_or x d ≠ "".
Proof.
  intros Hd. unfold py_or. destruct x as [s|]; [|done].
  by destruct (decide (s = "")).
Qed.

(** X13: every dependency edge of the graph comes from a dependency of a
    project with a full identity and carries its scope; its source and its
    target are never the empty string; and its target is null only when the
    dependency names the group and artifact of a parsed project that has no
    version, whatever version the dependency asks for. *)
Theorem dependency_edge_targets fs projects e :
  e ∈ Maven.graph_dependencies (Maven.build_graph fs projects) →
  Maven.from e ≠ "" ∧ Maven.to e ≠ Some "" ∧
  ∃ p d, p ∈ projects ∧ Maven.project_gav p = Some (Maven.from e) ∧
         d ∈ Maven.dependencies p ∧ Maven.edge_scope e = Maven.scope d ∧
         (Maven.to e = None →
          ∃ tgt, tgt ∈ projects ∧ Maven.ga d ≠ None ∧
                 Maven.project_ga tgt = Maven.ga d ∧
                 Maven.project_gav tgt = None).
Proof.
  rewrite build_graph_dependencies.
  intros Hin. apply list_elem_of_In, in_flat_map in Hin as (p & Hp & Hin).
  apply list_elem_of_In in Hp, Hin. unfold dependency_edges in Hin.
  destruct (Maven.project_gav p) as [f|] eqn:Ef;
    [|by apply not_elem_of_nil in Hin].
  apply list_elem_of_fmap in Hin as (d & -> & Hd). simpl.
  destruct (index_projects_lookup projects) as [Hv Hg].
  split; [by eapply gav_key_nonempty|].
  unfold Maven.dependency_target.
  destruct (Maven.lookup_key _ (Maven.gav d)) as [t|] eqn:Et.
  - unfold Maven.lookup_key in Et.
    destruct (or_none (Maven.gav d)) as [s|] eqn:Es; [|done].
    apply or_none_Some in Es as [Es Hne]. rewrite Es.
    split; [congruence|]. exists p, d. by repeat split.
  - destruct (Maven.lookup_key _ (Maven.ga d)) as [t|] eqn:Et'.
    + apply lookup_key_Some in Et' as (s & Hs & Ht). rewrite Hg in Ht.
      apply last_Some_elem_of, list_elem_of_filter in Ht as [Hts Htin].
      split.
      * intros Hempty. by apply gav_key_nonempty in Hempty.
      * exists p, d. repeat split; try done. intros Hnone.
        exists t. rewrite Hs. by repeat split.
    + split.
      * intros [= Hempty]. by apply py_or_nonempty in Hempty.
      * exists p, d. by repeat split.
Qed.

Lemma dependency_edge_targets_witness :
  let projects :=
    [ maven_project (Some "org.x") (Some "core") None []; app_project ] in
  let e := {| Maven.from := "org.x:app:1.0"; Maven.to := None;
              Maven.edge_scope := "compile" |} in
  e ∈ Maven.graph_dependencies (Maven.build_graph posix_fs projects) ∧
  Maven.from e ≠ "".
Proof.
  intros projects e.
  assert (Hg : Maven.graph_dependencies (Maven.build_graph posix_fs projects)
               = [ e; {| Maven.from := "org.x:app:1.0";
                         Maven.to := Some "junit:junit";
                         Maven.edge_scope := "test" |} ]) by (by vm_compute).
  assert (He : e ∈ Maven.graph_dependencies
                     (Maven.build_graph posix_fs projects))
    by (rewrite Hg; apply list_elem_of_here).
  split; [exact He|].
  exact (proj1 (dependency_edge_targets posix_fs projects e He)).
Defined.

Lemma fold_add_parent_child projects : ∀ acc e,
  e ∈ fold_left Maven.add_parent_child projects acc ↔
  e ∈ acc ∨
  ∃ p par, p ∈ projects ∧ Maven.parent p = Some par ∧
    Maven.gav_key (Maven.parent_groupId par) (Maven.parent_artifactId par)
      (Maven.parent_version par) = Some (Maven.edge_parent e) ∧
    Maven.project_gav p = Some (Maven.edge_child e).
Proof.
  induction projects as [|p projects IH]; intros acc e; simpl.
  - split; [by left|]. intros [?|(p & par & Hp & _)]; [done|].
    by apply not_elem_of_nil in Hp.
  - rewrite IH. unfold Maven.add_parent_child at 1.
    split.
    + intros [Hacc|(q & par & Hq & Hrest)].
      * destruct (Maven.parent p) as [par|] eqn:Epar; [|by left].
        destruct (Maven.gav_key _ _ _) as [pg|] eqn:Epg; [|by left].
        destruct (Maven.project_gav p) as [cg|] eqn:Ecg; [|by left].
        apply elem_of_app in Hacc as [?|Hacc]; [by left|].
        apply list_elem_of_singleton in Hacc as ->.
        right. exists p, par. split; [apply list_elem_of_here|].
        by repeat split.
      * right. exists q, par. split; [by apply list_elem_of_further|done].
    + intros [Hacc|(q & par & Hq & Hpar & Hpg & Hcg)].
      * left. destruct (Maven.parent p) as [par|]; [|done].
        destruct (Maven.gav_key _ _ _); [|done].
        destruct (Maven.project_gav p); [|done].
        apply elem_of_app. by left.
      * apply elem_of_cons in Hq as [->|Hq].
        -- left. rewrite Hpar, Hpg, Hcg. apply elem_of_app. right.
           destruct e. apply list_elem_of_singleton. done.
        -- right. by exists q, par.
Qed.

Lemma add_modules_edges fs p : ∀ acc,
  Maven.add_modules fs acc p
  = acc ++ ((λ m, {| Maven.aggregator := Maven.project_gav p;
                     Maven.module_path :=
                       fs_resolve fs (fs_join fs (Maven.dir p) m) |})
            <$> Maven.modules p).
Proof.
  unfold Maven.add_modules.
  induction (Maven.modules p) as [|m ms IH]; intros acc; simpl.
  - by rewrite app_nil_r.
  - by rewrite IH, <- app_assoc.
Qed.

Lemma fold_add_modules fs projects : ∀ acc,
  fold_left (Maven.add_modules fs) projects acc
  = acc ++ flat_map (λ p,
      (λ m, {| Maven.aggregator := Maven.project_gav p;
               Maven.module_path :=
                 fs_resolve fs (fs_join fs (Maven.dir p) m) |})
      <$> Maven.modules p) projects.
Proof.
  induction projects as [|p projects IH]; intros acc; simpl.
  - by rewrite app_nil_r.
  - by rewrite IH, add_modules_edges, <- app_assoc.
Qed.

(** X14: the two structural edge lists.  A parent edge stands for each
    project that has a [parent] entry with a full identity and a full
    identity of its own, whether the parent was parsed or not.  A module
    edge stands for each module of each project, in the order of the
    projects and of their modules, also when the aggregating project has
    no identity: its [aggregator] is null then. *)
Theorem structure_edges fs projects :
  (∀ e, e ∈ Maven.parent_child (Maven.build_graph fs projects) ↔
     ∃ p par, p ∈ projects ∧ Maven.parent p = Some par ∧
       Maven.gav_key (Maven.parent_groupId par) (Maven.parent_artifactId par)
         (Maven.parent_version par) = Some (Maven.edge_parent e) ∧
       Maven.project_gav p = Some (Maven.edge_child e)) ∧
  Maven.module_inclusion (Maven.build_graph fs projects)
  = flat_map (λ p,
      (λ m, {| Maven.aggregator := Maven.project_gav p;
               Maven.module_path :=
                 fs_resolve fs (fs_join fs (Maven.dir p) m) |})
      <$> Maven.modules p) projects.
Proof.
  unfold Maven.build_graph.
  destruct (Maven.index_projects projects) as [by_gav by_ga]. simpl.
  split.
  - intros e. rewrite fold_add_parent_child. split; [|by right].
    intros [Hnil|H]; [by apply not_elem_of_nil in Hnil|done].
  - by rewrite fold_add_modules.
Qed.

(** ** Properties of the POM parser *)

Lemma findall_none name root :
  (∀ c, c ∈ children root → tag c ≠ name) → findall name root = [].
Proof.
  intros H. unfold findall.
  induction (children root) as [|c cs IH]; [done|].
  rewrite filter_cons, decide_False by (apply H, list_elem_of_here).
  apply IH. intros c' Hc'. by apply H, list_elem_of_further.
Qed.

Lemma find_none name root :
  (∀ c, c ∈ children root → tag c ≠ name) → find name root = None.
Proof. intros H. unfold find. by rewrite findall_none. Qed.

(** X15: a POM that parses at the first attempt and whose elements are
    not in the Maven namespace gives a project without identity, parent,
    modules and dependencies, and with the packaging [jar]: every lookup
    of that branch goes through the namespace. *)
Theorem pom_without_namespace_is_empty pom_path parent_dir root :
  (∀ c name, c ∈ children root → tag c ≠ m_tag name) →
  parse_pom pom_path parent_dir root
  = {| Maven.pom_path := pom_path; Maven.dir := parent_dir;
       Maven.groupId := None; Maven.artifactId := None;
       Maven.version := None; Maven.name := None;
       Maven.packaging := "jar"; Maven.parent := None;
       Maven.modules := []; Maven.dependencies := [] |}.
Proof.
  intros H. unfold parse_pom.
  rewrite !find_none, !findall_none by (intros c Hc; by apply H).
  done.
Qed.

Lemma pom_without_namespace_is_empty_witness :
  Maven.project_gav (parse_pom "/w/app/pom.xml" "/w/app" (example_pom false))
  = None ∧
  Maven.project_gav (parse_pom "/w/app/pom.xml" "/w/app" (example_pom true))
  = Some "org.x:app:2.0".
Proof.
  split; [|reflexivity].
  rewrite (pom_without_namespace_is_empty "/w/app/pom.xml" "/w/app"
             (example_pom false)); [reflexivity|].
  intros c name Hc. apply list_elem_of_In in Hc.
  destruct Hc as [<-|[<-|[<-|[]]]]; discriminate.
Defined.

(** X16: a module whose own [groupId] and [version] elements are missing
    or without text takes both from its [parent] element, and the graph
    then holds the edge from the identity of the parent to the identity of
    the module, made of the group and the version of the parent and of its
    own artifact. *)
Theorem pom_child_inherits_identity fs pom_path parent_dir root par
    pg pa pv aid ps1 ps2 :
  _xml_text (find (m_tag "groupId") root) = None →
  _xml_text (find (m_tag "version") root) = None →
  _xml_text (find (m_tag "artifactId") root) = Some aid → aid ≠ "" →
  find (m_tag "parent") root = Some par →
  _xml_text (find (m_tag "groupId") par) = Some pg → pg ≠ "" →
  _xml_text (find (m_tag "artifactId") par) = Some pa → pa ≠ "" →
  _xml_text (find (m_tag "version") par) = Some pv → pv ≠ "" →
  let p := parse_pom pom_path parent_dir root in
  Maven.project_gav p = Some (pg +:+ ":" +:+ aid +:+ ":" +:+ pv) ∧
  {| Maven.edge_parent := pg +:+ ":" +:+ pa +:+ ":" +:+ pv;
     Maven.edge_child := pg +:+ ":" +:+ aid +:+ ":" +:+ pv |}
  ∈ Maven.parent_child (Maven.build_graph fs (ps1 ++ p :: ps2)).
Proof.
  intros Hg Hv Ha Hane Hpar Hpg Hpgne Hpa Hpane Hpv Hpvne p.
  assert (Hid : Maven.project_gav p
                = Some (pg +:+ ":" +:+ aid +:+ ":" +:+ pv)).
  { unfold Maven.project_gav, p, parse_pom. simpl.
    rewrite Hg, Hv, Ha, Hpar. simpl. rewrite Hpg, Hpv.
    by apply gav_key_Some. }
  split; [exact Hid|].
  unfold Maven.build_graph.
  destruct (Maven.index_projects _) as [by_gav by_ga]. simpl.
  apply fold_add_parent_child. right.
  exists p, (parent_info_of par). split.
  { apply elem_of_app. right. apply list_elem_of_here. }
  split.
  { unfold p, parse_pom. simpl. by rewrite Hpar. }
  split; [|exact Hid].
  unfold parent_info_of. simpl. rewrite Hpg, Hpa, Hpv.
  by apply gav_key_Some.
Qed.

Lemma pom_child_inherits_identity_witness :
  ∃ par,
    find (m_tag "parent") (example_pom true) = Some par ∧
    {| Maven.edge_parent := "org.x:root:2.0";
       Maven.edge_child := "org.x:app:2.0" |}
    ∈ Maven.parent_child
        (Maven.build_graph posix_fs
           ([] ++ parse_pom "/w/app/pom.xml" "/w/app" (example_pom true)
               :: [core_project])).
Proof.
  destruct (find (m_tag "parent") (example_pom true)) as [par|] eqn:E;
    [|discriminate E].
  exists par. split; [reflexivity|].
  assert (E' := E). vm_compute in E'. injection E' as E'.
  refine (proj2 (pom_child_inherits_identity posix_fs "/w/app/pom.xml" "/w/app"
            (example_pom true) par "org.x" "root" "2.0" "app" [] [core_project]
            eq_refl eq_refl eq_refl _ E _ _ _ _ _ _)); try discriminate;
    by rewrite <- E'.
Defined.

(** X17: a [groupId] element that holds only white space is not a missing
    one: its stripped text is the empty string, which is not [None], so the
    group of the parent is not taken over and the module has no identity,
    whatever its parent gives. *)
Theorem blank_group_blocks_inheritance pom_path parent_dir root el t :
  find (m_tag "groupId") root = Some el →
  el_text el = Some t → t ≠ "" → strip_string t = "" →
  let p := parse_pom pom_path parent_dir root in
  Maven.groupId p = Some "" ∧ Maven.project_gav p = None ∧
  Maven.project_ga p = None.
Proof.
  intros Hel Ht Hne Hblank p.
  assert (Hg : Maven.groupId p = Some "").
  { unfold p, parse_pom. simpl. rewrite Hel. simpl. rewrite Ht.
    rewrite decide_False by done. rewrite Hblank.
    by destruct (find (m_tag "parent") root). }
  split; [exact Hg|].
  unfold Maven.project_gav, Maven.project_ga, Maven.gav_key, Maven.ga_key.
  by rewrite Hg.
Qed.

Lemma blank_group_blocks_inheritance_witness :
  ∃ el,
    find (m_tag "groupId") example_pom_blank_group = Some el ∧
    Maven.parent_groupId
      <$> Maven.parent (parse_pom "/w/app/pom.xml" "/w/app"
                          example_pom_blank_group)
    = Some (Some "org.x") ∧
    Maven.project_gav (parse_pom "/w/app/pom.xml" "/w/app"
                         example_pom_blank_group) = None.
Proof.
  destruct (find (m_tag "groupId") example_pom_blank_group) as [el|] eqn:E;
    [|discriminate E].
  exists el. split; [reflexivity|]. split; [reflexivity|].
  assert (E' := E). vm_compute in E'. injection E' as E'.
  refine (proj1 (proj2 (blank_group_blocks_inheritance "/w/app/pom.xml"
            "/w/app" example_pom_blank_group el "  " E _ _ _)));
    [by rewrite <- E'|discriminate|reflexivity].
Defined.

(** ** Properties of the parameter parsers and of the base type list *)

Lemma lstrip_decompose s :
  ∃ pre, Forall (λ c, py_isspace c = true) pre ∧ s = pre ++ lstrip s.
Proof.
  induction s as [|x s (pre & Hpre & IH)]; simpl; [by exists []|].
  destruct (py_isspace x) eqn:E.
  - exists (x :: pre). split; [by constructor|]. simpl. by f_equal.
  - by exists [].
Qed.

Lemma strip_decompose s :
  ∃ pre suf, Forall (λ c, py_isspace c = true) pre ∧
             Forall (λ c, py_isspace c = true) suf ∧
             s = pre ++ strip s ++ suf.
Proof.
  destruct (lstrip_decompose s) as (pre & Hpre & Hs).
  destruct (lstrip_decompose (reverse (lstrip s))) as (fus & Hfus & Hr).
  exists pre, (reverse fus). split; [done|].
  split; [by apply Forall_reverse|].
  rewrite Hs at 1. f_equal. unfold strip, rstrip.
  rewrite <- reverse_app, <- Hr. by rewrite reverse_involutive.
Qed.

Lemma words_from_spaces s :
  Forall (λ c, py_isspace c = true) s → words_from [] s = [].
Proof. induction 1 as [|c s Hc _ IH]; simpl; [done|]. by rewrite Hc. Qed.

Lemma words_from_spaces_prefix pre s :
  Forall (λ c, py_isspace c = true) pre →
  words_from [] (pre ++ s) = words_from [] s.
Proof. induction 1 as [|c pre Hc _ IH]; simpl; [done|]. by rewrite Hc. Qed.

Lemma words_from_spaces_suffix suf s :
  Forall (λ c, py_isspace c = true) suf →
  ∀ cur, words_from cur (s ++ suf) = words_from cur s.
Proof.
  intros Hsuf. induction s as [|c s IH]; intros cur; simpl.
  - destruct Hsuf as [|c suf Hc Hsuf]; simpl; [done|].
    rewrite Hc, (words_from_spaces suf Hsuf). by destruct cur.
  - destruct (py_isspace c); [|apply IH]. destruct cur; by rewrite IH.
Qed.

(** The white space at the ends does not count for the words. *)
Lemma words_from_strip s : words_from [] (strip s) = words_from [] s.
Proof.
  destruct (strip_decompose s) as (pre & suf & Hpre & Hsuf & Hs).
  rewrite Hs at 2.
  by rewrite words_from_spaces_prefix, words_from_spaces_suffix.
Qed.

Lemma normalize_ws_strip s : normalize_ws (strip s) = normalize_ws s.
Proof. by rewrite !normalize_ws_join, words_from_strip. Qed.

Lemma words_from_started cur s : cur ≠ [] → words_from cur s ≠ [].
Proof.
  revert cur. induction s as [|c s IH]; intros cur Hcur; simpl.
  - by destruct cur.
  - destruct (py_isspace c); [by destruct cur|].
    apply IH. by destruct cur.
Qed.

Lemma words_from_nil s : words_from [] s = [] ↔ strip s = [].
Proof.
  split.
  - intros H. rewrite <- words_from_strip in H.
    destruct (strip s) as [|c r] eqn:E; [done|].
    destruct (strip_ends s) as [Hh _]. rewrite E in Hh.
    simpl in H. rewrite (Hh c eq_refl) in H.
    by apply words_from_started in H.
  - intros H. by rewrite <- words_from_strip, H.
Qed.

Lemma join_space_nil ws : Forall is_word ws → join_space ws = [] → ws = [].
Proof.
  intros Hws. destruct ws as [|w ws]; [done|].
  apply Forall_cons in Hws as [[Hne _] _].
  rewrite join_space_cons. by destruct w.
Qed.

Lemma normalize_ws_nil s : normalize_ws s = [] ↔ strip s = [].
Proof.
  rewrite normalize_ws_join, <- words_from_nil. split.
  - apply join_space_nil, words_from_words. constructor.
  - by intros ->.
Qed.

Lemma normalize_ws_join_words ws :
  Forall is_word ws → normalize_ws (join_space ws) = join_space ws.
Proof. intros H. by rewrite normalize_ws_join, words_from_join. Qed.

Lemma join_space_snoc ws n :
  ws ≠ [] → join_space (ws ++ [n]) = join_space ws ++ sp :: n.
Proof.
  destruct ws as [|w ws]; [done|]. intros _. simpl.
  rewrite flat_map_app. simpl. by rewrite app_nil_r, <- app_assoc.
Qed.

Lemma last_decompose {A} (l : list A) x :
  last l = Some x → l = removelast l ++ [x].
Proof.
  intros H. destruct (decide (l = [])) as [->|Hne]; [done|].
  rewrite (app_removelast_last x Hne) at 1. f_equal. f_equal.
  clear Hne. induction l as [|y [|z l] IH]; [done|by injection H|].
  by apply IH.
Qed.

(** X22: the C# parameter parser takes the last word of the parameter text
    (attribute groups taken out) as the name and the words before it,
    joined by single spaces, as the type: type, a space and name are the
    normalized text, whatever the parameter holds, a default value
    included.  With one word there is a name and no type. *)
Theorem parse_param_last_word sub_attr p :
  strip p ≠ [] →
  let r := CSharp.parse_param sub_attr p in
  let normalized := normalize_ws (sub_attr (strip p)) in
  param_raw r = Some (strip p) ∧
  match param_name r, param_type r with
  | Some n, Some t =>
      is_word n ∧ t ≠ [] ∧ normalize_ws t = t ∧ normalized = t ++ sp :: n
  | Some n, None => is_word n ∧ normalized = n
  | None, _ => normalized = [] ∧ param_type r = None
  end.
Proof.
  intros Hp r normalized. unfold r, CSharp.parse_param.
  rewrite decide_False by done.
  unfold normalized. rewrite normalize_ws_join, words_from_strip.
  assert (Hw : Forall is_word (words_from [] (sub_attr (strip p))))
    by (apply words_from_words; constructor).
  destruct (last (words_from [] (sub_attr (strip p)))) as [n|] eqn:El.
  - apply last_decompose in El as Hdec.
    assert (Hn : is_word n).
    { eapply Forall_forall; [exact Hw|]. by apply last_Some_elem_of. }
    rewrite Hdec in Hw. apply Forall_app in Hw as [Hinit _].
    destruct (decide (removelast _ = [])) as [E|E]; simpl.
    + split; [done|]. split; [done|]. rewrite Hdec, E. simpl.
      by rewrite app_nil_r.
    + split; [done|]. split; [done|].
      split; [intros H; by apply join_space_nil in H|].
      split; [by apply normalize_ws_join_words|].
      rewrite Hdec at 1. by apply join_space_snoc.
  - simpl. apply last_None in El. by rewrite El.
Qed.

Lemma parse_param_last_word_witness :
  let p := chars " int  x = 5 " in
  strip p ≠ [] ∧
  param_name (CSharp.parse_param (λ s, s) p) = Some (chars "5") ∧
  param_type (CSharp.parse_param (λ s, s) p) = Some (chars "int x =") ∧
  normalize_ws (strip p) = chars "int x = 5".
Proof.
  intros p.
  assert (Hp : strip p ≠ []) by (by vm_compute).
  split; [exact Hp|]. split; [reflexivity|]. split; [reflexivity|].
  destruct (parse_param_last_word (λ s, s) p Hp) as [_ H].
  change (param_name (CSharp.parse_param (λ s, s) p))
    with (Some (chars "5")) in H.
  change (param_type (CSharp.parse_param (λ s, s) p))
    with (Some (chars "int x =")) in H.
  destruct H as (_ & _ & _ & H). exact H.
Defined.

Lemma norm_list_parts x :
  CSharp.norm_list (Some x)
  = normalize_ws <$> filter (λ s, strip s ≠ []) (split_on "," x).
Proof.
  unfold CSharp.norm_list. destruct (decide (x = [])) as [->|_]; [|done].
  reflexivity.
Qed.

Lemma filter_fmap_strip (l : list text) :
  normalize_ws <$> filter (λ p, p ≠ []) (strip <$> l)
  = normalize_ws <$> filter (λ s, strip s ≠ []) l.
Proof.
  induction l as [|s l IH]; [done|].
  rewrite fmap_cons, !filter_cons.
  destruct (decide (strip s ≠ [])); [|done].
  by rewrite !fmap_cons, IH, normalize_ws_strip.
Qed.

(** X23: the list of base types is cut at every comma, also at one between
    angle brackets, unlike a parameter list: the base types of two texts
    put together around a comma are those of the first followed by those of
    the second.  Each base type is a non-empty normalized text, and for a
    text without [<] the list is the normalized parameter list. *)
Theorem base_types_cut_at_every_comma :
  (∀ a b, CSharp.norm_list (Some (a ++ ","%char :: b))
          = CSharp.norm_list (Some a) ++ CSharp.norm_list (Some b)) ∧
  (∀ x t, t ∈ CSharp.norm_list x → t ≠ [] ∧ normalize_ws t = t) ∧
  (∀ x, "<"%char ∉ x →
        CSharp.norm_list (Some x) = normalize_ws <$> split_params x).
Proof.
  split; [|split].
  - intros a b. rewrite !norm_list_parts, split_on_app_sep, filter_app.
    by rewrite fmap_app.
  - intros [x|] t; [|by intros ?%not_elem_of_nil].
    rewrite norm_list_parts.
    intros (s & -> & [Hs _]%list_elem_of_filter)%list_elem_of_fmap.
    split.
    + intros H. apply Hs. by apply normalize_ws_nil.
    + rewrite (normalize_ws_join s). apply normalize_ws_join_words.
      apply words_from_words. constructor.
  - intros x Hx. rewrite norm_list_parts, split_params_spec.
    unfold spec_split_params. rewrite segments_no_bracket by done.
    by rewrite filter_fmap_strip.
Qed.

Lemma base_types_cut_at_every_comma_witness :
  let x := chars "Base , IMap<K, V>" in
  CSharp.norm_list (Some x) = [chars "Base"; chars "IMap<K"; chars "V>"] ∧
  split_params x = [chars "Base"; chars "IMap<K, V>"] ∧
  normalize_ws (chars "IMap<K") = chars "IMap<K" ∧
  CSharp.norm_list (Some (chars "A ,B"))
  = normalize_ws <$> split_params (chars "A ,B").
Proof.
  intros x. destruct base_types_cut_at_every_comma as (_ & Hne & Hsame).
  split; [reflexivity|]. split; [reflexivity|]. split.
  - apply (Hne (Some x) (chars "IMap<K")).
    apply list_elem_of_further, list_elem_of_here.
  - apply Hsame. apply (bool_decide_unpack _). by vm_compute.
Defined.

Lemma starts_with_nonempty t : t ≠ [] → starts_with t [] = false.
Proof. by destruct t. Qed.

Lemma last_filter_elem {A} (P : A → Prop) `{∀ x, Decision (P x)} l x :
  last (filter P l) = Some x → P x ∧ x ∈ l.
Proof.
  intros Hl. apply last_Some_elem_of in Hl.
  by apply list_elem_of_filter in Hl.
Qed.

(** X24: the Java parameter parser drops every word that is a piece of
    the word final, not only the modifier itself: the test is that of a
    substring.  So the name it returns is never such a piece, and a
    parameter made of a type and of a name like [i], [n], [a] or [in]
    loses that name: the type is returned as the name, and no type. *)
Theorem parse_param_drops_pieces_of_final findall_anno sub_anno :
  (∀ p n, param_name (Java.parse_param findall_anno sub_anno p) = Some n →
          is_word n ∧ occurs_in n (chars "final") = false ∧
          n ∈ words_from [] (sub_anno (strip p))) ∧
  (∀ ty nm, is_word ty → is_word nm →
            occurs_in ty (chars "final") = false →
            occurs_in nm (chars "final") = true →
            sub_anno (ty ++ sp :: nm) = ty ++ sp :: nm →
            Java.parse_param findall_anno sub_anno (ty ++ sp :: nm)
            = {| param_type := None; param_name := Some ty;
                 param_varargs := None; param_annotations := None;
                 param_raw := Some (ty ++ sp :: nm) |}).
Proof.
  split.
  - intros p n. unfold Java.parse_param.
    destruct (decide (strip p = [])); [done|].
    rewrite words_from_strip.
    destruct (last (filter _ _)) as [m|] eqn:El; [|done].
    apply last_filter_elem in El as [Hm Hin].
    assert (Hw : is_word m).
    { eapply Forall_forall; [|exact Hin]. apply words_from_words. constructor. }
    destruct (decide (removelast _ = [])); simpl; by intros [= <-].
  - intros ty nm Hty Hnm Hkeep Hdrop Hsub.
    assert (Hjoin : ty ++ sp :: nm = join_space [ty; nm])
      by (simpl; by rewrite app_nil_r).
    assert (Hwords : Forall is_word [ty; nm]).
    { constructor; [done|]. constructor; [done|]. constructor. }
    assert (Hstrip : strip (ty ++ sp :: nm) = ty ++ sp :: nm).
    { destruct (join_space_ends [ty; nm] Hwords) as [Hh Hl].
      rewrite Hjoin. by apply strip_id. }
    unfold Java.parse_param. rewrite Hstrip, Hsub.
    rewrite decide_False by (destruct ty; done).
    assert (Hw : words_from [] (ty ++ sp :: nm) = [ty; nm])
      by (rewrite Hjoin; by apply words_from_join).
    rewrite words_from_strip, Hw.
    rewrite filter_cons, decide_True by done.
    rewrite filter_cons, decide_False by (by rewrite Hdrop).
    by rewrite filter_nil.
Qed.

Lemma parse_param_drops_pieces_of_final_witness :
  let p := chars "int i" in
  Java.parse_param (λ _, []) (λ s, s) p
  = {| param_type := None; param_name := Some (chars "int");
       param_varargs := None; param_annotations := None;
       param_raw := Some p |} ∧
  param_name (Java.parse_param (λ _, []) (λ s, s) (chars "final int count"))
  = Some (chars "count") ∧
  occurs_in (chars "count") (chars "final") = false.
Proof.
  intros p.
  destruct (parse_param_drops_pieces_of_final (λ _, []) (λ s, s))
    as [Hname Hlost].
  split.
  - apply (Hlost (chars "int") (chars "i")); try reflexivity;
      (split; [discriminate|by repeat constructor]).
  - split; [reflexivity|].
    exact (proj1 (proj2 (Hname (chars "final int count") (chars "count")
                           eq_refl))).
Defined.
